(** * The CLI engine of ESLint (lib/cli-engine.js): file discovery and result aggregation

    A shallow embedding of [processFile], [findIgnoreFiles],
    [executeOnDirectory], [executeOnFileOrDirectory], [defaultOptions],
    the [CLIEngine] constructor and [CLIEngine.prototype.executeOnFiles].

    The module is callback driven: [fs.stat], the fstream-ignore reader and
    its [addIgnoreFile] all complete in later turns of the event loop.  The
    embedding therefore has two layers:
    - the synchronous bodies of the JavaScript functions, written in a small
      state monad over the state of the Node process, with a sum for what
      they throw;
    - one transition per callback that the event loop may run, giving a
      labelled step function on the state of an [executeOnFiles] call.

    What is assumed of the collaborators, none of which is part of the
    module: the filesystem does not change during a call; a reader delivers
    its events in later turns of the event loop, none while it is paused,
    and nothing after its "end" or "error"; [addIgnoreFile] runs its callback
    once, whether or not it could read the file; [new Config], [new Ignore],
    [fs.existsSync], [eslint.reset] and the caller's callback return
    normally, while [findAll], [getConfig], [fs.readFileSync],
    [eslint.verify] and [rules.load] may throw; an exception that leaves a
    callback of the event loop is caught by no one and ends the call. *)

From Stdlib Require Import String Ascii List Bool Arith Lia.
From stdpp Require Import base gmap strings list fin_maps.
Import ListNotations.

Local Open Scope string_scope.
Local Open Scope list_scope.

Set Default Proof Using "Type".
Set Warnings "-register-all,-clear-no-such-hyp".

(** ** JavaScript values and objects *)

(** The values that occur in a [CLIEngineOptions] object. *)
Inductive Value : Type :=
| VUndefined
| VNull
| VBool (b : bool)
| VStr (s : string)
| VArr (items : list Value)
| VObj (props : list (string * Value)).

(** JavaScript truthiness, as used by [options || {}] and
    [if (this.options.rulePaths)]. *)
Definition truthy (v : Value) : bool :=
  match v with
  | VUndefined | VNull => false
  | VBool b => b
  | VStr s => negb (String.eqb s "")
  | VArr _ | VObj _ => true
  end.

(** An object with its own properties and the properties of its prototype
    ([Object.create(proto)] gives an object with no own property). *)
Record Obj : Type := mkObj {
  own : gmap string Value;
  proto : gmap string Value
}.

Definition Object_create (p : gmap string Value) : Obj :=
  {| own := ∅; proto := p |}.

(** Property read [o.k]: own property first, then the prototype, else
    [undefined]. *)
Definition get (o : Obj) (k : string) : Value :=
  match own o !! k with
  | Some v => v
  | None => default VUndefined (proto o !! k)
  end.

(** [assign(target, source)] of the object-assign package: every own
    enumerable property of [source] is written on [target]. *)
Definition assign (target : Obj) (source : gmap string Value) : Obj :=
  {| own := source ∪ own target; proto := proto target |}.

(** ** [defaultOptions] and the [CLIEngine] constructor *)

Definition defaultOptions : gmap string Value :=
  <["configFile" := VNull]>
  (<["reset" := VBool false]>
  (<["rulePaths" := VArr []]>
  (<["useEslintrc" := VBool true]>
  (<["envs" := VArr []]>
  (<["globals" := VArr []]>
  (<["rules" := VObj []]>
  (<["ignore" := VBool true]>
  (<["ignorePath" := VNull]> ∅)))))))).

(** The nine fields of [defaultOptions] as an association list, in the
    order of the source. *)
Definition defaultFields : list (string * Value) :=
  [ ("configFile", VNull); ("reset", VBool false); ("rulePaths", VArr []);
    ("useEslintrc", VBool true); ("envs", VArr []); ("globals", VArr []);
    ("rules", VObj []); ("ignore", VBool true); ("ignorePath", VNull) ].

Record Engine : Type := mkEngine { options : Obj }.

(** [this.options = assign(Object.create(defaultOptions), options || {})];
    the caller's argument is [None] when it is absent ([undefined]). *)
Definition storedOptions (opts : option (gmap string Value)) : Obj :=
  assign (Object_create defaultOptions) (default ∅ opts).

(** [this.options.rulePaths.forEach(...)]: [rules.load(rulesdir)] is called
    for one element after the other; a call that throws ends the loop.  The
    value holds the calls made, in order, and the exception if there was
    one. *)
Fixpoint loadRules (rules_load : Value -> option string) (dirs : list Value)
  : list Value * option string :=
  match dirs with
  | [] => ([], None)
  | d :: ds =>
      match rules_load d with
      | Some exn => ([d], Some exn)
      | None =>
          let '(loaded, out) := loadRules rules_load ds in (d :: loaded, out)
      end
  end.

(** The constructor, given what [rules.load] does for a directory ([Some]
    of the exception that it throws, or [None]).  After storing the options
    it calls [rules.load(rulesdir)] for the elements of
    [this.options.rulePaths]; nothing catches what [rules.load] throws.  A
    truthy [rulePaths] that is not an array has no [forEach]: the
    constructor throws a TypeError.  The value holds the [rules.load] calls
    made and the instance, or the exception. *)
Definition CLIEngine (rules_load : Value -> option string)
    (opts : option (gmap string Value)) : list Value * (string + Engine) :=
  let this := {| options := storedOptions opts |} in
  let rulePaths := get (options this) "rulePaths" in
  if truthy rulePaths then
    match rulePaths with
    | VArr dirs =>
        let '(loaded, out) := loadRules rules_load dirs in
        (loaded, match out with
                 | Some exn => inl exn
                 | None => inr this
                 end)
    | _ => ([], inl "TypeError: this.options.rulePaths.forEach is not a function")
    end
  else ([], inr this).

(** ** Node's [path] module (POSIX) *)

Definition slash : ascii := "/"%char.
Definition dot : ascii := "."%char.

(** [break sep l] cuts [l] at the first [sep]: the part before it and, when
    there is one, the part after it. *)
Fixpoint break (sep : ascii) (l : list ascii) : list ascii * option (list ascii) :=
  match l with
  | [] => ([], None)
  | c :: l' =>
      if Ascii.eqb c sep then ([], Some l')
      else let '(a, b) := break sep l' in (c :: a, b)
  end.

Fixpoint dropSlashes (l : list ascii) : list ascii :=
  match l with
  | [] => []
  | c :: l' => if Ascii.eqb c slash then dropSlashes l' else l
  end.

(** [path.extname(p)]: from the last dot of the last component of [p] to
    its end; empty when there is no dot, when the dot is the first
    character of the component, and for the component [..].  Trailing
    separators are skipped.  Computed on the reversed path. *)
Definition extname (p : string) : string :=
  let r := dropSlashes (rev (list_ascii_of_string p)) in
  let rbase := fst (break slash r) in
  match break dot rbase with
  | (_, None) => ""
  | (_, Some []) => ""
  | (rext, Some before) =>
      match rext, before with
      | [], [c] => if Ascii.eqb c dot then "" else "."
      | _, _ => string_of_list_ascii (dot :: rev rext)
      end
  end.

Definition endsWithSlash (p : string) : bool :=
  match rev (list_ascii_of_string p) with
  | c :: _ => Ascii.eqb c slash
  | [] => false
  end.

(** [s.split("/")]. *)
Fixpoint splitSlash (l : list ascii) : list (list ascii) :=
  match l with
  | [] => [[]]
  | c :: l' =>
      if Ascii.eqb c slash then [] :: splitSlash l'
      else match splitSlash l' with
           | [] => [[c]]
           | w :: ws => (c :: w) :: ws
           end
  end.

(** [normalizeArray(parts, allowAboveRoot)]: scans the parts from the last
    to the first, dropping [.], and [..] together with the part before it. *)
Definition normalizeArray (parts : list string) (allowAboveRoot : bool) : list string :=
  let '(kept, up) :=
    fold_right (fun part '(acc, up) =>
                  if String.eqb part "." then (acc, up)
                  else if String.eqb part ".." then (acc, S up)
                  else match up with
                       | O => (part :: acc, O)
                       | S up' => (acc, up')
                       end)
               ([], O) parts in
  if allowAboveRoot then repeat ".." up ++ kept else kept.

Definition isAbsolute (p : string) : bool :=
  match p with
  | String c _ => Ascii.eqb c slash
  | EmptyString => false
  end.

(** The loop of [path.resolve]: arguments are taken from the last to the
    first until an absolute one is found; empty arguments are skipped. *)
Fixpoint resolveLoop (rpaths : list string) (resolved : string) : string * bool :=
  match rpaths with
  | [] => (resolved, false)
  | p :: rest =>
      if String.eqb p "" then resolveLoop rest resolved
      else
        let resolved' := p +:+ "/" +:+ resolved in
        if isAbsolute p then (resolved', true) else resolveLoop rest resolved'
  end.

Definition joinSlash (parts : list string) : string :=
  String.concat "/" parts.

(** [path.resolve(...paths)] in a process whose working directory is [cwd]. *)
Definition path_resolve (cwd : string) (paths : list string) : string :=
  let '(resolved, absolute) := resolveLoop (rev (cwd :: paths)) "" in
  let parts :=
    List.filter (fun s => negb (String.eqb s ""))
           (map string_of_list_ascii (splitSlash (list_ascii_of_string resolved))) in
  let body := joinSlash (normalizeArray parts (negb absolute)) in
  let out := (if absolute then "/" else "") +:+ body in
  if String.eqb out "" then "." else out.

(** ** Results, callbacks and the calls made to the outside *)

Definition Error : Type := string.

(** A [LintMessage]; an absent [fatal] reads as [false]. *)
Record Message : Type := mkMessage { fatal : bool; message : string }.

(** A [LintResult]. *)
Record Result : Type := mkResult { filePath : string; messages : list Message }.

(** What [stats.isDirectory()] answers. *)
Inductive Stats : Type := StatFile | StatDir.

Definition isDirectory (s : Stats) : bool :=
  match s with StatDir => true | StatFile => false end.

(** One invocation of the caller's [ResultsCallback]: [callback(err)], with
    no second argument, or [callback(null, results)]. *)
Inductive Callback : Type :=
| CbErr (err : Error)
| CbOk (results : list Result).

(** The calls that the module makes to its collaborators, in the order in
    which it makes them. *)
Inductive Event : Type :=
| EvNewConfig (o : Obj)
| EvStat (file : string)
| EvEslintReset
| EvExistsSync (path : string)
| EvGetConfig (path : string)
| EvReadFileSync (path : string)
| EvEslintVerify (text filename : string)
| EvNewIgnore (dir : string)
| EvNewFileFinder (name : string)
| EvFindAll (dir : string)
| EvPause (dir : string)
| EvAddIgnoreFile (dir file : string)
| EvResume (dir : string).

Definition ESLINT_IGNORE_FILENAME : string := ".eslintignore".

(** Modelled from the spec: [FileFinder] (lib/file-finder.js) is not among
    the sources.  The spec gives it a per-directory memo: once a locator
    instance has answered [findAll] for a directory it answers the same
    query from its cache, without scanning the filesystem again; a failing
    scan fails the whole call.  (The spec also lets one scan serve later
    queries for the directories above the one scanned; the memo here holds
    the queried directories only.) *)
Record FileFinder : Type := mkFileFinder {
  fileName : string;
  cache : gmap string (list string)
}.

Definition newFileFinder (name : string) : FileFinder :=
  {| fileName := name; cache := ∅ |}.

(** ** The environment and the state of the process *)

Section CliEngine.

(** The configuration objects of lib/config.js and the internal state of
    the linter of lib/eslint.js are opaque to this module. *)
Context {Config LintState : Type}.

(** What the collaborators answer, for a fixed snapshot of the filesystem.
    [fs_stat], [fs_existsSync] and [fs_readFileSync] are keyed by the path as
    the module passes it; [fs_readFileSync], [getConfig] and [eslint_verify]
    may throw ([inl]).  [reader dir extra] is the output of an fstream-ignore
    reader on [dir] whose rules come from the [.eslintignore] files under
    [dir] and from the ignore files [extra] that it has taken in through
    [addIgnoreFile]: the paths of its "child" events in order, and its last
    event, "end" ([None]) or "error" ([Some err]).  [readsIgnoreFile dir file]
    tells whether [addIgnoreFile(file)] of the reader on [dir] can read the
    file; its callback runs in both cases.  [scanUp name dir] is the
    filesystem search of a [FileFinder] for files called [name] in [dir] and
    its ancestors. *)
Record World : Type := mkWorld {
  cwd : string;
  fs_stat : string -> Error + Stats;
  fs_existsSync : string -> bool;
  fs_readFileSync : string -> Error + string;
  reader : string -> gset string -> list string * option Error;
  readsIgnoreFile : string -> string -> bool;
  scanUp : string -> string -> Error + list string;
  getConfig : Obj -> string -> Error + Config;
  eslint_reset : LintState -> LintState;
  eslint_verify : LintState -> string -> Config -> string
                  -> (Error + list Message) * LintState
}.

(** The state of the Node process that outlives a call: the module
    variable [ignoreFileFinder], the state of the linter, and the log of the
    calls made so far. *)
Record Process : Type := mkProcess {
  ignoreFileFinder : option FileFinder;
  lint : LintState;
  trace : list Event
}.

(** Synchronous code runs in the state monad over [Process]; a computation
    that may throw returns [inl] of the exception. *)
Definition M (A : Type) : Type := Process -> A * Process.

Definition ret {A : Type} (a : A) : M A := fun p => (a, p).

Definition bind {A B : Type} (m : M A) (k : A -> M B) : M B :=
  fun p => let '(a, p') := m p in k a p'.

(** Sequencing of code that may throw: an exception of [m] skips [k]. *)
Definition bindE {A B : Type} (m : M (Error + A)) (k : A -> M (Error + B))
  : M (Error + B) :=
  fun p => let '(a, p') := m p in
           match a with
           | inl exn => (inl exn, p')
           | inr a' => k a' p'
           end.

(** Code that does not throw, inside code that may. *)
Definition lift {A : Type} (m : M A) : M (Error + A) :=
  fun p => let '(a, p') := m p in (inr a, p').

Notation "x <- c ;; k" := (bind c (fun x => k))
  (at level 62, c at next level, right associativity).
Notation "c ;;; k" := (bind c (fun _ => k))
  (at level 62, right associativity).
Notation "x <-! c ;; k" := (bindE c (fun x => k))
  (at level 62, c at next level, right associativity).

Definition log (e : Event) : M unit :=
  fun p => (tt, {| ignoreFileFinder := ignoreFileFinder p;
                   lint := lint p;
                   trace := trace p ++ [e] |}).

Fixpoint logAll (es : list Event) : M unit :=
  match es with
  | [] => ret tt
  | e :: es' => log e ;;; logAll es'
  end.

Variable w : World.

(** [fs.stat(path)], [fs.existsSync(path)] and [fs.readFileSync(path)]. *)
Definition stat (path : string) : Error + Stats := fs_stat w path.

Definition existsSync (path : string) : M bool :=
  log (EvExistsSync path) ;;;
  ret (fs_existsSync w path).

Definition readFileSync (path : string) : M (Error + string) :=
  log (EvReadFileSync path) ;;;
  ret (fs_readFileSync w path).

Definition eslintReset : M unit :=
  fun p => (tt, {| ignoreFileFinder := ignoreFileFinder p;
                   lint := eslint_reset w (lint p);
                   trace := trace p ++ [EvEslintReset] |}).

Definition eslintVerify (text : string) (config : Config) (filename : string)
  : M (Error + list Message) :=
  fun p => let '(ms, l) := eslint_verify w (lint p) text config filename in
           (ms, {| ignoreFileFinder := ignoreFileFinder p;
                   lint := l;
                   trace := trace p ++ [EvEslintVerify text filename] |}).

Definition configHelper_getConfig (helper : Obj) (path : string)
  : M (Error + Config) :=
  log (EvGetConfig path) ;;;
  ret (getConfig w helper path).

(** *** [processFile] *)

Definition notFound (filePath : string) : Message :=
  {| fatal := true;
     message := "Could not find file at '" +:+ filePath +:+ "'." |}.

(** Nothing in [processFile] catches what [getConfig], [readFileSync] or
    [verify] throw. *)
Definition processFile (filename : string) (configHelper : Obj)
  : M (Error + Result) :=
  eslintReset ;;;
  let filePath := path_resolve (cwd w) [filename] in
  found <- existsSync filePath ;;
  if found : bool then
    config <-! configHelper_getConfig configHelper filePath ;;
    text <-! readFileSync (path_resolve (cwd w) [filename]) ;;
    messages <-! eslintVerify text config filename ;;
    ret (inr {| filePath := filename; messages := messages |})
  else
    ret (inr {| filePath := filename; messages := [notFound filePath] |}).

(** *** [findIgnoreFiles] *)

(** Modelled from the spec: [FileFinder.prototype.findAll], whose source
    (lib/file-finder.js) is missing.  A directory that is in the memo is
    answered from it; otherwise the filesystem is searched, and the call
    either throws ([inl]) or returns the paths found and remembers them. *)
Definition findAll (ff : FileFinder) (dir : string)
  : (Error + list string) * FileFinder :=
  match cache ff !! dir with
  | Some found => (inr found, ff)
  | None =>
      match scanUp w (fileName ff) dir with
      | inl err => (inl err, ff)
      | inr found =>
          (inr found, {| fileName := fileName ff;
                         cache := <[dir := found]> (cache ff) |})
      end
  end.

(** The module variable [ignoreFileFinder] is set on the first call and
    kept from then on. *)
Definition findIgnoreFiles (dir : string) : M (Error + list string) :=
  fun p =>
    let '(ff, tr) :=
      match ignoreFileFinder p with
      | Some ff => (ff, trace p)
      | None => (newFileFinder ESLINT_IGNORE_FILENAME,
                 trace p ++ [EvNewFileFinder ESLINT_IGNORE_FILENAME])
      end in
    let '(out, ff') := findAll ff dir in
    (out, {| ignoreFileFinder := Some ff';
             lint := lint p;
             trace := tr ++ [EvFindAll dir] |}).

(** *** [executeOnDirectory] *)

(** The variables of one [executeOnDirectory] call together with the state
    of its fstream-ignore reader: [loading] holds the [addIgnoreFile] calls
    whose callback has not run yet, [registered] the ignore files whose
    rules the reader has taken in, [emitted] the number of "child" events
    delivered.  [ignoreFilesInParentDirs] is [None] while the variable is
    [undefined], that is when [findIgnoreFiles] threw. *)
Record WalkState : Type := mkWalk {
  wdir : string;
  wresults : list Result;
  counter : nat;
  ignoreFilesInParentDirs : option (list string);
  paused : bool;
  loading : list string;
  registered : gset string;
  emitted : nat
}.

(** The body of [executeOnDirectory]: the reader is created and its
    handlers attached, then the ignore files of the ancestors are looked
    up.  When the lookup throws, the error is returned for [cb(err)]; the
    reader has been created all the same.  When ignore files are found the
    reader is paused and each of them is handed to [addIgnoreFile]. *)
Definition startWalk (dir : string) : M (WalkState * option Error) :=
  log (EvNewIgnore dir) ;;;
  out <- findIgnoreFiles (path_resolve (cwd w) [dir; ".."]) ;;
  match out with
  | inl err =>
      ret ({| wdir := dir; wresults := []; counter := 0;
              ignoreFilesInParentDirs := None; paused := false;
              loading := []; registered := ∅; emitted := 0 |}, Some err)
  | inr found =>
      if Nat.eqb (length found) 0 then
        ret ({| wdir := dir; wresults := []; counter := 0;
                ignoreFilesInParentDirs := Some found; paused := false;
                loading := []; registered := ∅; emitted := 0 |}, None)
      else
        log (EvPause dir) ;;;
        logAll (map (EvAddIgnoreFile dir) found) ;;;
        ret ({| wdir := dir; wresults := []; counter := 0;
                ignoreFilesInParentDirs := Some found; paused := true;
                loading := found; registered := ∅; emitted := 0 |}, None)
  end.

(** The handler of "child": only paths whose extension is [.js] are
    processed; what [processFile] throws leaves the handler before anything
    is pushed on [results]. *)
Definition onChild (c : string) (configHelper : Obj) (ws : WalkState)
  : M (Error + WalkState) :=
  if String.eqb (extname c) ".js" then
    res <-! processFile c configHelper ;;
    ret (inr {| wdir := wdir ws; wresults := wresults ws ++ [res];
                counter := counter ws;
                ignoreFilesInParentDirs := ignoreFilesInParentDirs ws;
                paused := paused ws; loading := loading ws;
                registered := registered ws; emitted := S (emitted ws) |})
  else
    ret (inr {| wdir := wdir ws; wresults := wresults ws;
                counter := counter ws;
                ignoreFilesInParentDirs := ignoreFilesInParentDirs ws;
                paused := paused ws; loading := loading ws;
                registered := registered ws; emitted := S (emitted ws) |}).

(** The callback given to [addIgnoreFile], run when the [i]-th outstanding
    load completes.  It takes no argument: whether or not the reader could
    read the file, the counter is incremented and compared with the number
    of ignore files.  The reader has taken in the rules of a file that it
    could read. *)
Definition onIgnoreFileLoaded (file : string) (i : nat) (ws : WalkState) : M WalkState :=
  let counter' := S (counter ws) in
  let last :=
    match ignoreFilesInParentDirs ws with
    | Some found => Nat.eqb counter' (length found)
    | None => false
    end in
  (if last then log (EvResume (wdir ws)) else ret tt) ;;;
  ret {| wdir := wdir ws; wresults := wresults ws; counter := counter';
         ignoreFilesInParentDirs := ignoreFilesInParentDirs ws;
         paused := if last then false else paused ws;
         loading := delete i (loading ws);
         registered := if readsIgnoreFile w (wdir ws) file
                       then {[ file ]} ∪ registered ws
                       else registered ws;
         emitted := emitted ws |}.

(** *** [executeOnFiles] *)

(** What an [executeOnFiles] call is waiting for: nothing, the [fs.stat] of
    a target, or the reader of a directory.  [Thrown exn]: the exception
    [exn] has left one of the callbacks of the call, which does nothing
    more. *)
Inductive Pending : Type :=
| Idle
| PStat (file : string)
| PWalk (ws : WalkState)
| Thrown (exn : Error).

(** The closure of one [executeOnFiles] call: [this], the caller's array
    [files] (shared with the caller and shortened in place), the
    [configHelper], the local [results], the pending operation, and the
    invocations of the caller's [callback] so far. *)
Record Run : Type := mkRun {
  this : Engine;
  files : list string;
  configHelper : Obj;
  results : list Result;
  pending : Pending;
  calls : list Callback
}.

Definition setPending (pd : Pending) (r : Run) : Run :=
  {| this := this r; files := files r; configHelper := configHelper r;
     results := results r; pending := pd; calls := calls r |}.

Definition callback (c : Callback) (r : Run) : Run :=
  {| this := this r; files := files r; configHelper := configHelper r;
     results := results r; pending := pending r; calls := calls r ++ [c] |}.

(** The local function [next]. *)
Definition next (r : Run) : M Run :=
  match files r with
  | [] => ret (callback (CbOk (results r)) r)
  | file :: rest =>
      log (EvStat file) ;;;
      ret {| this := this r; files := rest; configHelper := configHelper r;
             results := results r; pending := PStat file; calls := calls r |}
  end.

(** The callback that [next] hands to [executeOnFileOrDirectory]. *)
Definition dispatched (out : Error + list Result) (r : Run) : M Run :=
  match out with
  | inl err => ret (callback (CbErr err) r)
  | inr res =>
      next {| this := this r; files := files r; configHelper := configHelper r;
              results := results r ++ res; pending := pending r;
              calls := calls r |}
  end.

Definition executeOnDirectory (dir : string) (r : Run) : M Run :=
  started <- startWalk dir ;;
  let '(ws, early) := started in
  let r' := setPending (PWalk ws) r in
  match early with
  | Some err => dispatched (inl err) r'
  | None => ret r'
  end.

(** The callback of [fs.stat] in [executeOnFileOrDirectory]; [inl] when an
    exception leaves it. *)
Definition onStat (file : string) (r : Run) : M (Error + Run) :=
  let r0 := setPending Idle r in
  match stat file with
  | inl err => lift (dispatched (inl err) r0)
  | inr stats =>
      if isDirectory stats then lift (executeOnDirectory file r0)
      else
        res <-! processFile file (configHelper r0) ;;
        lift (dispatched (inr [res]) r0)
  end.

(** The next event of an unpaused reader: a "child", or at the end of its
    output "end" or "error"; [inl] when an exception leaves the handler. *)
Definition onReader (ws : WalkState) (r : Run) : M (Error + Run) :=
  let '(children, last) := reader w (wdir ws) (registered ws) in
  match children !! emitted ws with
  | Some c =>
      ws' <-! onChild c (configHelper r) ws ;;
      ret (inr (setPending (PWalk ws') r))
  | None =>
      match last with
      | Some err => lift (dispatched (inl err) (setPending Idle r))
      | None => lift (dispatched (inr (wresults ws)) (setPending Idle r))
      end
  end.

Definition executeOnFiles (engine : Engine) (targets : list string) : M Run :=
  log (EvNewConfig (options engine)) ;;;
  next {| this := engine; files := targets; configHelper := options engine;
          results := []; pending := Idle; calls := [] |}.

(** ** The event loop *)

(** The callbacks that the event loop can run. *)
Inductive Choice : Type :=
| StatDone
| IgnoreFileLoaded (i : nat)
| ReaderEvent.

(** What the event loop is left with when a callback of the call in state
    [r] has run: the state that the callback made, or [r] with the exception
    that left the callback. *)
Definition escaped (r : Run) (out : Error + Run) : Run :=
  match out with
  | inr r' => r'
  | inl exn => setPending (Thrown exn) r
  end.

(** [step c (p, r)] runs callback [c]; it is [None] when [c] is not
    enabled: no stat is outstanding, no load with that index is
    outstanding, the reader is paused or there is no reader. *)
Definition step (c : Choice) (s : Process * Run) : option (Process * Run) :=
  let '(p, r) := s in
  match c, pending r with
  | StatDone, PStat file =>
      let '(out, p') := onStat file r p in Some (p', escaped r out)
  | IgnoreFileLoaded i, PWalk ws =>
      match loading ws !! i with
      | Some file =>
          let '(ws', p') := onIgnoreFileLoaded file i ws p in
          Some (p', setPending (PWalk ws') r)
      | None => None
      end
  | ReaderEvent, PWalk ws =>
      if paused ws then None
      else let '(out, p') := onReader ws r p in Some (p', escaped r out)
  | _, _ => None
  end.

(** A schedule is a list of choices; a choice that is not enabled is
    passed over. *)
Fixpoint run (sched : list Choice) (s : Process * Run) : Process * Run :=
  match sched with
  | [] => s
  | c :: sched' => run sched' (default s (step c s))
  end.

(** The event loop of Node runs whatever is ready; [turn] picks an
    outstanding load first, then the reader, and [exec n] runs [n] turns. *)
Definition turn (s : Process * Run) : Process * Run :=
  match pending (snd s) with
  | Idle | Thrown _ => s
  | PStat _ => default s (step StatDone s)
  | PWalk ws =>
      match loading ws with
      | _ :: _ => default s (step (IgnoreFileLoaded 0) s)
      | [] => default s (step ReaderEvent s)
      end
  end.

Fixpoint exec (n : nat) (s : Process * Run) : Process * Run :=
  match n with
  | O => s
  | S n' => exec n' (turn s)
  end.

(** A call has stopped when nothing is outstanding: it is at rest, or an
    exception has ended it. *)
Definition stopped (r : Run) : bool :=
  match pending r with
  | Idle | Thrown _ => true
  | PStat _ | PWalk _ => false
  end.

(** A call of [executeOnFiles] in process state [p]. *)
Definition start (engine : Engine) (targets : list string) (p : Process)
  : Process * Run :=
  let '(r, p') := executeOnFiles engine targets p in (p', r).

(** ** A target from its dispatch to its last callback

    The same handlers, composed in the order in which the event loop is
    bound to run them: this is what a call amounts to once every callback
    has run. *)

(** The "child" handler over a list of children, on the [results] array,
    up to the first exception. *)
Fixpoint collect (cs : list string) (helper : Obj) (acc : list Result)
  : M (Error + list Result) :=
  match cs with
  | [] => ret (inr acc)
  | c :: cs' =>
      if String.eqb (extname c) ".js" then
        res <-! processFile c helper ;;
        collect cs' helper (acc ++ [res])
      else collect cs' helper acc
  end.

(** How the dispatch of a target ends: with an exception that left a
    callback, or with a call of the [cb] that [next] passed. *)
Inductive Outcome : Type :=
| Threw (exn : Error)
| Called (out : Error + list Result).

(** The ignore files among [l] that the reader of [dir] can read. *)
Definition readable (dir : string) (l : list string) : list string :=
  List.filter (readsIgnoreFile w dir) l.

(** The rest of a walk: the outstanding loads complete (the last one
    resumes the reader), then the reader delivers the rest of its output. *)
Definition finishWalk (helper : Obj) (ws : WalkState) : M Outcome :=
  match loading ws with
  | [] => ret tt
  | _ :: _ => log (EvResume (wdir ws))
  end ;;;
  let '(children, last) :=
    reader w (wdir ws)
      (list_to_set (readable (wdir ws) (loading ws)) ∪ registered ws) in
  rs <- collect (drop (emitted ws) children) helper (wresults ws) ;;
  ret (match rs with
       | inl exn => Threw exn
       | inr rs' =>
           Called (match last with
                   | Some err => inl err
                   | None => inr rs'
                   end)
       end).

(** [executeOnFileOrDirectory] from the completion of its [fs.stat]: the
    error of an early [cb(err)] (the lookup of the ignore files threw), and
    how the dispatch ends. *)
Definition dispatchTarget (file : string) (helper : Obj)
  : M (option Error * Outcome) :=
  match stat file with
  | inl err => ret (None, Called (inl err))
  | inr stats =>
      if isDirectory stats then
        started <- startWalk file ;;
        out <- finishWalk helper (fst started) ;;
        ret (snd started, out)
      else
        res <- processFile file helper ;;
        ret (None, match res with
                   | inl exn => Threw exn
                   | inr res' => Called (inr [res'])
                   end)
  end.

Definition earlyCalls (early : option Error) : list Callback :=
  match early with
  | Some err => [CbErr err]
  | None => []
  end.

(** What is left to do once the dispatch of a target has ended with [o],
    given what [next] does for the targets left. *)
Definition conclude (o : option Error * Outcome) (r : Run)
    (rest : Run -> M Run) : M Run :=
  let r1 := {| this := this r; files := files r;
               configHelper := configHelper r; results := results r;
               pending := Idle;
               calls := calls r ++ earlyCalls (fst o) |} in
  match snd o with
  | Threw exn => ret (setPending (Thrown exn) r1)
  | Called (inl err) => ret (callback (CbErr err) r1)
  | Called (inr res) =>
      rest {| this := this r1; files := files r1;
              configHelper := configHelper r1;
              results := results r1 ++ res; pending := Idle;
              calls := calls r1 |}
  end.

(** [next] and everything that follows it, for the targets left. *)
Fixpoint nextToEnd (targets : list string) (r : Run) : M Run :=
  match targets with
  | [] => ret (callback (CbOk (results r)) r)
  | file :: rest =>
      log (EvStat file) ;;;
      o <- dispatchTarget file (configHelper r) ;;
      conclude o
        {| this := this r; files := rest; configHelper := configHelper r;
           results := results r; pending := Idle; calls := calls r |}
        (nextToEnd rest)
  end.

Definition settle (o : option Error * Outcome) (r : Run) : M Run :=
  conclude o r (nextToEnd (files r)).

Definition swap {A B : Type} (x : A * B) : B * A := (snd x, fst x).

(** The state in which a call stops. *)
Definition toEnd (s : Process * Run) : Process * Run :=
  let '(p, r) := s in
  match pending r with
  | Idle | Thrown _ => s
  | PStat file =>
      swap ((o <- dispatchTarget file (configHelper r) ;; settle o r) p)
  | PWalk ws =>
      swap ((out <- finishWalk (configHelper r) ws ;; settle (None, out) r) p)
  end.

(** ** Invariants of a call *)

(** The counter of completed loads, the pause flag and the registered
    files agree with the list that [findIgnoreFiles] returned. *)
Definition walkInv (ws : WalkState) : Prop :=
  match ignoreFilesInParentDirs ws with
  | Some found =>
      counter ws + length (loading ws) = length found
      ∧ list_to_set (readable (wdir ws) (loading ws)) ∪ registered ws
        = list_to_set (readable (wdir ws) found)
      ∧ paused ws = negb (Nat.eqb (length (loading ws)) 0)
  | None =>
      loading ws = [] ∧ registered ws = ∅ ∧ paused ws = false
  end.

Definition isJs (path : string) : bool := String.eqb (extname path) ".js".

(** The results collected by a walk are those of the [.js] paths among
    the children delivered so far, in the order of delivery. *)
Definition walkResultsInv (ws : WalkState) : Prop :=
  map filePath (wresults ws) =
    List.filter isJs (take (emitted ws) (fst (reader w (wdir ws) (registered ws))))
  ∧ (paused ws = true -> emitted ws = 0).

Definition succeeded (r : Run) : Prop := exists rs, In (CbOk rs) (calls r).

Definition inv (s : Process * Run) : Prop :=
  match pending (snd s) with
  | PWalk ws => walkInv ws ∧ walkResultsInv ws
  | _ => True
  end.

(** The targets that a trace shows as dispatched. *)
Fixpoint statsOf (tr : list Event) : list string :=
  match tr with
  | [] => []
  | EvStat file :: tr' => file :: statsOf tr'
  | _ :: tr' => statsOf tr'
  end.

(** ** The result of a successful call, target by target *)

(** The paths that the dispatch of [file] in state [p] hands to
    [processFile]: the target itself, or for a directory the [.js] paths in
    the output of its reader under the ignore files of its ancestors that
    the reader could read. *)
Definition discovered (file : string) (p : Process) : list string :=
  match stat file with
  | inr StatDir =>
      match fst (findIgnoreFiles (path_resolve (cwd w) [file; ".."]) p) with
      | inr found =>
          List.filter isJs
            (fst (reader w file (list_to_set (readable file found))))
      | inl _ => List.filter isJs (fst (reader w file ∅))
      end
  | _ => [file]
  end.

(** [Dispatched targets helper p rss p']: from process state [p] the
    targets are dispatched one after the other, each from the state the
    previous one left, without error; [rss] holds their result lists and [p']
    is the state after the last. *)
Inductive Dispatched (helper : Obj)
  : list string -> Process -> list (list Result) -> Process -> Prop :=
| Dispatched_nil p : Dispatched helper [] p [] p
| Dispatched_cons file rest p p1 p2 res rss :
    dispatchTarget file helper (snd (log (EvStat file) p))
      = ((None, Called (inr res)), p1) ->
    map filePath res = discovered file (snd (log (EvStat file) p)) ->
    Dispatched helper rest p1 rss p2 ->
    Dispatched helper (file :: rest) p (res :: rss) p2.

(** ** Auxiliary notions for the proofs *)

(** The calls that [processFile] makes, in order, and the state in which
    it leaves the linter. *)
Definition processFileEvents (filename : string) (helper : Obj) : list Event :=
  let filePath := path_resolve (cwd w) [filename] in
  if fs_existsSync w filePath then
    [ EvEslintReset; EvExistsSync filePath; EvGetConfig filePath ] ++
    match getConfig w helper filePath with
    | inl _ => []
    | inr _ =>
        EvReadFileSync filePath ::
        match fs_readFileSync w filePath with
        | inl _ => []
        | inr text => [ EvEslintVerify text filename ]
        end
    end
  else [ EvEslintReset; EvExistsSync filePath ].

(** [ff'] is the locator [ff] after some more queries. *)
Definition extendsFinder (ff ff' : FileFinder) : Prop :=
  fileName ff' = fileName ff ∧ cache ff ⊆ cache ff'.

(** The number of locators constructed in a stretch of the trace. *)
Fixpoint constructions (tr : list Event) : nat :=
  match tr with
  | [] => 0
  | EvNewFileFinder _ :: tr' => S (constructions tr')
  | _ :: tr' => constructions tr'
  end.

(** What a stretch [evs] of execution from [p] to [p'] does to the module
    variable [ignoreFileFinder]: a locator that is there stays, with a memo
    that has only grown, and none is constructed; when there is none, at most
    one is constructed. *)
Definition finderStep (p p' : Process) (evs : list Event) : Prop :=
  match ignoreFileFinder p with
  | Some ff =>
      (exists ff', ignoreFileFinder p' = Some ff' ∧ extendsFinder ff ff')
      ∧ constructions evs = 0
  | None =>
      match ignoreFileFinder p' with
      | None => constructions evs = 0
      | Some _ => constructions evs = 1
      end
  end.

(** A computation is quiet when it dispatches no target; its effect on the
    locator is as [finderStep] says. *)
Definition quiet {A : Type} (m : M A) : Prop :=
  forall p, exists evs,
    trace (snd (m p)) = trace p ++ evs
    ∧ statsOf evs = []
    ∧ finderStep p (snd (m p)) evs.

(** [frame s s']: from [s] to [s'] the trace and the list of calls have
    grown, the targets dispatched in between are those taken from the front
    of [files], the locator has been kept, [this] and the [configHelper] are the same, and a
    [callback(null, results)] in between leaves the call at rest with
    [files] empty. *)
Definition frame (s s' : Process * Run) : Prop :=
  exists evs cs,
    trace (fst s') = trace (fst s) ++ evs
    ∧ files (snd s) = statsOf evs ++ files (snd s')
    ∧ finderStep (fst s) (fst s') evs
    ∧ calls (snd s') = calls (snd s) ++ cs
    ∧ this (snd s') = this (snd s)
    ∧ configHelper (snd s') = configHelper (snd s)
    ∧ (forall rs, In (CbOk rs) cs ->
         files (snd s') = [] ∧ pending (snd s') = Idle ∧ rs = results (snd s')).

(** Once [callback(null, results)] has been called nothing is pending and
    [files] is empty. *)
Definition okInv (s : Process * Run) : Prop :=
  succeeded (snd s) -> pending (snd s) = Idle ∧ files (snd s) = [].

(** Measures that decrease with every turn of the event loop. *)
Definition rank (r : Run) : nat :=
  2 * length (files r) +
  match pending r with
  | Idle | Thrown _ => 0
  | PWalk _ => 1
  | PStat _ => 2
  end.

Definition walkRank (ws : WalkState) : nat :=
  length (loading ws) +
  (length (fst (reader w (wdir ws)
                  (list_to_set (readable (wdir ws) (loading ws)) ∪ registered ws)))
   - emitted ws).

(** ** Notions for the further properties *)

(** Two process states agree when they hold the same locator and the
    linter would be in the same state after a reset; their traces may
    differ. *)
Definition agree (p q : Process) : Prop :=
  ignoreFileFinder p = ignoreFileFinder q
  ∧ eslint_reset w (lint p) = eslint_reset w (lint q).

(** A computation respects agreement when from agreeing states it returns
    the same value and leaves agreeing states. *)
Definition respects {A : Type} (m : M A) : Prop :=
  forall p q, agree p q ->
    fst (m p) = fst (m q) ∧ agree (snd (m p)) (snd (m q)).

(** The calls of [ignore.pause()] and of [ignore.resume()] in a trace. *)
Fixpoint pausesOf (tr : list Event) : nat :=
  match tr with
  | [] => 0
  | EvPause _ :: tr' => S (pausesOf tr')
  | _ :: tr' => pausesOf tr'
  end.

Fixpoint resumesOf (tr : list Event) : nat :=
  match tr with
  | [] => 0
  | EvResume _ :: tr' => S (resumesOf tr')
  | _ :: tr' => resumesOf tr'
  end.

(** The closure of a call before its first [next()]. *)
Definition initialRun (engine : Engine) (targets : list string) : Run :=
  {| this := engine; files := targets; configHelper := options engine;
     results := []; pending := Idle; calls := [] |}.

(** A computation is calm when it neither pauses nor resumes a reader. *)
Definition calm {A : Type} (m : M A) : Prop :=
  forall p, exists evs,
    trace (snd (m p)) = trace p ++ evs
    ∧ pausesOf evs = 0 ∧ resumesOf evs = 0.

(** [1] while the reader of the call is paused, else [0]. *)
Definition waiting (r : Run) : nat :=
  match pending r with
  | PWalk ws => if paused ws then 1 else 0
  | _ => 0
  end.

(** A Result is that of its file in a linter that has just been reset:
    when the file exists, its messages are what [verify] returns, in a state
    produced by [reset], for the contents of the file, the configuration of
    its resolved path and its name as given; when it does not, the one fatal
    message. *)
Definition lintedFresh (helper : Obj) (res : Result) : Prop :=
  let resolved := path_resolve (cwd w) [filePath res] in
  if fs_existsSync w resolved then
    exists l config text,
      getConfig w helper resolved = inr config
      ∧ fs_readFileSync w resolved = inr text
      ∧ fst (eslint_verify w (eslint_reset w l) text config (filePath res))
        = inr (messages res)
  else messages res = [notFound resolved].

(** An event touches only files that [ok] admits: a file that is read or
    whose configuration is asked for is the resolved path of such a file, and
    [verify] is given such a file's name together with its contents. *)
Definition touchesOnly (ok : string -> Prop) (e : Event) : Prop :=
  match e with
  | EvEslintVerify text f =>
      ok f ∧ fs_readFileSync w (path_resolve (cwd w) [f]) = inr text
  | EvReadFileSync path | EvGetConfig path =>
      exists f, ok f ∧ path = path_resolve (cwd w) [f]
  | _ => True
  end.

End CliEngine.

Arguments World : clear implicits.
Arguments Process : clear implicits.
Arguments M : clear implicits.

(** ** A sample filesystem

    Working directory [/proj] with a file [a.js], a directory [lib] holding
    [x.js], [y.txt] and [z.js], a directory [pkg] holding [m.js], a
    subdirectory called [vendor.js] and [n.js], and an ignore file
    [/proj/.eslintignore] that excludes [z.js]; a directory [/vault/d]
    holding [k.js], whose parent [/vault] cannot be listed and holds an
    ignore file that excludes [k.js].  The linter state counts the files
    verified since the last reset. *)

Definition demoFiles : list (string * Stats) :=
  [ ("/proj", StatDir); ("/proj/a.js", StatFile);
    ("/proj/.eslintignore", StatFile);
    ("/proj/lib", StatDir); ("/proj/lib/x.js", StatFile);
    ("/proj/lib/y.txt", StatFile); ("/proj/lib/z.js", StatFile);
    ("/proj/pkg", StatDir); ("/proj/pkg/m.js", StatFile);
    ("/proj/pkg/vendor.js", StatDir); ("/proj/pkg/n.js", StatFile);
    ("/vault", StatDir); ("/vault/.eslintignore", StatFile);
    ("/vault/d", StatDir); ("/vault/d/k.js", StatFile) ].

(** What is at an absolute path. *)
Fixpoint demoKind (l : list (string * Stats)) (p : string) : option Stats :=
  match l with
  | [] => None
  | (q, k) :: l' => if String.eqb p q then Some k else demoKind l' p
  end.

(** [fs.stat] of a name as given: the empty name and a name that is not
    there fail, and so does the name of a file followed by a separator. *)
Definition demoStat (p : string) : Error + Stats :=
  let missing := inl ("ENOENT: no such file or directory, stat '" +:+ p +:+ "'") in
  if String.eqb p "" then missing
  else
    match demoKind demoFiles (path_resolve "/proj" [p]) with
    | Some StatDir => inr StatDir
    | Some StatFile =>
        if endsWithSlash p
        then inl ("ENOTDIR: not a directory, stat '" +:+ p +:+ "'")
        else inr StatFile
    | None => missing
    end.

Definition demoExists (p : string) : bool :=
  match demoKind demoFiles p with
  | Some _ => true
  | None => false
  end.

Definition demoRead (p : string) : Error + string :=
  match demoKind demoFiles p with
  | Some StatFile => inr ("// " +:+ p)
  | Some StatDir => inl "EISDIR: illegal operation on a directory, read"
  | None => inl ("ENOENT: no such file or directory, open '" +:+ p +:+ "'")
  end.

Definition demoReader (dir : string) (extra : gset string)
  : list string * option Error :=
  if String.eqb dir "lib" then
    if bool_decide ("/proj/.eslintignore" ∈ extra)
    then (["/proj/lib/x.js"; "/proj/lib/y.txt"], None)
    else (["/proj/lib/x.js"; "/proj/lib/y.txt"; "/proj/lib/z.js"], None)
  else if String.eqb dir "pkg" then
    (["/proj/pkg/m.js"; "/proj/pkg/vendor.js"; "/proj/pkg/n.js"], None)
  else if String.eqb dir "/vault/d" then
    if bool_decide ("/vault/.eslintignore" ∈ extra)
    then ([], None)
    else (["/vault/d/k.js"], None)
  else ([], Some "ENOTDIR: not a directory").

Definition demoScan (name dir : string) : Error + list string :=
  if String.eqb dir "/proj" then inr ["/proj/" +:+ name]
  else if String.eqb dir "/vault" then
    inl "EACCES: permission denied, scandir '/vault'"
  else inr [].

Definition demoVerify (n : nat) (text : string) (config : string) (filename : string)
  : (Error + list Message) * nat :=
  (inr (if Nat.eqb n 0 then []
        else [ {| fatal := false; message := "state left over from another file" |} ]),
   S n).

Definition demo : World string nat :=
  {| cwd := "/proj";
     fs_stat := demoStat;
     fs_existsSync := demoExists;
     fs_readFileSync := demoRead;
     reader := demoReader;
     readsIgnoreFile := fun _ file =>
       match demoRead file with inr _ => true | inl _ => false end;
     scanUp := demoScan;
     getConfig := fun _ p => inr p;
     eslint_reset := fun _ => 0;
     eslint_verify := demoVerify |}.

(** The same filesystem with [/proj/.eslintignore] protected against
    reading: it is found, and cannot be loaded. *)
Definition demoLocked : World string nat :=
  {| cwd := "/proj";
     fs_stat := demoStat;
     fs_existsSync := demoExists;
     fs_readFileSync := fun p =>
       if String.eqb p "/proj/.eslintignore"
       then inl "EACCES: permission denied, open '/proj/.eslintignore'"
       else demoRead p;
     reader := demoReader;
     readsIgnoreFile := fun _ file =>
       if String.eqb file "/proj/.eslintignore" then false
       else match demoRead file with inr _ => true | inl _ => false end;
     scanUp := demoScan;
     getConfig := fun _ p => inr p;
     eslint_reset := fun _ => 0;
     eslint_verify := demoVerify |}.

Definition freshProcess : Process nat :=
  {| ignoreFileFinder := None; lint := 0; trace := [] |}.

Definition demoEngine : Engine := {| options := storedOptions None |}.

(** An options object that sets two fields. *)
Definition demoOptions : gmap string Value :=
  <["reset" := VBool true]> (<["rulePaths" := VArr [VStr "my-rules"]]> ∅).

(** A [rules.load] for which only the directory [my-rules] is there. *)
Definition demoLoad (dir : Value) : option string :=
  match dir with
  | VStr "my-rules" => None
  | _ => Some "ENOENT: no such file or directory, scandir"
  end.

(** Targets, results and a schedule for a call in which the lookup of the
    ignore files of [/vault/d] throws. *)
Definition vaultTargets : list string := ["a.js"; "/vault/d"; "a.js"].

Definition vaultError : Error := "EACCES: permission denied, scandir '/vault'".

Definition vaultResults : list Result :=
  [ {| filePath := "a.js"; messages := [] |};
    {| filePath := "/vault/d/k.js"; messages := [] |};
    {| filePath := "a.js"; messages := [] |} ].

Definition vaultSchedule : list Choice :=
  [StatDone; StatDone; ReaderEvent; ReaderEvent; StatDone].

(** The walk of [/vault/d] after its reader has delivered [k.js]. *)
Definition vaultWalk : WalkState :=
  {| wdir := "/vault/d";
     wresults := [ {| filePath := "/vault/d/k.js"; messages := [] |} ];
     counter := 0; ignoreFilesInParentDirs := None;
     paused := false; loading := []; registered := ∅; emitted := 1 |}.

(** An engine with other options. *)
Definition otherEngine : Engine :=
  {| options := storedOptions (Some demoOptions) |}.

(** Targets, a schedule and the results of a call on a file and a directory. *)
Definition libTargets : list string := ["a.js"; "lib"].

Definition libSchedule : list Choice :=
  [StatDone; StatDone; IgnoreFileLoaded 0; ReaderEvent; ReaderEvent; ReaderEvent].

Definition libResults : list Result :=
  [ {| filePath := "a.js"; messages := [] |};
    {| filePath := "/proj/lib/x.js"; messages := [] |} ].

(** The walk of [lib] once its ignore file has been loaded, and after two
    children have been delivered. *)
Definition libWalkLoaded : WalkState :=
  {| wdir := "lib"; wresults := []; counter := 1;
     ignoreFilesInParentDirs := Some ["/proj/.eslintignore"];
     paused := false; loading := [];
     registered := {[ "/proj/.eslintignore" ]}; emitted := 0 |}.

Definition libWalkTwo : WalkState :=
  {| wdir := "lib";
     wresults := [ {| filePath := "/proj/lib/x.js"; messages := [] |} ];
     counter := 1;
     ignoreFilesInParentDirs := Some ["/proj/.eslintignore"];
     paused := false; loading := [];
     registered := {[ "/proj/.eslintignore" ]}; emitted := 2 |}.

(** The walk of [lib] where the ignore file cannot be read, after its
    three children have been delivered. *)
Definition lockedWalk : WalkState :=
  {| wdir := "lib";
     wresults := [ {| filePath := "/proj/lib/x.js"; messages := [] |};
                   {| filePath := "/proj/lib/z.js"; messages := [] |} ];
     counter := 1;
     ignoreFilesInParentDirs := Some ["/proj/.eslintignore"];
     paused := false; loading := []; registered := ∅; emitted := 3 |}.

Definition libFinder : FileFinder :=
  {| fileName := ".eslintignore";
     cache := {[ "/proj" := ["/proj/.eslintignore"] ]} |}.

(** The sample filesystem with [/vault] readable: no lookup of ignore files
    fails. *)
Definition demoCalm : World string nat :=
  {| cwd := "/proj";
     fs_stat := demoStat;
     fs_existsSync := demoExists;
     fs_readFileSync := demoRead;
     reader := demoReader;
     readsIgnoreFile := fun _ file =>
       match demoRead file with inr _ => true | inl _ => false end;
     scanUp := fun name dir =>
       if String.eqb dir "/proj" then inr ["/proj/" +:+ name] else inr [];
     getConfig := fun _ p => inr p;
     eslint_reset := fun _ => 0;
     eslint_verify := demoVerify |}.

(** A process in which three files have been verified since the last reset
    and something has been logged. *)
Definition usedProcess : Process nat :=
  {| ignoreFileFinder := None; lint := 3; trace := [EvEslintReset] |}.

(** The walk of [lib] alone, from its stat to its "end". *)
Definition walkSchedule : list Choice :=
  [StatDone; IgnoreFileLoaded 0; ReaderEvent; ReaderEvent; ReaderEvent].

Definition missingError : Error :=
  "ENOENT: no such file or directory, stat 'nope.js'".

(** What reading the directory [vendor.js] throws. *)
Definition vendorError : Error :=
  "EISDIR: illegal operation on a directory, read".

(** The walk of [pkg] after [m.js]: the next child is the directory
    [vendor.js]. *)
Definition pkgWalk : WalkState :=
  {| wdir := "pkg";
     wresults := [ {| filePath := "/proj/pkg/m.js"; messages := [] |} ];
     counter := 1;
     ignoreFilesInParentDirs := Some ["/proj/.eslintignore"];
     paused := false; loading := [];
     registered := {[ "/proj/.eslintignore" ]}; emitted := 1 |}.

Definition pkgSchedule : list Choice :=
  [StatDone; IgnoreFileLoaded 0; ReaderEvent].

(** Options whose second directory of rules is not there. *)
Definition brokenOptions : gmap string Value :=
  <["rulePaths" := VArr [VStr "my-rules"; VStr "no-such-dir"; VStr "my-rules"]]> ∅.

(** * Properties *)

(** ** Sanity checks of the [path] functions and of the defaults *)

Example extname_js : extname "/src/lib/a.js" = ".js".
Proof. reflexivity. Qed.
Example extname_hidden : extname "/src/.js" = "".
Proof. reflexivity. Qed.
Example extname_dir_dot : extname "/src/lib.d/readme" = "".
Proof. reflexivity. Qed.
Example extname_updir : extname "/src/.." = "".
Proof. reflexivity. Qed.
Example resolve_rel : path_resolve "/home/u" ["lib/a.js"] = "/home/u/lib/a.js".
Proof. reflexivity. Qed.
Example resolve_parent : path_resolve "/home/u" ["lib"; ".."] = "/home/u".
Proof. reflexivity. Qed.
Example resolve_abs : path_resolve "/home/u" ["/etc/./x/../y"] = "/etc/y".
Proof. reflexivity. Qed.
Example default_reset : get (storedOptions None) "reset" = VBool false.
Proof. reflexivity. Qed.

Example stat_of_relative_name : stat demo "a.js" = inr StatFile.
Proof. reflexivity. Qed.
Example stat_of_file_with_separator :
  stat demo "a.js/" = inl "ENOTDIR: not a directory, stat 'a.js/'".
Proof. reflexivity. Qed.
Example stat_of_empty_name :
  stat demo "" = inl "ENOENT: no such file or directory, stat ''".
Proof. reflexivity. Qed.
Example read_of_directory :
  fs_readFileSync demo "/proj/pkg/vendor.js" = inl vendorError.
Proof. reflexivity. Qed.

(** ** [path.extname] *)

Lemma break_Some sep l a b : break sep l = (a, Some b) -> l = a ++ sep :: b.
Proof.
  revert a b. induction l as [ | c l IH]; simpl; intros a b; [ discriminate | ].
  destruct (Ascii.eqb_spec c sep) as [-> | Hne].
  - intros [= ? ?]; subst. reflexivity.
  - destruct (break sep l) as [a' b'] eqn:Hb. intros [= ? ?]; subst.
    simpl. f_equal. apply IH. reflexivity.
Qed.

Lemma break_fst_prefix sep l : exists tl, l = fst (break sep l) ++ tl.
Proof.
  induction l as [ | c l [tl IH]]; simpl.
  - exists []. reflexivity.
  - destruct (Ascii.eqb c sep).
    + eexists. reflexivity.
    + destruct (break sep l) as [a b]; simpl in *. exists tl. congruence.
Qed.

Lemma string_of_list_ascii_app a b :
  string_of_list_ascii (a ++ b) = string_of_list_ascii a +:+ string_of_list_ascii b.
Proof. induction a as [ | c a IH]; simpl; [ reflexivity | now rewrite IH ]. Qed.

Lemma extname_js_suffix p :
  extname p = ".js" -> endsWithSlash p = false ->
  exists stem, p = stem +:+ ".js".
Proof.
  unfold extname, endsWithSlash.
  set (r := rev (list_ascii_of_string p)).
  assert (Hp : p = string_of_list_ascii (rev r)).
  { unfold r. rewrite rev_involutive, string_of_list_ascii_of_string. reflexivity. }
  clearbody r. intros Hext Hslash.
  assert (Hdrop : dropSlashes r = r).
  { destruct r as [ | c r']; simpl; [ reflexivity | ]. rewrite Hslash. reflexivity. }
  rewrite Hdrop in Hext.
  destruct (break_fst_prefix slash r) as [tl Hr].
  destruct (break dot (fst (break slash r))) as [rext [before | ]] eqn:Hb;
    [ | discriminate ].
  apply break_Some in Hb.
  assert (Hrext : dot :: rev rext = list_ascii_of_string ".js").
  { destruct before as [ | b0 before]; [ discriminate | ].
    destruct rext as [ | x rext].
    - destruct before; [ destruct (Ascii.eqb b0 dot); discriminate | discriminate ].
    - rewrite <- (list_ascii_of_string_of_list_ascii (dot :: rev (x :: rext))).
      destruct before; rewrite Hext; reflexivity. }
  simpl in Hrext. injection Hrext as Hrev.
  apply (f_equal (@rev ascii)) in Hrev. rewrite rev_involutive in Hrev. simpl in Hrev.
  exists (string_of_list_ascii (rev (before ++ tl))).
  rewrite Hp, Hr, Hb, Hrev.
  assert (Hl : rev (([ "s"; "j" ]%char ++ dot :: before) ++ tl) =
               rev (before ++ tl) ++ list_ascii_of_string ".js").
  { simpl. rewrite !rev_app_distr. simpl. rewrite <- !app_assoc. reflexivity. }
  rewrite Hl, string_of_list_ascii_app. reflexivity.
Qed.

(** ** Invariants of the event loop *)

Section Proofs.

Variables Config LintState : Type.
Variable w : World Config LintState.

(** The cases of [processFile]: the file is there or not, and each of
    [getConfig], [readFileSync] and [verify] throws or returns. *)
Ltac processFile_cases :=
  unfold processFile, bind, bindE, ret, existsSync, configHelper_getConfig,
    readFileSync, eslintVerify, eslintReset, log; simpl;
  destruct (fs_existsSync w _); simpl;
  [ destruct (getConfig w _ _); simpl;
    [ | destruct (fs_readFileSync w _); simpl;
        [ | destruct (eslint_verify w _ _ _ _) as [[? | ?] ?]; simpl ] ]
  | ].

Lemma startWalk_inv dir p ws early p' :
  startWalk w dir p = ((ws, early), p') ->
  walkInv w ws ∧ walkResultsInv w ws.
Proof.
  unfold startWalk, bind, ret. simpl.
  destruct (findIgnoreFiles w _ _) as [[err | found] p1].
  - intros [= <- <- <-]. cbv [walkInv walkResultsInv]; simpl. auto.
  - destruct (Nat.eqb_spec (length found) 0) as [Hlen | Hlen].
    + intros [= <- <- <-]. cbv [walkInv walkResultsInv]; simpl.
      destruct found; [ | discriminate ]. simpl.
      split; [ | auto ].
      split; [ reflexivity | ]. split; [ set_solver | reflexivity ].
    + destruct (logAll _ _) as [u p2]. intros [= <- <- <-].
      cbv [walkInv walkResultsInv]; simpl.
      split; [ | auto ].
      split; [ reflexivity | ]. split; [ set_solver | ].
      destruct found; [ simpl in Hlen; congruence | reflexivity ].
Qed.

Lemma processFile_filePath filename helper p res :
  fst (processFile w filename helper p) = inr res -> filePath res = filename.
Proof. processFile_cases; intros [= <-]; reflexivity. Qed.

Lemma next_pending r (p : Process LintState) :
  pending (fst (next r p)) = pending r ∨
  exists file, pending (fst (next r p)) = PStat file.
Proof.
  unfold next. destruct (files r); simpl; eauto.
Qed.

Lemma dispatched_pending out r (p : Process LintState) :
  pending (fst (dispatched out r p)) = pending r ∨
  exists file, pending (fst (dispatched out r p)) = PStat file.
Proof.
  destruct out as [err | res]; simpl; [ auto | ].
  apply (next_pending (mkRun _ _ _ _ _ _)).
Qed.

Lemma onChild_fields c helper ws p ws' :
  fst (onChild w c helper ws p) = inr ws' ->
  wdir ws' = wdir ws ∧ counter ws' = counter ws
  ∧ ignoreFilesInParentDirs ws' = ignoreFilesInParentDirs ws
  ∧ paused ws' = paused ws ∧ loading ws' = loading ws
  ∧ registered ws' = registered ws ∧ emitted ws' = S (emitted ws)
  ∧ map filePath (wresults ws') =
      map filePath (wresults ws) ++ (if isJs c then [c] else []).
Proof.
  unfold onChild, isJs, bindE, ret.
  destruct (String.eqb (extname c) ".js"); simpl.
  - pose proof (processFile_filePath c helper p) as Hfp.
    destruct (processFile w c helper p) as [[exn | res] p1]; simpl in *;
      [ discriminate | ].
    intros [= <-]. simpl. rewrite map_app; simpl. rewrite (Hfp res eq_refl). tauto.
  - intros [= <-]. simpl. rewrite app_nil_r. tauto.
Qed.

Lemma filter_take_S (l : list string) n c :
  l !! n = Some c ->
  List.filter isJs (take (S n) l) =
    List.filter isJs (take n l) ++ (if isJs c then [c] else []).
Proof.
  intros Hn. rewrite (take_S_r _ _ _ Hn), List.filter_app; simpl.
  destruct (isJs c); reflexivity.
Qed.

(** The ignore files that the reader can read, before and after one of the
    loads has completed. *)
Lemma readable_delete dir l i file (reg : gset string) :
  l !! i = Some file ->
  list_to_set (readable w dir (delete i l))
    ∪ (if readsIgnoreFile w dir file then {[ file ]} ∪ reg else reg)
  = list_to_set (readable w dir l) ∪ reg.
Proof.
  intros Hi. rewrite <- (take_drop_middle _ _ _ Hi) at 2.
  rewrite delete_take_drop. unfold readable.
  rewrite !List.filter_app. simpl.
  destruct (readsIgnoreFile w dir file);
    rewrite !list_to_set_app_L; simpl; set_solver.
Qed.

Lemma step_inv c s s' : inv w s -> step w c s = Some s' -> inv w s'.
Proof.
  destruct s as [p r]. unfold step.
  destruct c, (pending r) as [ | file | ws | exn0] eqn:Hpd; try discriminate.
  - (* the stat of a target completes *)
    intros _. unfold onStat, lift.
    destruct (stat w file) as [err | stats].
    + simpl. intros [= <-]. exact I.
    + destruct (isDirectory stats).
      * unfold executeOnDirectory, bind.
        destruct (startWalk w file p) as [[ws early] p1] eqn:Hstart.
        apply startWalk_inv in Hstart.
        destruct early; simpl; intros [= <-]; exact Hstart.
      * unfold bindE. destruct (processFile w file _ p) as [[exn | res] p1].
        -- intros [= <-]. exact I.
        -- destruct (dispatched _ _ p1) as [r' p'] eqn:Hd. intros [= <-].
           pose proof (dispatched_pending (inr [res]) (setPending Idle r) p1) as Hp.
           rewrite Hd in Hp. simpl in Hp.
           unfold inv; simpl. destruct Hp as [-> | [f ->]]; exact I.
  - (* the load of an ignore file has completed *)
    unfold inv; simpl. rewrite Hpd. intros [Hw Hr].
    destruct (loading ws !! i) as [file | ] eqn:Hi; [ | discriminate ].
    unfold onIgnoreFileLoaded, bind, ret.
    assert (Hlen : i < length (loading ws)) by (eapply lookup_lt_Some; eauto).
    pose proof (readable_delete (wdir ws) _ _ _ (registered ws) Hi) as Hset.
    assert (Hdel : length (delete i (loading ws)) = pred (length (loading ws))).
    { rewrite length_delete; eauto. lia. }
    unfold walkInv, walkResultsInv in *.
    destruct (ignoreFilesInParentDirs ws) as [found | ] eqn:Hf.
    + destruct Hw as (Hc & Hreg & Hpa).
      assert (Hpaused : paused ws = true).
      { rewrite Hpa. destruct (loading ws); [ simpl in Hlen; lia | reflexivity ]. }
      destruct Hr as [Hres Hem]. specialize (Hem Hpaused).
      assert (Hnil : wresults ws = []).
      { rewrite Hem in Hres. simpl in Hres. destruct (wresults ws); [ auto | discriminate ]. }
      destruct (Nat.eqb_spec (S (counter ws)) (length found)) as [Hlast | Hlast];
        simpl; intros [= <-]; simpl;
        rewrite Hset, Hdel, Hem, Hnil; simpl.
      * split; [ | split; [ reflexivity | discriminate ] ].
        split; [ lia | ]. split; [ exact Hreg | ].
        destruct (length (loading ws)) as [ | [ | n]]; simpl; auto; lia.
      * split; [ | split; [ reflexivity | reflexivity ] ].
        split; [ lia | ]. split; [ exact Hreg | ].
        rewrite Hpaused.
        destruct (length (loading ws)) as [ | [ | n]]; simpl; auto; lia.
    + destruct Hw as (Hl & _). rewrite Hl in Hi. discriminate.
  - (* the reader delivers an event *)
    unfold inv; simpl. rewrite Hpd. intros [Hw Hr].
    destruct (paused ws) eqn:Hpa; [ discriminate | ].
    unfold onReader.
    destruct (reader w (wdir ws) (registered ws)) as [children last] eqn:Hrd.
    destruct (children !! emitted ws) as [c | ] eqn:Hc.
    + unfold bindE, ret.
      pose proof (onChild_fields c (configHelper r) ws p) as Hfields.
      destruct (onChild w c (configHelper r) ws p) as [[exn | ws'] p1];
        simpl in Hfields; [ intros [= <-]; exact I | ].
      destruct (Hfields ws' eq_refl) as (Hd & Hcn & Hig & Hps & Hlo & Hrg & Hem & Hfp).
      intros [= <-]. simpl.
      unfold walkInv, walkResultsInv in *.
      rewrite Hig, Hcn, Hlo, Hrg, Hps, Hd, Hem, Hfp, Hrd. simpl.
      split; [ exact Hw | ]. split; [ | congruence ].
      destruct Hr as [Hres _]. rewrite Hrd in Hres; simpl in Hres.
      rewrite Hres. symmetry. apply filter_take_S. exact Hc.
    + unfold lift. destruct last as [err | ]; intros Hstep.
      * simpl in Hstep. injection Hstep as <-. exact I.
      * destruct (dispatched _ _ p) as [r' p'] eqn:Hd. injection Hstep as <-.
        pose proof (dispatched_pending (inr (wresults ws)) (setPending Idle r) p) as Hp.
        rewrite Hd in Hp. simpl in Hp.
        unfold inv; simpl. destruct Hp as [-> | [f ->]]; exact I.
Qed.

Lemma toEnd_next r (p : Process LintState) :
  pending r = Idle ->
  toEnd w (swap (next r p)) = swap (nextToEnd w (files r) r p).
Proof.
  intros Hpd. unfold next. destruct r as [th fs helper rs pd cs]; simpl in *.
  subst pd. destruct fs as [ | file rest]; simpl.
  - reflexivity.
  - unfold bind, settle, conclude; simpl.
    destruct (dispatchTarget w file helper _) as [[early out] p1]; simpl.
    destruct out as [exn | [err | res]]; reflexivity.
Qed.

Lemma toEnd_dispatched out r (p : Process LintState) :
  toEnd w (swap (dispatched out (setPending Idle r) p)) =
  swap (settle w (None, Called out) r p).
Proof.
  unfold dispatched, settle, conclude.
  destruct out as [err | res].
  - simpl. rewrite app_nil_r. reflexivity.
  - rewrite toEnd_next by reflexivity.
    simpl. rewrite app_nil_r. reflexivity.
Qed.

(** A callback that an exception has left. *)
Lemma toEnd_thrown exn r (p : Process LintState) :
  (p, setPending (Thrown exn) r) = swap (settle w (None, Threw exn) r p).
Proof.
  unfold settle, conclude, setPending, swap, ret. simpl.
  rewrite app_nil_r. reflexivity.
Qed.

Lemma settle_pending o r pd (p : Process LintState) :
  settle w o (setPending pd r) p = settle w o r p.
Proof. reflexivity. Qed.

Lemma settle_early err out r (p : Process LintState) :
  settle w (None, out) (callback (CbErr err) r) p = settle w (Some err, out) r p.
Proof.
  unfold settle, conclude; simpl. rewrite app_nil_r. reflexivity.
Qed.

Lemma onChild_collect c cs helper ws (p : Process LintState) :
  collect w (c :: cs) helper (wresults ws) p =
  match fst (onChild w c helper ws p) with
  | inl exn => (inl exn, snd (onChild w c helper ws p))
  | inr ws' => collect w cs helper (wresults ws') (snd (onChild w c helper ws p))
  end.
Proof.
  simpl. unfold onChild, bindE, ret.
  destruct (String.eqb (extname c) ".js"); simpl; [ | reflexivity ].
  destruct (processFile w c helper p) as [[exn | res] p1]; reflexivity.
Qed.

Lemma walkInv_unpaused ws :
  walkInv w ws -> paused ws = false -> loading ws = [].
Proof.
  unfold walkInv. destruct (ignoreFilesInParentDirs ws).
  - intros (_ & _ & Hpa) Hp. rewrite Hp in Hpa.
    destruct (loading ws); [ reflexivity | discriminate ].
  - tauto.
Qed.

Lemma toEnd_step c s s' :
  inv w s -> step w c s = Some s' -> toEnd w s' = toEnd w s.
Proof.
  destruct s as [p r]. unfold step.
  destruct c, (pending r) as [ | file | ws | exn0] eqn:Hpd; try discriminate.
  - (* the stat of a target completes *)
    intros _. unfold toEnd at 2. rewrite Hpd.
    unfold onStat, dispatchTarget, bind, lift.
    destruct (stat w file) as [err | stats].
    + destruct (dispatched _ _ p) as [r' p'] eqn:Hd. intros [= <-].
      change (p', r') with (swap (r', p')). rewrite <- Hd.
      rewrite toEnd_dispatched. reflexivity.
    + destruct (isDirectory stats).
      * unfold executeOnDirectory, bind.
        destruct (startWalk w file p) as [[ws early] p1]; simpl.
        destruct early as [err | ]; simpl; intros [= <-]; simpl; unfold bind;
          destruct (finishWalk w _ ws p1) as [out p2]; simpl.
        -- rewrite <- settle_early. reflexivity.
        -- reflexivity.
      * unfold bindE.
        destruct (processFile w file _ p) as [[exn | res] p1]; cbv beta iota.
        -- intros [= <-]. cbn [escaped].
           rewrite (toEnd_thrown exn r p1). reflexivity.
        -- destruct (dispatched _ _ p1) as [r' p'] eqn:Hd. intros [= <-].
           change (p', r') with (swap (r', p')). rewrite <- Hd.
           rewrite toEnd_dispatched. reflexivity.
  - (* the load of an ignore file has completed *)
    unfold inv; simpl. rewrite Hpd. intros [Hw Hr].
    destruct (loading ws !! i) as [file | ] eqn:Hi; [ | discriminate ].
    assert (Hlen : i < length (loading ws)) by (eapply lookup_lt_Some; eauto).
    pose proof (readable_delete (wdir ws) _ _ _ (registered ws) Hi) as Hset.
    assert (Hdel : length (delete i (loading ws)) = pred (length (loading ws))).
    { rewrite length_delete; eauto. lia. }
    unfold walkInv in Hw.
    destruct (ignoreFilesInParentDirs ws) as [found | ] eqn:Hf;
      [ | destruct Hw as (Hl & _); rewrite Hl in Hi; discriminate ].
    destruct Hw as (Hc & Hreg & Hpa).
    unfold onIgnoreFileLoaded, bind, ret. rewrite Hf.
    destruct (loading ws) as [ | f0 rest] eqn:Hload; [ simpl in Hlen; lia | ].
    destruct (Nat.eqb_spec (S (counter ws)) (length found)) as [Hlast | Hlast];
      simpl; intros [= <-]; simpl;
      unfold finishWalk, bind; simpl; rewrite Hset, Hload.
    + assert (Hnil : delete i (f0 :: rest) = []).
      { apply length_zero_iff_nil. simpl in *. lia. }
      rewrite Hnil. simpl. reflexivity.
    + destruct (delete i (f0 :: rest)) eqn:Hd2.
      * simpl in *. lia.
      * simpl. reflexivity.
  - (* the reader delivers an event *)
    unfold inv. cbn [snd]. rewrite Hpd. intros [Hw Hr].
    destruct (paused ws) eqn:Hpa; [ discriminate | ].
    pose proof (walkInv_unpaused ws Hw Hpa) as Hload.
    assert (Hfin : forall p0, finishWalk w (configHelper r) ws p0 =
              bind (collect w (drop (emitted ws)
                        (fst (reader w (wdir ws) (registered ws))))
                      (configHelper r) (wresults ws))
               (fun rs => ret (match rs with
                    | inl exn => Threw exn
                    | inr rs' =>
                        Called (match snd (reader w (wdir ws) (registered ws)) with
                                | Some err => inl err
                                | None => inr rs'
                                end)
                    end)) p0).
    { intros p0. unfold finishWalk, bind. rewrite Hload. simpl.
      rewrite union_empty_l_L.
      destruct (reader w (wdir ws) (registered ws)); reflexivity. }
    unfold toEnd at 2. rewrite Hpd. unfold bind at 1. rewrite Hfin. clear Hfin.
    unfold onReader.
    destruct (reader w (wdir ws) (registered ws)) as [children last] eqn:Hrd.
    cbn [fst snd].
    destruct (children !! emitted ws) as [c | ] eqn:Hc.
    + unfold bindE, ret.
      pose proof (onChild_fields c (configHelper r) ws p) as Hfields.
      pose proof (onChild_collect c (drop (S (emitted ws)) children)
                    (configHelper r) ws p) as Hcol.
      rewrite (drop_S _ _ _ Hc). unfold bind. rewrite Hcol.
      destruct (onChild w c (configHelper r) ws p) as [[exn | ws'] p1];
        simpl in Hfields; cbn [fst snd].
      * intros [= <-]. cbn [escaped]. unfold ret.
        rewrite (toEnd_thrown exn r p1). reflexivity.
      * destruct (Hfields ws' eq_refl) as (Hd & Hcn & Hig & Hps & Hlo & Hrg & Hem & Hfp).
        intros [= <-]. simpl. unfold finishWalk, bind.
        rewrite Hlo, Hload, Hrg, Hd, Hem. simpl. rewrite union_empty_l_L, Hrd.
        reflexivity.
    + rewrite (drop_ge children (emitted ws))
        by (apply lookup_ge_None; exact Hc).
      unfold lift.
      destruct last as [err | ];
        destruct (dispatched _ _ p) as [r' p'] eqn:Hd; intros [= <-];
        change (p', r') with (swap (r', p')); rewrite <- Hd;
        rewrite toEnd_dispatched; reflexivity.
Qed.

(** ** Schedules *)

Lemma start_inv engine targets (p : Process LintState) :
  inv w (start engine targets p).
Proof.
  unfold start, executeOnFiles, bind, next, inv; simpl.
  destruct targets; simpl; exact I.
Qed.

Lemma run_inv sched s : inv w s -> inv w (run w sched s).
Proof.
  revert s. induction sched as [ | c sched IH]; intros s Hs; simpl; [ exact Hs | ].
  apply IH. destruct (step w c s) as [s' | ] eqn:Hstep; simpl; [ | exact Hs ].
  eapply step_inv; eauto.
Qed.

Lemma toEnd_run sched s : inv w s -> toEnd w (run w sched s) = toEnd w s.
Proof.
  revert s. induction sched as [ | c sched IH]; intros s Hs; simpl; [ reflexivity | ].
  destruct (step w c s) as [s' | ] eqn:Hstep; simpl; [ | apply IH; exact Hs ].
  rewrite IH by (eapply step_inv; eauto).
  eapply toEnd_step; eauto.
Qed.

Lemma toEnd_start engine targets (p : Process LintState) :
  toEnd w (start engine targets p) =
  swap (bind (log (EvNewConfig (options engine)))
          (fun _ => nextToEnd w targets
             {| this := engine; files := targets;
                configHelper := options engine; results := [];
                pending := Idle; calls := [] |}) p).
Proof.
  unfold start, executeOnFiles, bind. simpl.
  match goal with
  | |- context [next ?r ?q] =>
      pose proof (toEnd_next r q eq_refl) as H; destruct (next r q) as [r' p']
  end.
  exact H.
Qed.

Lemma step_stopped c (p : Process LintState) r :
  stopped r = true -> step w c (p, r) = None.
Proof.
  unfold step, stopped. destruct (pending r); try discriminate; intros _;
    destruct c; reflexivity.
Qed.

Lemma run_stopped sched (p : Process LintState) r :
  stopped r = true -> run w sched (p, r) = (p, r).
Proof.
  intros Hpd. induction sched as [ | c sched IH]; [ reflexivity | ].
  cbn [run]. rewrite (step_stopped c p r Hpd). exact IH.
Qed.

Lemma step_idle c (p : Process LintState) r :
  pending r = Idle -> step w c (p, r) = None.
Proof. intros Hpd. apply step_stopped. unfold stopped. rewrite Hpd. reflexivity. Qed.

Lemma run_idle sched (p : Process LintState) r :
  pending r = Idle -> run w sched (p, r) = (p, r).
Proof. intros Hpd. apply run_stopped. unfold stopped. rewrite Hpd. reflexivity. Qed.

(** ** What a callback changes *)

Lemma statsOf_app tr1 tr2 : statsOf (tr1 ++ tr2) = statsOf tr1 ++ statsOf tr2.
Proof.
  induction tr1 as [ | e tr1 IH]; simpl; [ reflexivity | ].
  destruct e; simpl; rewrite IH; reflexivity.
Qed.

Lemma logAll_trace es (p : Process LintState) :
  logAll es p =
  (tt, {| ignoreFileFinder := ignoreFileFinder p; lint := lint p;
          trace := trace p ++ es |}).
Proof.
  revert p. induction es as [ | e es IH]; intros p; simpl.
  - rewrite app_nil_r. destruct p; reflexivity.
  - unfold bind, log. rewrite IH. simpl. rewrite <- app_assoc. reflexivity.
Qed.

Lemma statsOf_addIgnoreFile dir found :
  statsOf (map (EvAddIgnoreFile dir) found) = [].
Proof. induction found; simpl; auto. Qed.

Lemma processFile_trace filename helper (p : Process LintState) :
  trace (snd (processFile w filename helper p)) =
  trace p ++ processFileEvents w filename helper.
Proof.
  unfold processFileEvents. processFile_cases;
    rewrite <- ?app_assoc; reflexivity.
Qed.

Lemma statsOf_processFileEvents filename helper :
  statsOf (processFileEvents w filename helper) = [].
Proof.
  unfold processFileEvents.
  destruct (fs_existsSync w _); [ | reflexivity ].
  destruct (getConfig w _ _); [ reflexivity | ].
  destruct (fs_readFileSync w _); reflexivity.
Qed.

Lemma extendsFinder_refl ff : extendsFinder ff ff.
Proof. split; reflexivity. Qed.

Lemma extendsFinder_trans ff1 ff2 ff3 :
  extendsFinder ff1 ff2 -> extendsFinder ff2 ff3 -> extendsFinder ff1 ff3.
Proof.
  intros [Hn1 Hc1] [Hn2 Hc2]. split; [ congruence | ].
  etransitivity; eauto.
Qed.

Lemma findAll_extends ff dir : extendsFinder ff (snd (findAll w ff dir)).
Proof.
  unfold findAll. destruct (cache ff !! dir) eqn:Hc; simpl.
  - apply extendsFinder_refl.
  - destruct (scanUp w (fileName ff) dir); simpl.
    + apply extendsFinder_refl.
    + split; [ reflexivity | ]. simpl. apply insert_subseteq. exact Hc.
Qed.

Lemma constructions_app tr1 tr2 :
  constructions (tr1 ++ tr2) = constructions tr1 + constructions tr2.
Proof.
  induction tr1 as [ | e tr1 IH]; simpl; [ reflexivity | ].
  destruct e; simpl; rewrite IH; reflexivity.
Qed.

Lemma finderStep_same (p p' : Process LintState) evs :
  ignoreFileFinder p' = ignoreFileFinder p -> constructions evs = 0 ->
  finderStep p p' evs.
Proof.
  unfold finderStep. intros -> Hc. destruct (ignoreFileFinder p).
  - split; [ | exact Hc ]. eexists. split; [ reflexivity | apply extendsFinder_refl ].
  - exact Hc.
Qed.

Lemma finderStep_trans (p1 p2 p3 : Process LintState) evs1 evs2 :
  finderStep p1 p2 evs1 -> finderStep p2 p3 evs2 ->
  finderStep p1 p3 (evs1 ++ evs2).
Proof.
  unfold finderStep. rewrite constructions_app.
  destruct (ignoreFileFinder p1) as [ff1 | ].
  - intros [(ff2 & -> & He1) Hc1] [(ff3 & -> & He2) Hc2].
    split; [ | lia ]. eexists. split; [ reflexivity | ].
    eapply extendsFinder_trans; eauto.
  - destruct (ignoreFileFinder p2) as [ff2 | ].
    + intros Hc1 [(ff3 & -> & _) Hc2]. lia.
    + intros Hc1 Hc2. destruct (ignoreFileFinder p3); lia.
Qed.

Lemma constructions_processFileEvents filename helper :
  constructions (processFileEvents w filename helper) = 0.
Proof.
  unfold processFileEvents.
  destruct (fs_existsSync w _); [ | reflexivity ].
  destruct (getConfig w _ _); [ reflexivity | ].
  destruct (fs_readFileSync w _); reflexivity.
Qed.

Lemma processFile_finder filename helper (p : Process LintState) :
  ignoreFileFinder (snd (processFile w filename helper p)) = ignoreFileFinder p.
Proof. processFile_cases; reflexivity. Qed.

Lemma quiet_processFile filename helper : quiet (processFile w filename helper).
Proof.
  intros p. exists (processFileEvents w filename helper).
  split; [ apply processFile_trace | ].
  split; [ apply statsOf_processFileEvents | ].
  apply finderStep_same;
    [ apply processFile_finder | apply constructions_processFileEvents ].
Qed.

Lemma quiet_findIgnoreFiles dir : quiet (findIgnoreFiles w dir).
Proof.
  intros p. unfold findIgnoreFiles, finderStep.
  destruct (ignoreFileFinder p) as [ff | ].
  - pose proof (findAll_extends ff dir) as Hext.
    destruct (findAll w ff dir) as [out ff']; simpl in *.
    exists [EvFindAll dir]. repeat split; eauto.
  - destruct (findAll w _ dir) as [out ff']; simpl.
    rewrite <- app_assoc. eexists. repeat split.
Qed.

Lemma quiet_log e :
  statsOf [e] = [] -> constructions [e] = 0 -> quiet (log (LintState := LintState) e).
Proof.
  intros Hs Hc p. exists [e]. simpl. repeat split; auto.
  apply finderStep_same; auto.
Qed.

Lemma quiet_startWalk dir : quiet (startWalk w dir).
Proof.
  intros p. unfold startWalk, bind, ret.
  destruct (quiet_log (EvNewIgnore dir) eq_refl eq_refl p) as (evs0 & Htr0 & Hst0 & Hfs0).
  destruct (log (EvNewIgnore dir) p) as [[] p0]. cbn [snd] in *.
  destruct (quiet_findIgnoreFiles (path_resolve (cwd w) [dir; ".."]) p0)
    as (evs & Htr & Hst & Hfs).
  destruct (findIgnoreFiles w _ p0) as [[err | found] p1]; cbn [snd] in *.
  - exists (evs0 ++ evs). simpl. rewrite Htr, Htr0, <- app_assoc, statsOf_app, Hst0, Hst.
    repeat split. eapply finderStep_trans; eauto.
  - destruct (Nat.eqb (length found) 0); simpl.
    + exists (evs0 ++ evs). rewrite Htr, Htr0, <- app_assoc, statsOf_app, Hst0, Hst.
      repeat split. eapply finderStep_trans; eauto.
    + rewrite logAll_trace. simpl.
      exists (evs0 ++ evs ++ EvPause dir :: map (EvAddIgnoreFile dir) found).
      rewrite Htr, Htr0, <- !app_assoc, !statsOf_app, Hst0, Hst. simpl.
      rewrite statsOf_addIgnoreFile.
      repeat split.
      eapply finderStep_trans; [ exact Hfs0 | ].
      eapply finderStep_trans; [ exact Hfs | ].
      apply finderStep_same; [ reflexivity | ].
      simpl. clear. induction found; simpl; auto.
Qed.

Lemma quiet_onChild c helper ws : quiet (onChild w c helper ws).
Proof.
  intros p. unfold onChild, bindE, ret.
  destruct (String.eqb (extname c) ".js"); simpl.
  - destruct (quiet_processFile c helper p) as (evs & Htr & Hst & Hfs).
    destruct (processFile w c helper p) as [[exn | res] p1]; simpl in *; eauto.
  - exists []. rewrite app_nil_r. repeat split. apply finderStep_same; reflexivity.
Qed.

Lemma quiet_onIgnoreFileLoaded file i ws :
  quiet (onIgnoreFileLoaded w file i ws).
Proof.
  intros p. unfold onIgnoreFileLoaded, bind, ret.
  destruct (match ignoreFilesInParentDirs ws with
            | Some found => Nat.eqb (S (counter ws)) (length found)
            | None => false
            end); simpl.
  - eexists; repeat split. apply finderStep_same; reflexivity.
  - exists []. rewrite app_nil_r. repeat split. apply finderStep_same; reflexivity.
Qed.

Lemma frame_refl (s : Process LintState * Run) : frame s s.
Proof.
  exists [], []. rewrite !app_nil_r. simpl.
  repeat split; auto; try contradiction. apply finderStep_same; reflexivity.
Qed.

Lemma frame_next r (p : Process LintState) :
  pending r = Idle -> frame (p, r) (swap (next r p)).
Proof.
  intros Hpd. unfold next, frame. destruct (files r) as [ | file rest] eqn:Hf; simpl.
  - exists [], [CbOk (results r)]. rewrite app_nil_r. simpl.
    split; [ reflexivity | ]. split; [ reflexivity | ].
    split; [ apply finderStep_same; reflexivity | ].
    repeat split; auto. all: destruct H as [[= <-] | []]; auto.
  - exists [EvStat file], []. rewrite app_nil_r. simpl.
    split; [ reflexivity | ]. split; [ exact Hf | ].
    split; [ apply finderStep_same; reflexivity | ].
    repeat split; auto; contradiction.
Qed.

Lemma frame_quiet {A} (m : M LintState A) (p : Process LintState) r r' :
  quiet m ->
  files r' = files r -> calls r' = calls r -> this r' = this r ->
  configHelper r' = configHelper r ->
  frame (p, r) (snd (m p), r').
Proof.
  intros Hq Hf Hc Ht Hh. destruct (Hq p) as (evs & Htr & Hst & Hfs).
  exists evs, []. simpl. rewrite Htr, Hst, app_nil_r, Hf, Hc, Ht, Hh.
  repeat split; auto; contradiction.
Qed.

Lemma frame_trans (s1 s2 s3 : Process LintState * Run) :
  frame s1 s2 -> frame s2 s3 ->
  (succeeded (snd s2) -> s3 = s2) ->
  frame s1 s3.
Proof.
  intros (evs1 & cs1 & Htr1 & Hf1 & Hfs1 & Hc1 & Ht1 & Hh1 & Hok1)
         (evs2 & cs2 & Htr2 & Hf2 & Hfs2 & Hc2 & Ht2 & Hh2 & Hok2) Hstop.
  exists (evs1 ++ evs2), (cs1 ++ cs2).
  rewrite Htr2, Htr1, Hf1, Hf2, Hc2, Hc1, Ht2, Ht1, Hh2, Hh1, statsOf_app,
    <- !app_assoc.
  split; [ reflexivity | ]. split; [ reflexivity | ].
  split; [ eapply finderStep_trans; eauto | ].
  repeat split; auto.
  all: apply in_app_or in H; destruct H as [H | H]; [ | apply (Hok2 _ H) ].
  all: rewrite Hstop; [ apply (Hok1 _ H) | ].
  all: exists rs; rewrite Hc1; apply in_or_app; right; exact H.
Qed.

Lemma frame_callback_err err (p : Process LintState) r r' :
  files r' = files r -> calls r' = calls r -> this r' = this r ->
  configHelper r' = configHelper r ->
  frame (p, r) (p, callback (CbErr err) r').
Proof.
  intros Hf Hc Ht Hh.
  exists [], [CbErr err]. simpl. rewrite app_nil_r, Hf, Hc, Ht, Hh.
  split; [ reflexivity | ]. split; [ reflexivity | ].
  split; [ apply finderStep_same; reflexivity | ].
  repeat split; auto. all: destruct H as [[=] | []].
Qed.

Lemma frame_dispatched out r (p : Process LintState) :
  (forall res, out = inr res -> pending r = Idle) ->
  ~ succeeded r ->
  frame (p, r) (swap (dispatched out r p)).
Proof.
  intros Hpd Hns. destruct out as [err | res]; simpl.
  - apply frame_callback_err; reflexivity.
  - eapply frame_trans; [ | apply frame_next; simpl; eauto | ].
    + exists [], []. simpl. rewrite !app_nil_r.
      split; [ reflexivity | ]. split; [ reflexivity | ].
      split; [ apply finderStep_same; reflexivity | ].
      repeat split; auto; contradiction.
    + intros Hs. contradiction.
Qed.

Lemma frame_okInv (s s' : Process LintState * Run) :
  ~ succeeded (snd s) -> frame s s' -> okInv s'.
Proof.
  intros Hns (evs & cs & _ & _ & _ & Hc & _ & _ & Hok) [rs Hin].
  rewrite Hc in Hin. apply in_app_or in Hin. destruct Hin as [Hin | Hin].
  - exfalso. apply Hns. exists rs. exact Hin.
  - destruct (Hok _ Hin) as (? & ? & ?). auto.
Qed.

(** An exception that leaves a callback: the call stops as it is. *)
Lemma frame_thrown exn (p : Process LintState) r r' :
  files r' = files r -> calls r' = calls r -> this r' = this r ->
  configHelper r' = configHelper r ->
  frame (p, r) (p, setPending (Thrown exn) r').
Proof.
  intros Hf Hc Ht Hh.
  exists [], []. simpl. rewrite !app_nil_r, Hf, Hc, Ht, Hh.
  split; [ reflexivity | ]. split; [ reflexivity | ].
  split; [ apply finderStep_same; reflexivity | ].
  repeat split; auto; contradiction.
Qed.

Lemma step_frame c s s' :
  okInv s -> step w c s = Some s' -> frame s s'.
Proof.
  destruct s as [p r]. unfold step. intros Hok.
  assert (Hns : pending r <> Idle -> ~ succeeded r).
  { intros Hpd Hs. apply Hpd. apply (Hok Hs). }
  destruct c, (pending r) as [ | file | ws | exn0] eqn:Hpd; try discriminate.
  - (* the stat of a target completes *)
    specialize (Hns ltac:(discriminate)).
    unfold onStat, lift.
    destruct (stat w file) as [err | stats].
    + simpl. intros [= <-]. apply frame_callback_err; reflexivity.
    + destruct (isDirectory stats).
      * unfold executeOnDirectory, bind.
        pose proof (quiet_startWalk file) as Hq.
        pose proof (frame_quiet (startWalk w file) p r
                      (setPending (PWalk (fst (fst (startWalk w file p)))) r)
                      Hq eq_refl eq_refl eq_refl eq_refl) as Hfr.
        destruct (startWalk w file p) as [[ws early] p1]; simpl in Hfr.
        destruct early as [err | ]; simpl; intros [= <-]; [ | exact Hfr ].
        eapply frame_trans;
          [ exact Hfr | apply frame_callback_err; reflexivity | ].
        intros Hs. contradiction.
      * unfold bindE.
        pose proof (frame_quiet (processFile w file (configHelper r)) p r
                      (setPending Idle r)
                      (quiet_processFile file (configHelper r))
                      eq_refl eq_refl eq_refl eq_refl) as Hfr.
        change (configHelper (setPending Idle r)) with (configHelper r).
        destruct (processFile w file (configHelper r) p) as [[exn | res] p1];
          simpl in Hfr.
        -- intros [= <-]. cbn [escaped].
           eapply frame_trans;
             [ exact Hfr | apply (frame_thrown exn p1 _ r); reflexivity | ].
           intros Hs. contradiction.
        -- destruct (dispatched _ _ p1) as [r' p'] eqn:Hd. intros [= <-].
           change (p', r') with (swap (r', p')). rewrite <- Hd.
           eapply frame_trans; [ exact Hfr | apply frame_dispatched; auto | ].
           intros Hs. contradiction.
  - (* the load of an ignore file has completed *)
    destruct (loading ws !! i) as [file | ]; [ | discriminate ].
    pose proof (frame_quiet (onIgnoreFileLoaded w file i ws) p r
                  (setPending (PWalk (fst (onIgnoreFileLoaded w file i ws p))) r)
                  (quiet_onIgnoreFileLoaded file i ws)
                  eq_refl eq_refl eq_refl eq_refl) as Hfr.
    destruct (onIgnoreFileLoaded w file i ws p) as [ws' p']. intros [= <-].
    exact Hfr.
  - (* the reader delivers an event *)
    specialize (Hns ltac:(discriminate)).
    destruct (paused ws); [ discriminate | ].
    unfold onReader.
    destruct (reader w (wdir ws) (registered ws)) as [children last].
    destruct (children !! emitted ws) as [c | ].
    + unfold bindE, ret.
      assert (Hfr : forall r',
                files r' = files r -> calls r' = calls r -> this r' = this r ->
                configHelper r' = configHelper r ->
                frame (p, r) (snd (onChild w c (configHelper r) ws p), r')).
      { intros r' Hf Hc Ht Hh. apply frame_quiet; auto. apply quiet_onChild. }
      destruct (onChild w c (configHelper r) ws p) as [[exn | ws'] p']; simpl in Hfr;
        intros [= <-]; cbn [escaped]; apply Hfr; reflexivity.
    + unfold lift. destruct last as [err | ];
        destruct (dispatched _ _ p) as [r' p'] eqn:Hd; intros [= <-];
        change (p', r') with (swap (r', p')); rewrite <- Hd;
        apply (frame_dispatched _ (setPending Idle r) p); auto.
Qed.

Lemma run_frame sched s :
  okInv s -> frame s (run w sched s) ∧ okInv (run w sched s).
Proof.
  revert s. induction sched as [ | c sched IH]; intros s Hok; cbn [run].
  - split; [ apply frame_refl | exact Hok ].
  - destruct (step w c s) as [s' | ] eqn:Hstep; simpl; [ | apply IH; exact Hok ].
    pose proof (step_frame c s s' Hok Hstep) as Hfr.
    assert (Hns : ~ succeeded (snd s)).
    { intros Hs. destruct s as [p r]. destruct (Hok Hs) as [Hpd _].
      rewrite (step_idle c p r Hpd) in Hstep. discriminate. }
    pose proof (frame_okInv s s' Hns Hfr) as Hok'.
    destruct (IH s' Hok') as [Hfr' Hok''].
    split; [ | exact Hok'' ].
    eapply frame_trans; [ exact Hfr | exact Hfr' | ].
    intros Hs. destruct s' as [p' r']. destruct (Hok' Hs) as [Hpd _].
    apply run_idle. exact Hpd.
Qed.

Lemma start_frame engine targets (p : Process LintState) :
  let r0 := {| this := engine; files := targets;
               configHelper := options engine; results := [];
               pending := Idle; calls := [] |} in
  frame (p, r0) (start engine targets p) ∧ okInv (start engine targets p).
Proof.
  intros r0.
  assert (Hfr : frame (p, r0) (start engine targets p)).
  { unfold start, executeOnFiles, bind.
    set (p1 := snd (log (EvNewConfig (options engine)) p)).
    change (log (EvNewConfig (options engine)) p) with (tt, p1).
    cbv beta iota.
    destruct (next _ p1) as [r' p'] eqn:Hn.
    change (p', r') with (swap (r', p')). rewrite <- Hn.
    eapply frame_trans; [ | apply (frame_next r0 p1 eq_refl) | ].
    - exists [EvNewConfig (options engine)], []. simpl.
      split; [ reflexivity | ]. split; [ reflexivity | ].
      split; [ apply finderStep_same; reflexivity | ].
      repeat split; auto; contradiction.
    - intros [rs []]. }
  split; [ exact Hfr | ].
  eapply frame_okInv; [ | exact Hfr ]. intros [rs []].
Qed.

(** ** [executeOnFiles] on an empty list, and what a call does to its arguments *)

(** C10: with an empty [files] array the call invokes the callback once,
    at once, with a null error and an empty result list; it is then at rest,
    so no schedule makes it call back again; the only call it has made to a
    collaborator is [new Config(this.options)]: no [fs.stat], no reader, no
    lookup of ignore files. *)
Theorem executeOnFiles_empty engine (p : Process LintState) :
  let s := start engine [] p in
  calls (snd s) = [CbOk []]
  ∧ pending (snd s) = Idle
  ∧ files (snd s) = []
  ∧ trace (fst s) = trace p ++ [EvNewConfig (options engine)]
  ∧ ignoreFileFinder (fst s) = ignoreFileFinder p
  ∧ lint (fst s) = lint p
  ∧ (forall c, step w c s = None)
  ∧ (forall sched, run w sched s = s).
Proof.
  simpl. repeat split; auto.
  - intros c. destruct c; reflexivity.
  - intros sched. apply run_idle. reflexivity.
Qed.

(** C9: the targets dispatched so far (the [fs.stat] calls of the trace)
    followed by what is left in [files] are the array the caller passed: each
    target leaves the array when it is dispatched.  Once the callback has
    been given a result list the array is empty.  [this], and with it the
    stored options, and the [configHelper] made from them are those of the
    call. *)
Theorem executeOnFiles_shifts_files engine targets (p : Process LintState) sched :
  let s := run w sched (start engine targets p) in
  (exists evs, trace (fst s) = trace p ++ evs
               ∧ targets = statsOf evs ++ files (snd s))
  ∧ (succeeded (snd s) -> files (snd s) = [])
  ∧ this (snd s) = engine
  ∧ options (this (snd s)) = options engine
  ∧ configHelper (snd s) = options engine.
Proof.
  intros s.
  destruct (start_frame engine targets p) as [Hfr0 Hok0].
  destruct (run_frame sched _ Hok0) as [Hfr Hok]. fold s in Hfr, Hok.
  assert (Hall : frame (p, {| this := engine; files := targets;
                              configHelper := options engine; results := [];
                              pending := Idle; calls := [] |}) s).
  { eapply frame_trans; [ exact Hfr0 | exact Hfr | ].
    intros Hs. destruct (start engine targets p) as [p1 r1] eqn:Hst.
    unfold s. apply run_idle. apply (Hok0 Hs). }
  destruct Hall as (evs & cs & Htr & Hf & _ & Hc & Ht & Hh & _). simpl in *.
  split; [ exists evs; auto | ].
  split; [ intros Hs; apply (Hok Hs) | ].
  rewrite Ht. auto.
Qed.

(** ** [processFile] *)

(** C8: the first call that [processFile] makes is [eslint.reset()], and it
    does not reset again; when the file exists and its configuration and
    contents can be had, [verify] runs in the state that this reset produced
    and its messages are the messages of the result (what it throws is what
    [processFile] throws).  So the result can depend on the state the linter
    was left in only through what [reset] keeps of it. *)
Theorem processFile_resets_before_verify filename helper (p : Process LintState) :
  let out := processFile w filename helper p in
  let filePath := path_resolve (cwd w) [filename] in
  (exists evs, trace (snd out) = trace p ++ EvEslintReset :: evs
               ∧ ~ In EvEslintReset evs)
  ∧ (if fs_existsSync w filePath then
       match getConfig w helper filePath, fs_readFileSync w filePath with
       | inr config, inr text =>
           (match fst out with
            | inr res => inr (messages res)
            | inl exn => inl exn
            end, lint (snd out)) =
             eslint_verify w (eslint_reset w (lint p)) text config filename
       | _, _ =>
           (exists exn, fst out = inl exn)
           ∧ lint (snd out) = eslint_reset w (lint p)
       end
     else
       (exists res, fst out = inr res ∧ messages res = [notFound filePath])
       ∧ lint (snd out) = eslint_reset w (lint p))
  ∧ (forall p2 : Process LintState,
       eslint_reset w (lint p2) = eslint_reset w (lint p) ->
       fst (processFile w filename helper p2) = fst out).
Proof.
  cbv zeta. split; [ | split ].
  - rewrite processFile_trace. unfold processFileEvents.
    destruct (fs_existsSync w _);
      [ destruct (getConfig w _ _);
        [ | destruct (fs_readFileSync w _) ] | ];
      eexists; (split; [ reflexivity | ]);
      simpl; intros H; repeat (destruct H as [H | H]; [ discriminate | ]);
      exact H.
  - processFile_cases; eauto.
  - intros p2 Hreset.
    unfold processFile, bind, bindE, ret, existsSync, configHelper_getConfig,
      readFileSync, eslintVerify, eslintReset, log; simpl.
    rewrite Hreset.
    destruct (fs_existsSync w _); simpl; [ | reflexivity ].
    destruct (getConfig w _ _); simpl; [ reflexivity | ].
    destruct (fs_readFileSync w _); simpl; [ reflexivity | ].
    destruct (eslint_verify w _ _ _ _) as [[exn | ms] l]; reflexivity.
Qed.

(** ** The walk of a directory *)

(** C4, as the code has it, in every state that a call can reach.  When
    the lookup of the ancestors' ignore files returned, the reader delivers an
    event only when no load is outstanding: then all the loads have been
    counted, and the reader has taken in the files that it could read, which
    need not be all of them.  While a load is outstanding the reader is
    paused and has delivered nothing; with no ignore file it is never paused.
    When the lookup threw, the reader is not paused and is free to deliver,
    with no ignore file of an ancestor taken in. *)
Theorem walk_barrier engine targets (p : Process LintState) sched ws :
  let s := run w sched (start engine targets p) in
  pending (snd s) = PWalk ws ->
  match ignoreFilesInParentDirs ws with
  | Some found =>
      (forall s', step w ReaderEvent s = Some s' ->
                  loading ws = []
                  ∧ counter ws = length found
                  ∧ registered ws = list_to_set (readable w (wdir ws) found))
      ∧ (loading ws <> [] ->
         paused ws = true ∧ emitted ws = 0 ∧ wresults ws = [])
      ∧ (found = [] -> paused ws = false ∧ loading ws = [])
  | None =>
      paused ws = false ∧ loading ws = [] ∧ registered ws = ∅
      ∧ exists s', step w ReaderEvent s = Some s'
  end.
Proof.
  intros s Hpd.
  pose proof (run_inv sched _ (start_inv engine targets p)) as Hinv.
  fold s in Hinv. unfold inv in Hinv. rewrite Hpd in Hinv.
  destruct Hinv as [Hw [Hres Hem]].
  pose proof Hw as Hw'. unfold walkInv in Hw'.
  destruct (ignoreFilesInParentDirs ws) as [found | ] eqn:Hfound.
  - destruct Hw' as (Hc & Hreg & Hpa).
    split; [ | split ].
    + intros s' Hstep. destruct s as [p1 r1]. simpl in Hpd.
      unfold step in Hstep. rewrite Hpd in Hstep.
      destruct (paused ws) eqn:Hp; [ discriminate | ].
      pose proof (walkInv_unpaused ws Hw Hp) as Hl.
      rewrite Hl in Hc, Hreg. simpl in Hc, Hreg.
      rewrite union_empty_l_L in Hreg. split; [ auto | split; [ lia | auto ] ].
    + intros Hl.
      assert (Hp : paused ws = true).
      { rewrite Hpa. destruct (loading ws); [ contradiction | reflexivity ]. }
      specialize (Hem Hp). rewrite Hem in Hres. simpl in Hres.
      destruct (wresults ws); [ auto | discriminate ].
    + intros ->. simpl in Hc.
      assert (Hl : loading ws = []).
      { apply length_zero_iff_nil. lia. }
      rewrite Hl in Hpa. simpl in Hpa. auto.
  - destruct Hw' as (Hl & Hreg & Hpa).
    split; [ exact Hpa | ]. split; [ exact Hl | ]. split; [ exact Hreg | ].
    destruct s as [p1 r1]. simpl in Hpd. unfold step. rewrite Hpd, Hpa.
    destruct (onReader w ws r1 p1). eexists. reflexivity.
Qed.

(** C6, as the code has it, in every state that a call can reach.  The
    results of a walk are those of the children delivered so far whose
    [path.extname] is [.js], in the order of delivery.  The next child is
    handed to [processFile] exactly when its extension is [.js]: then the
    calls of [processFile] for it are made and, when [processFile] returns,
    its Result is pushed; when [processFile] throws, no Result is pushed, the
    exception leaves the handler and the call stops without calling back.  A
    child with another extension changes nothing.  The path of a Result ends
    in [.js] when the reader gives its paths without a trailing separator
    ([path.extname] skips trailing separators). *)
Theorem child_processed_iff_js engine targets (p : Process LintState) sched ws :
  let s := run w sched (start engine targets p) in
  let children := fst (reader w (wdir ws) (registered ws)) in
  pending (snd s) = PWalk ws ->
  map filePath (wresults ws) = List.filter isJs (take (emitted ws) children)
  ∧ Forall (fun r => extname (filePath r) = ".js") (wresults ws)
  ∧ ((forall c, In c children -> endsWithSlash c = false) ->
     Forall (fun r => exists stem, filePath r = stem +:+ ".js") (wresults ws))
  ∧ forall c,
      paused ws = false ->
      children !! emitted ws = Some c ->
      exists s',
        step w ReaderEvent s = Some s'
        ∧ files (snd s') = files (snd s)
        ∧ calls (snd s') = calls (snd s)
        ∧ results (snd s') = results (snd s)
        ∧ if isJs c then
            trace (fst s') =
              trace (fst s) ++ processFileEvents w c (configHelper (snd s))
            ∧ match fst (processFile w c (configHelper (snd s)) (fst s)) with
              | inr res =>
                  filePath res = c
                  ∧ exists ws',
                      pending (snd s') = PWalk ws'
                      ∧ wresults ws' = wresults ws ++ [res]
                      ∧ emitted ws' = S (emitted ws)
              | inl exn => pending (snd s') = Thrown exn
              end
          else
            fst s' = fst s
            ∧ exists ws',
                pending (snd s') = PWalk ws'
                ∧ wresults ws' = wresults ws
                ∧ emitted ws' = S (emitted ws).
Proof.
  intros s children Hpd.
  pose proof (run_inv sched _ (start_inv engine targets p)) as Hinv.
  fold s in Hinv. unfold inv in Hinv. rewrite Hpd in Hinv.
  destruct Hinv as [Hw [Hres Hem]]. fold children in Hres.
  assert (Hjs : forall r, In r (wresults ws) ->
                  In (filePath r) (take (emitted ws) children)
                  ∧ extname (filePath r) = ".js").
  { intros r Hr. apply (in_map filePath) in Hr. rewrite Hres in Hr.
    apply filter_In in Hr. destruct Hr as [Hin Hext].
    split; [ exact Hin | apply String.eqb_eq; exact Hext ]. }
  split; [ exact Hres | ]. split; [ | split ].
  - apply List.Forall_forall. intros r Hr. apply (Hjs r Hr).
  - intros Hslash. apply List.Forall_forall. intros r Hr.
    destruct (Hjs r Hr) as [Hin Hext].
    apply extname_js_suffix; [ exact Hext | ].
    apply Hslash. apply list_elem_of_In. eapply subseteq_take.
    apply list_elem_of_In. exact Hin.
  - intros c Hpa Hc. destruct s as [p1 r1]. cbn [fst snd] in *.
    unfold step. rewrite Hpd, Hpa. unfold onReader. fold children.
    destruct (reader w (wdir ws) (registered ws)) as [cs last] eqn:Hrd.
    simpl in children. subst children. rewrite Hc.
    unfold onChild, bindE, isJs, ret.
    destruct (String.eqb (extname c) ".js").
    + pose proof (processFile_trace c (configHelper r1) p1) as Htr.
      pose proof (processFile_filePath c (configHelper r1) p1) as Hfp.
      destruct (processFile w c (configHelper r1) p1) as [[exn | res] p2];
        cbn [fst snd] in *; eexists; (split; [ reflexivity | ]); simpl;
        repeat split; eauto.
    + eexists. split; [ reflexivity | ]. simpl. repeat split; eauto.
Qed.

(** ** Order of the results *)

Lemma collect_filePaths cs helper acc (p : Process LintState) rs :
  fst (collect w cs helper acc p) = inr rs ->
  map filePath rs = map filePath acc ++ List.filter isJs cs.
Proof.
  revert acc p. induction cs as [ | c cs IH]; intros acc p; simpl.
  - intros [= <-]. rewrite app_nil_r. reflexivity.
  - unfold isJs at 1. destruct (String.eqb (extname c) ".js"); [ | apply IH ].
    unfold bindE.
    pose proof (processFile_filePath c helper p) as Hfp.
    destruct (processFile w c helper p) as [[exn | res] p1]; simpl in Hfp;
      [ discriminate | ].
    intros Hrs. rewrite (IH _ _ Hrs), map_app, <- app_assoc. simpl.
    rewrite (Hfp res eq_refl). reflexivity.
Qed.

Lemma findIgnoreFiles_log dir tr (p : Process LintState) :
  fst (findIgnoreFiles w dir
         {| ignoreFileFinder := ignoreFileFinder p; lint := lint p; trace := tr |})
  = fst (findIgnoreFiles w dir p).
Proof.
  unfold findIgnoreFiles; simpl.
  destruct (ignoreFileFinder p); destruct (findAll w _ dir); reflexivity.
Qed.

Lemma dispatchTarget_paths file helper (p p' : Process LintState) res :
  dispatchTarget w file helper p = ((None, Called (inr res)), p') ->
  map filePath res = discovered w file p.
Proof.
  unfold dispatchTarget, discovered.
  destruct (stat w file) as [err | stats]; [ discriminate | ].
  destruct stats; simpl.
  - unfold bind, ret.
    pose proof (processFile_filePath file helper p) as Hfp.
    destruct (processFile w file helper p) as [[exn | r1] p1]; simpl in Hfp;
      [ intros [=] | ].
    intros [= <- <-]. simpl. rewrite (Hfp r1 eq_refl). reflexivity.
  - unfold bind, ret, startWalk, bind, ret, log.
    rewrite <- (findIgnoreFiles_log _ (trace p ++ [EvNewIgnore file]) p).
    destruct (findIgnoreFiles w _ _) as [[err | found] p1]; simpl.
    + match goal with
      | |- context [finishWalk w helper ?ws ?q] =>
          destruct (finishWalk w helper ws q)
      end.
      discriminate.
    + assert (Hcol : forall ws q,
                wdir ws = file -> wresults ws = [] -> emitted ws = 0 ->
                list_to_set (readable w file (loading ws)) ∪ registered ws
                  = (list_to_set (readable w file found) : gset string) ->
                forall out q', finishWalk w helper ws q = (Called (inr out), q') ->
                map filePath out =
                List.filter isJs
                  (fst (reader w file (list_to_set (readable w file found))))).
      { intros ws q Hd Hr He Hs out q'. unfold finishWalk, bind, ret.
        rewrite Hd, Hr, He, Hs.
        destruct (reader w file (list_to_set (readable w file found)))
          as [children last].
        rewrite drop_0.
        destruct (loading ws); simpl;
          match goal with
          | |- context [collect w children helper [] ?q1] =>
              pose proof (collect_filePaths children helper [] q1) as Hc;
              destruct (collect w children helper [] q1) as [[exn | rs] q2]
          end;
          simpl in Hc; try (intros [=]; fail);
          destruct last; intros [= <- <-]; apply Hc; reflexivity. }
      destruct (Nat.eqb_spec (length found) 0) as [Hlen | Hlen]; simpl.
      * match goal with
        | |- context [finishWalk w helper ?ws ?q] =>
            destruct (finishWalk w helper ws q) as [out q'] eqn:Hfin
        end.
        intros [= -> <-]. eapply Hcol; [ | | | | exact Hfin ]; simpl; auto.
        destruct found; [ set_solver | discriminate ].
      * rewrite logAll_trace. simpl.
        match goal with
        | |- context [finishWalk w helper ?ws ?q] =>
            destruct (finishWalk w helper ws q) as [out q'] eqn:Hfin
        end.
        intros [= -> <-]. eapply Hcol; [ | | | | exact Hfin ]; simpl; auto.
        set_solver.
Qed.

Lemma nextToEnd_calls targets r (p : Process LintState) r' p' :
  nextToEnd w targets r p = (r', p') ->
  exists cs,
    calls r' = calls r ++ cs
    ∧ (pending r' = Idle -> cs <> [])
    ∧ forall rs, cs = [CbOk rs] ->
        exists rss,
          Dispatched w (configHelper r) targets p rss p'
          ∧ rs = results r ++ concat rss
          ∧ results r' = rs.
Proof.
  revert r p. induction targets as [ | file rest IH]; intros r p; simpl.
  - intros [= <- <-]. exists [CbOk (results r)]. split; [ reflexivity | ].
    split; [ discriminate | ].
    intros rs [= <-]. exists []. simpl. rewrite app_nil_r.
    split; [ constructor | auto ].
  - unfold bind. cbn [log].
    destruct (dispatchTarget w file (configHelper r) _) as [[early out] p2] eqn:Hd.
    unfold conclude. cbn [fst snd this files configHelper results calls].
    destruct out as [exn | [err | res]].
    + intros [= <- <-]. simpl. exists (earlyCalls early).
      split; [ reflexivity | ]. split; [ discriminate | ].
      intros rs Hcs. destruct early; discriminate.
    + intros [= <- <-]. simpl. exists (earlyCalls early ++ [CbErr err]).
      rewrite app_assoc. split; [ reflexivity | ].
      split; [ destruct early; discriminate | ].
      intros rs Hcs. destruct early; discriminate.
    + intros Hn. destruct (IH _ _ Hn) as (cs & Hcalls & Hne & Hok).
      simpl in Hcalls, Hok.
      exists (earlyCalls early ++ cs).
      rewrite Hcalls, app_assoc. split; [ reflexivity | ].
      split; [ intros Hi; specialize (Hne Hi); destruct early, cs; simpl; congruence | ].
      intros rs Hcs.
      destruct early as [err | ]; simpl in Hcs.
      * discriminate.
      * destruct (Hok rs Hcs) as (rss & Hdisp & Hrs & Hres).
        exists (res :: rss). simpl. rewrite app_assoc.
        split; [ | auto ].
        apply Dispatched_cons with (p1 := p2).
        -- exact Hd.
        -- eapply dispatchTarget_paths. exact Hd.
        -- exact Hdisp.
Qed.

(** C3: when the callback is called with a result list and never with an
    error, the targets have been dispatched one after the other in the order
    of the array, each starting in the process state (trace, linter, locator)
    that the previous one left and each completing without error, whatever
    the order in which the event loop ran the callbacks; the result list is
    the concatenation of the targets' result lists, and the paths in the list
    of a directory are the [.js] children in the order in which its reader
    delivered them. *)
Theorem results_in_target_order engine targets (p : Process LintState) sched rs :
  let s := run w sched (start engine targets p) in
  calls (snd s) = [CbOk rs] ->
  exists rss,
    Dispatched w (options engine) targets
      (snd (log (EvNewConfig (options engine)) p)) rss (fst s)
    ∧ rs = concat rss
    ∧ results (snd s) = rs
    ∧ map filePath rs =
        concat (map (fun res => map filePath res) rss)
    ∧ pending (snd s) = Idle.
Proof.
  intros s Hcalls.
  destruct (start_frame engine targets p) as [_ Hok0].
  destruct (run_frame sched _ Hok0) as [_ Hok]. fold s in Hok.
  assert (Hidle : pending (snd s) = Idle).
  { apply Hok. exists rs. rewrite Hcalls. left. reflexivity. }
  assert (Hend : toEnd w s = s).
  { destruct s as [p1 r1]. simpl in Hidle. unfold toEnd. rewrite Hidle. reflexivity. }
  pose proof (toEnd_run sched _ (start_inv engine targets p)) as Hrun.
  fold s in Hrun. rewrite Hend, toEnd_start in Hrun.
  unfold bind in Hrun. cbn [log] in Hrun.
  match type of Hrun with
  | _ = swap (nextToEnd w targets ?r0 ?p1) =>
      destruct (nextToEnd w targets r0 p1) as [r' p'] eqn:Hn;
      destruct (nextToEnd_calls targets r0 p1 r' p' Hn) as (cs & Hc & _ & Hdisp)
  end.
  subst s. rewrite Hrun in *. simpl in *.
  rewrite Hcalls in Hc. subst cs.
  destruct (Hdisp rs eq_refl) as (rss & Hd & Hrs & Hres).
  exists rss. repeat split; auto.
  rewrite Hrs. clear. induction rss as [ | res rss IH]; simpl; [ reflexivity | ].
  rewrite map_app, IH. reflexivity.
Qed.

(** ** The locator of ignore files *)

(** C5, as the code has it: [ignoreFileFinder] is a variable of the
    module.  Whatever the engine, the targets and the schedule, a call that
    starts in a process where a locator exists never constructs one: in every
    state it reaches the variable holds that locator, with the memo it had
    and what the call has added; a call that starts without one constructs at
    most one.  A lookup for a directory that is in the memo is answered from
    the memo, whatever the filesystem holds by then. *)
Theorem locator_outlives_calls engine targets (p : Process LintState) sched :
  let s := run w sched (start engine targets p) in
  (exists evs,
     trace (fst s) = trace p ++ evs
     ∧ match ignoreFileFinder p with
       | Some ff =>
           (exists ff', ignoreFileFinder (fst s) = Some ff'
                        ∧ fileName ff' = fileName ff
                        ∧ cache ff ⊆ cache ff')
           ∧ constructions evs = 0
       | None =>
           match ignoreFileFinder (fst s) with
           | None => constructions evs = 0
           | Some _ => constructions evs = 1
           end
       end)
  ∧ (forall dir q ff found,
       ignoreFileFinder q = Some ff ->
       cache ff !! dir = Some found ->
       findIgnoreFiles w dir q =
         (inr found, {| ignoreFileFinder := Some ff; lint := lint q;
                        trace := trace q ++ [EvFindAll dir] |})).
Proof.
  intros s. split.
  - destruct (start_frame engine targets p) as [Hfr0 Hok0].
    destruct (run_frame sched _ Hok0) as [Hfr Hok]. fold s in Hfr, Hok.
    assert (Hall : frame (p, {| this := engine; files := targets;
                                configHelper := options engine; results := [];
                                pending := Idle; calls := [] |}) s).
    { eapply frame_trans; [ exact Hfr0 | exact Hfr | ].
      intros Hs. destruct (start engine targets p) as [p1 r1] eqn:Hst.
      unfold s. apply run_idle. apply (Hok0 Hs). }
    destruct Hall as (evs & cs & Htr & _ & Hfs & _). simpl in *.
    exists evs. split; [ exact Htr | ].
    unfold finderStep, extendsFinder in Hfs.
    destruct (ignoreFileFinder p); [ | exact Hfs ].
    destruct Hfs as [(ff' & Hff & Hn & Hc) Hcons]. eauto.
  - intros dir q ff found Hq Hc. unfold findIgnoreFiles, findAll.
    rewrite Hq, Hc. reflexivity.
Qed.

(** ** Failures that do abort the call *)

(** A failing [fs.stat], for any target of the list: the callback gets the
    error and the call is at rest, with the later targets still in [files]. *)
Lemma stat_failure_aborts (p : Process LintState) r file err :
  pending r = PStat file ->
  stat w file = inl err ->
  step w StatDone (p, r) = Some (p, callback (CbErr err) (setPending Idle r))
  ∧ forall sched,
      run w sched (p, callback (CbErr err) (setPending Idle r))
      = (p, callback (CbErr err) (setPending Idle r)).
Proof.
  intros Hpd Hstat. split.
  - unfold step. rewrite Hpd. unfold onStat. rewrite Hstat. reflexivity.
  - intros sched. apply run_idle. reflexivity.
Qed.

(** An "error" of the reader: the same. *)
Lemma reader_error_aborts (p : Process LintState) r ws children err :
  pending r = PWalk ws ->
  paused ws = false ->
  reader w (wdir ws) (registered ws) = (children, Some err) ->
  children !! emitted ws = None ->
  step w ReaderEvent (p, r) = Some (p, callback (CbErr err) (setPending Idle r))
  ∧ forall sched,
      run w sched (p, callback (CbErr err) (setPending Idle r))
      = (p, callback (CbErr err) (setPending Idle r)).
Proof.
  intros Hpd Hpa Hrd Hnone. split.
  - unfold step. rewrite Hpd, Hpa. unfold onReader. rewrite Hrd, Hnone.
    reflexivity.
  - intros sched. apply run_idle. reflexivity.
Qed.

(** ** A target that cannot be stat'ed *)

(** For a path that is not there [processFile] itself gives a result with
    one fatal message. *)
Lemma processFile_of_missing_file filename helper (p : Process LintState) :
  fs_existsSync w (path_resolve (cwd w) [filename]) = false ->
  fst (processFile w filename helper p) =
    inr {| filePath := filename;
           messages :=
             [ {| fatal := true;
                  message := "Could not find file at '"
                             +:+ path_resolve (cwd w) [filename] +:+ "'." |} ] |}.
Proof.
  intros Hex.
  unfold processFile, bind, ret, existsSync, eslintReset, log. simpl.
  rewrite Hex. reflexivity.
Qed.

(** C2 at a target whose [fs.stat] fails, as it does for a path that is
    not on disk: when the stat completes the callback is called with the
    error; there is no Result for the target, the targets after it are still
    in [files] and are never dispatched, and nothing more can happen. *)
Theorem missing_target_is_a_hard_error
    engine file rest (p : Process LintState) err :
  stat w file = inl err ->
  let s := start engine (file :: rest) p in
  exists s',
    step w StatDone s = Some s'
    ∧ calls (snd s') = [CbErr err]
    ∧ results (snd s') = []
    ∧ pending (snd s') = Idle
    ∧ files (snd s') = rest
    ∧ trace (fst s') = trace p ++ [EvNewConfig (options engine); EvStat file]
    ∧ (forall sched, run w sched s' = s')
    ∧ (forall sched, calls (snd (run w (StatDone :: sched) s)) = [CbErr err]).
Proof.
  intros Hstat s.
  assert (Hstep : step w StatDone s =
            Some ({| ignoreFileFinder := ignoreFileFinder p; lint := lint p;
                     trace := trace p ++ [EvNewConfig (options engine); EvStat file] |},
                  {| this := engine; files := rest;
                     configHelper := options engine; results := [];
                     pending := Idle; calls := [CbErr err] |})).
  { unfold s, start, executeOnFiles, bind, next, step. cbn -[stat].
    unfold onStat. rewrite Hstat. cbn. rewrite <- app_assoc. reflexivity. }
  eexists. split; [ exact Hstep | ].
  do 5 (split; [ reflexivity | ]). split.
  - intros sched. apply run_idle. reflexivity.
  - intros sched. cbn [run]. rewrite Hstep.
    unfold default, id. rewrite run_idle by reflexivity. reflexivity.
Qed.

(** ** Every call stops *)

Lemma turn_is_step s :
  inv w s -> stopped (snd s) = false -> exists c, step w c s = Some (turn w s).
Proof.
  destruct s as [p r]. unfold turn, inv, stopped. cbn [snd].
  destruct (pending r) as [ | file | ws | exn] eqn:Hpd; intros Hinv Hne;
    try discriminate.
  - exists StatDone. unfold step. rewrite Hpd.
    destruct (onStat w file r p). reflexivity.
  - destruct Hinv as [Hw _]. destruct (loading ws) as [ | f l] eqn:Hl.
    + exists ReaderEvent. unfold step. rewrite Hpd.
      assert (Hp : paused ws = false).
      { unfold walkInv in Hw. rewrite Hl in Hw.
        destruct (ignoreFilesInParentDirs ws); simpl in Hw; tauto. }
      rewrite Hp. destruct (onReader w ws r p). reflexivity.
    + exists (IgnoreFileLoaded 0). unfold step. rewrite Hpd, Hl. simpl.
      destruct (onIgnoreFileLoaded w f 0 ws p). reflexivity.
Qed.

Lemma rank_next r (p : Process LintState) :
  pending r = Idle -> rank (fst (next r p)) <= 2 * length (files r).
Proof.
  intros Hpd. unfold next, rank.
  destruct (files r) as [ | file rest] eqn:Hf; simpl.
  - rewrite Hpd, Hf. simpl. lia.
  - lia.
Qed.

Lemma rank_dispatched out r (p : Process LintState) :
  rank (fst (dispatched out (setPending Idle r) p)) <= 2 * length (files r).
Proof.
  destruct out as [err | res]; simpl.
  - unfold rank. simpl. lia.
  - apply (rank_next (mkRun _ _ _ _ _ _) p). reflexivity.
Qed.

Lemma turn_decreases s :
  inv w s -> stopped (snd s) = false ->
  rank (snd (turn w s)) < rank (snd s)
  ∨ exists ws ws',
      pending (snd s) = PWalk ws
      ∧ pending (snd (turn w s)) = PWalk ws'
      ∧ rank (snd (turn w s)) = rank (snd s)
      ∧ walkRank w ws' < walkRank w ws.
Proof.
  destruct s as [p r]. unfold turn, inv, stopped. cbn [snd].
  destruct (pending r) as [ | file | ws | exn0] eqn:Hpd; intros Hinv Hne;
    try discriminate.
  - left. unfold step. rewrite Hpd. unfold onStat, lift.
    assert (Hr : rank r = 2 * length (files r) + 2).
    { unfold rank. rewrite Hpd. reflexivity. }
    destruct (stat w file) as [err | stats].
    + simpl. unfold rank in *. simpl. lia.
    + destruct (isDirectory stats).
      * unfold executeOnDirectory, bind.
        destruct (startWalk w file p) as [[ws early] p1].
        destruct early; simpl; unfold rank in *; simpl; lia.
      * unfold bindE. destruct (processFile w file _ p) as [[exn | res] p1].
        -- simpl. unfold rank in *. simpl. lia.
        -- pose proof (rank_dispatched (inr [res]) r p1) as Hd.
           destruct (dispatched _ _ p1) as [r' p']. simpl in *. lia.
  - destruct Hinv as [Hw _].
    assert (Hr : rank r = 2 * length (files r) + 1).
    { unfold rank. rewrite Hpd. reflexivity. }
    destruct (loading ws) as [ | f l] eqn:Hl.
    + assert (Hp : paused ws = false).
      { unfold walkInv in Hw. rewrite Hl in Hw.
        destruct (ignoreFilesInParentDirs ws); simpl in Hw; tauto. }
      unfold step. rewrite Hpd, Hp. unfold onReader.
      destruct (reader w (wdir ws) (registered ws)) as [children last] eqn:Hrd.
      destruct (children !! emitted ws) as [c | ] eqn:Hc.
      * unfold bindE, ret.
        pose proof (onChild_fields c (configHelper r) ws p) as Hfields.
        destruct (onChild w c (configHelper r) ws p) as [[exn | ws'] p1];
          simpl in Hfields.
        -- left. simpl. unfold rank in *. simpl. lia.
        -- right.
           destruct (Hfields ws' eq_refl)
             as (Hd & Hcn & Hig & Hps & Hlo & Hrg & Hem & Hfp).
           exists ws, ws'. simpl. split; [ reflexivity | ]. split; [ reflexivity | ].
           split; [ unfold rank in *; simpl; lia | ].
           unfold walkRank. rewrite Hlo, Hrg, Hd, Hem, Hl. simpl.
           rewrite union_empty_l_L, Hrd. simpl.
           apply lookup_lt_Some in Hc. lia.
      * left. unfold lift.
        destruct last as [err | ].
        -- pose proof (rank_dispatched (inl err) r p) as Hd.
           destruct (dispatched _ _ p) as [r' p']. simpl in *. lia.
        -- pose proof (rank_dispatched (inr (wresults ws)) r p) as Hd.
           destruct (dispatched _ _ p) as [r' p']. simpl in *. lia.
    + right. unfold step. rewrite Hpd, Hl. simpl.
      unfold onIgnoreFileLoaded, bind, ret.
      pose proof (readable_delete (wdir ws) (f :: l) 0 f (registered ws) eq_refl)
        as Hset.
      destruct (match ignoreFilesInParentDirs ws with
                | Some found => Nat.eqb (S (counter ws)) (length found)
                | None => false
                end); simpl.
      all: eexists ws, _; split; [ reflexivity | ]; split; [ reflexivity | ].
      all: split; [ unfold rank in *; simpl; lia | ].
      all: unfold walkRank; simpl; rewrite Hl; simpl in Hset |- *.
      all: rewrite Hset.
      all: lia.
Qed.

Lemma exec_S n s : exec w (S n) s = exec w n (turn w s).
Proof. reflexivity. Qed.

Lemma turn_inv s : inv w s -> inv w (turn w s).
Proof.
  intros Hinv. destruct (stopped (snd s)) eqn:Hst.
  - unfold turn. unfold stopped in Hst.
    destruct (pending (snd s)); try discriminate; exact Hinv.
  - destruct (turn_is_step s Hinv Hst) as [c Hc].
    eapply step_inv; eauto.
Qed.

Lemma turn_stopped s : stopped (snd s) = true -> turn w s = s.
Proof.
  unfold turn, stopped. destruct (pending (snd s)); try discriminate; reflexivity.
Qed.

Lemma comes_to_rest a :
  forall m s,
    inv w s -> rank (snd s) = a ->
    (forall ws, pending (snd s) = PWalk ws -> walkRank w ws = m) ->
    exists n, stopped (snd (exec w n s)) = true.
Proof.
  induction a as [a IHa] using lt_wf_ind.
  induction m as [m IHm] using lt_wf_ind.
  intros s Hinv Hrank Hwalk.
  destruct (stopped (snd s)) eqn:Hst; [ exists 0; exact Hst | ].
  pose proof (turn_inv s Hinv) as Hinv'.
  destruct (turn_decreases s Hinv Hst) as [Hlt | (ws0 & ws' & Hp & Hp' & Hr & Hlt)].
  - destruct (IHa (rank (snd (turn w s))) ltac:(lia)
                (match pending (snd (turn w s)) with
                 | PWalk ws1 => walkRank w ws1
                 | _ => 0
                 end) (turn w s) Hinv' eq_refl) as [n Hn].
    { intros ws1 ->. reflexivity. }
    exists (S n). exact Hn.
  - destruct (IHm (walkRank w ws') ltac:(rewrite <- (Hwalk ws0 Hp); exact Hlt)
                (turn w s) Hinv' ltac:(congruence)) as [n Hn].
    { intros ws1 Hws1. congruence. }
    exists (S n). exact Hn.
Qed.

Lemma exec_is_run n s : inv w s -> exists sched, exec w n s = run w sched s.
Proof.
  revert s. induction n as [ | n IH]; intros s Hinv.
  - exists []. reflexivity.
  - cbn [exec]. destruct (IH _ (turn_inv s Hinv)) as [sched Hs].
    destruct (stopped (snd s)) eqn:Hst.
    + exists sched. rewrite Hs, (turn_stopped s Hst). reflexivity.
    + destruct (turn_is_step s Hinv Hst) as [c Hc].
      exists (c :: sched). cbn [run]. rewrite Hc. exact Hs.
Qed.

(** A call, whatever its state, comes to a stop. *)
Lemma stops s : inv w s -> exists n, stopped (snd (exec w n s)) = true.
Proof.
  intros Hinv.
  apply (comes_to_rest _ (match pending (snd s) with
                          | PWalk ws1 => walkRank w ws1
                          | _ => 0
                          end) s Hinv eq_refl).
  intros ws1 ->. reflexivity.
Qed.

Lemma toEnd_stopped (s : Process LintState * Run) :
  stopped (snd s) = true -> toEnd w s = s.
Proof.
  destruct s as [q r]. unfold stopped, toEnd. simpl.
  destruct (pending r); try discriminate; reflexivity.
Qed.

Lemma toEnd_idle (s : Process LintState * Run) :
  pending (snd s) = Idle -> toEnd w s = s.
Proof.
  intros Hpd. apply toEnd_stopped. unfold stopped. rewrite Hpd. reflexivity.
Qed.

(** A call that has stopped is in the state that [nextToEnd] computes. *)
Lemma stop_is_nextToEnd engine targets (p : Process LintState) sched :
  stopped (snd (run w sched (start engine targets p))) = true ->
  run w sched (start engine targets p) =
  swap (nextToEnd w targets (initialRun engine targets)
          (snd (log (EvNewConfig (options engine)) p))).
Proof.
  intros Hrest.
  rewrite <- (toEnd_stopped _ Hrest).
  rewrite (toEnd_run sched _ (start_inv engine targets p)).
  rewrite toEnd_start. reflexivity.
Qed.

Lemma rest_is_nextToEnd engine targets (p : Process LintState) sched :
  pending (snd (run w sched (start engine targets p))) = Idle ->
  run w sched (start engine targets p) =
  swap (nextToEnd w targets (initialRun engine targets)
          (snd (log (EvNewConfig (options engine)) p))).
Proof.
  intros Hrest. apply stop_is_nextToEnd. unfold stopped. rewrite Hrest. reflexivity.
Qed.

(** X1: every call stops after finitely many turns of the event loop, at
    rest or with an exception that has left one of its callbacks, in the
    state that [toEnd] computes; every schedule that brings the call to a
    stop ends in that state.  A call that has come to rest has called the
    callback at least once. *)
Theorem executeOnFiles_stops engine targets (p : Process LintState) :
  exists n,
    let s := exec w n (start engine targets p) in
    stopped (snd s) = true
    ∧ s = toEnd w (start engine targets p)
    ∧ (pending (snd s) = Idle -> calls (snd s) <> [])
    ∧ forall sched,
        stopped (snd (run w sched (start engine targets p))) = true ->
        run w sched (start engine targets p) = s.
Proof.
  pose proof (start_inv engine targets p) as Hinv.
  destruct (stops _ Hinv) as [n Hn].
  exists n. intros s.
  assert (Hs : s = toEnd w (start engine targets p)).
  { destruct (exec_is_run n _ Hinv) as [sched Hsched].
    unfold s. rewrite Hsched, <- (toEnd_run sched _ Hinv).
    symmetry. apply toEnd_stopped. rewrite <- Hsched. exact Hn. }
  split; [ exact Hn | ]. split; [ exact Hs | ]. split.
  - rewrite Hs, toEnd_start. unfold bind. cbn [log].
    match goal with
    | |- context [nextToEnd w targets ?r0 ?p1] =>
        destruct (nextToEnd w targets r0 p1) as [r' p'] eqn:Hnx;
        destruct (nextToEnd_calls targets r0 p1 r' p' Hnx) as (cs & Hc & Hne & _)
    end.
    simpl in *. rewrite Hc. exact Hne.
  - intros sched Hrest. rewrite Hs, <- (toEnd_run sched _ Hinv).
    symmetry. apply toEnd_stopped. exact Hrest.
Qed.

(** ** Further properties of a call *)




Lemma run_app sched1 sched2 (s : Process LintState * Run) :
  run w (sched1 ++ sched2) s = run w sched2 (run w sched1 s).
Proof.
  revert s. induction sched1 as [ | c sched1 IH]; intros s; simpl; [ reflexivity | ].
  apply IH.
Qed.

(** Every state that a call can reach is on the way to the state in which
    the call stops: its trace and its callbacks are the beginning of those
    of that state. *)
Lemma reaches_stop engine targets (p : Process LintState) sched :
  let s := run w sched (start engine targets p) in
  let e := swap (nextToEnd w targets (initialRun engine targets)
                   (snd (log (EvNewConfig (options engine)) p))) in
  exists sched' evs cs,
    run w (sched ++ sched') (start engine targets p) = e
    ∧ stopped (snd e) = true
    ∧ trace (fst e) = trace (fst s) ++ evs
    ∧ calls (snd e) = calls (snd s) ++ cs.
Proof.
  intros s e.
  pose proof (run_inv sched _ (start_inv engine targets p)) as Hinv. fold s in Hinv.
  destruct (stops s Hinv) as [n Hn].
  destruct (exec_is_run n s Hinv) as [sched' Hs']. rewrite Hs' in Hn.
  unfold s in Hn. rewrite <- run_app in Hn.
  pose proof (stop_is_nextToEnd engine targets p (sched ++ sched') Hn) as Hend.
  fold e in Hend.
  destruct (start_frame engine targets p) as [_ Hok0].
  destruct (run_frame sched _ Hok0) as [_ Hok]. fold s in Hok.
  destruct (run_frame sched' s Hok) as [(evs & cs & Htr & _ & _ & Hc & _) _].
  unfold s in Htr at 1, Hc at 1. rewrite <- run_app, Hend in Htr, Hc.
  exists sched', evs, cs. rewrite <- Hend at 2. auto.
Qed.

(** *** One callback when no lookup fails *)

Lemma findIgnoreFiles_found dir (p : Process LintState) :
  (forall name d, exists found, scanUp w name d = inr found) ->
  exists found, fst (findIgnoreFiles w dir p) = inr found.
Proof.
  intros Hscan. unfold findIgnoreFiles, findAll.
  destruct (ignoreFileFinder p) as [ff | ]; simpl.
  - destruct (cache ff !! dir) as [found | ]; simpl; [ eauto | ].
    destruct (Hscan (fileName ff) dir) as [found ->]. simpl. eauto.
  - rewrite lookup_empty.
    destruct (Hscan ESLINT_IGNORE_FILENAME dir) as [found ->]. simpl. eauto.
Qed.

Lemma dispatchTarget_not_early file helper (p : Process LintState) :
  (forall name d, exists found, scanUp w name d = inr found) ->
  fst (fst (dispatchTarget w file helper p)) = None.
Proof.
  intros Hscan. unfold dispatchTarget.
  destruct (stat w file) as [err | stats]; [ reflexivity | ].
  destruct (isDirectory stats).
  - unfold bind, startWalk, bind.
    destruct (log (EvNewIgnore file) p) as [[] p0].
    destruct (findIgnoreFiles_found (path_resolve (cwd w) [file; ".."]) p0 Hscan)
      as [found Hfound].
    destruct (findIgnoreFiles w _ p0) as [out p1]. simpl in Hfound. subst out.
    destruct (Nat.eqb (length found) 0); unfold bind, ret; simpl.
    + match goal with
      | |- context [finishWalk w helper ?ws ?q] =>
          destruct (finishWalk w helper ws q)
      end.
      reflexivity.
    + destruct (logAll _ _) as [[] p2]. simpl.
      match goal with
      | |- context [finishWalk w helper ?ws ?q] =>
          destruct (finishWalk w helper ws q)
      end.
      reflexivity.
  - unfold bind, ret. destruct (processFile w file helper p). reflexivity.
Qed.

Lemma nextToEnd_one_call targets r (p : Process LintState) :
  (forall name d, exists found, scanUp w name d = inr found) ->
  pending r = Idle ->
  match pending (fst (nextToEnd w targets r p)) with
  | Idle => exists c, calls (fst (nextToEnd w targets r p)) = calls r ++ [c]
  | Thrown _ => calls (fst (nextToEnd w targets r p)) = calls r
  | _ => False
  end.
Proof.
  intros Hscan. revert r p.
  induction targets as [ | file rest IH]; intros r p Hpd; simpl.
  - rewrite Hpd. eexists. reflexivity.
  - unfold bind. cbn [log].
    match goal with
    | |- context [dispatchTarget w file ?h ?q] =>
        pose proof (dispatchTarget_not_early file h q Hscan) as Hearly;
        destruct (dispatchTarget w file h q) as [[early out] p2]
    end.
    simpl in Hearly. subst early. unfold conclude. cbn [fst snd earlyCalls].
    destruct out as [exn | [err | res]].
    + simpl. rewrite app_nil_r. reflexivity.
    + simpl. rewrite app_nil_r. eexists. reflexivity.
    + simpl. rewrite app_nil_r. apply (IH (mkRun _ _ _ _ Idle _) p2). reflexivity.
Qed.

(** X2: when no lookup of ignore files can fail, the callback is never
    called twice, whatever the targets and the order in which the event loop
    ran: in every state that the call can reach it has been called at most
    once, exactly once when the call has come to rest, and not at all when an
    exception has ended the call. *)
Theorem callback_called_once_without_lookup_failure
    engine targets (p : Process LintState) sched :
  (forall name d, exists found, scanUp w name d = inr found) ->
  let s := run w sched (start engine targets p) in
  length (calls (snd s)) <= 1
  ∧ (pending (snd s) = Idle -> exists c, calls (snd s) = [c])
  ∧ (forall exn, pending (snd s) = Thrown exn -> calls (snd s) = []).
Proof.
  intros Hscan s.
  pose proof (nextToEnd_one_call targets (initialRun engine targets)
                (snd (log (EvNewConfig (options engine)) p)) Hscan eq_refl) as Hone.
  split; [ | split ].
  - destruct (reaches_stop engine targets p sched)
      as (sched' & evs & cs & _ & _ & _ & Hc).
    fold s in Hc. unfold swap in Hc. cbn [fst snd] in Hc.
    assert (Hle : length (calls (fst (nextToEnd w targets (initialRun engine targets)
                     (snd (log (EvNewConfig (options engine)) p))))) <= 1).
    { destruct (pending (fst (nextToEnd w targets _ _))); try contradiction.
      - destruct Hone as [c ->]. simpl. lia.
      - rewrite Hone. simpl. lia. }
    rewrite Hc, length_app in Hle. lia.
  - intros Hrest. unfold s in *.
    rewrite (rest_is_nextToEnd engine targets p sched Hrest) in Hrest |- *.
    unfold swap in *. cbn [fst snd] in *. rewrite Hrest in Hone. exact Hone.
  - intros exn Hthrown. unfold s in *.
    assert (Hst : stopped (snd (run w sched (start engine targets p))) = true).
    { unfold stopped. rewrite Hthrown. reflexivity. }
    rewrite (stop_is_nextToEnd engine targets p sched Hst) in Hthrown |- *.
    unfold swap in *. cbn [fst snd] in *. rewrite Hthrown in Hone. exact Hone.
Qed.

(** *** The callback with results is the last one *)

Lemma next_calls r (p : Process LintState) :
  calls (fst (next r p)) = calls r
  ∨ calls (fst (next r p)) = calls r ++ [CbOk (results r)].
Proof. unfold next. destruct (files r); simpl; auto. Qed.

Lemma dispatched_calls out r (p : Process LintState) :
  calls (fst (dispatched out r p)) = calls r
  ∨ exists cb, calls (fst (dispatched out r p)) = calls r ++ [cb].
Proof.
  destruct out as [err | res]; simpl.
  - right. eexists. reflexivity.
  - match goal with
    | |- context [next ?r2 p] => destruct (next_calls r2 p) as [H | H]
    end; rewrite H; simpl; eauto.
Qed.

Lemma step_calls c s s' :
  step w c s = Some s' ->
  calls (snd s') = calls (snd s)
  ∨ exists cb, calls (snd s') = calls (snd s) ++ [cb].
Proof.
  destruct s as [p r]. unfold step.
  destruct c, (pending r) as [ | file | ws | exn0]; try discriminate.
  - unfold onStat, lift. destruct (stat w file) as [err | stats].
    + simpl. intros [= <-]. simpl. eauto.
    + destruct (isDirectory stats).
      * unfold executeOnDirectory, bind.
        destruct (startWalk w file p) as [[ws early] p1].
        destruct early; simpl; intros [= <-]; simpl; eauto.
      * unfold bindE. destruct (processFile w file _ p) as [[exn | res] p1].
        -- intros [= <-]. simpl. auto.
        -- pose proof (dispatched_calls (inr [res]) (setPending Idle r) p1) as H.
           destruct (dispatched _ _ p1) as [r' p']. intros [= <-]. exact H.
  - destruct (loading ws !! i); [ | discriminate ].
    destruct (onIgnoreFileLoaded w _ i ws p). intros [= <-]. simpl. auto.
  - destruct (paused ws); [ discriminate | ]. unfold onReader.
    destruct (reader w (wdir ws) (registered ws)) as [children last].
    destruct (children !! emitted ws).
    + unfold bindE, ret. destruct (onChild w _ _ ws p) as [[exn | ws'] p'];
        intros [= <-]; simpl; auto.
    + unfold lift. destruct last as [err | ].
      * pose proof (dispatched_calls (inl err) (setPending Idle r) p) as H.
        destruct (dispatched _ _ p) as [r' p']. intros [= <-]. exact H.
      * pose proof (dispatched_calls (inr (wresults ws)) (setPending Idle r) p) as H.
        destruct (dispatched _ _ p) as [r' p']. intros [= <-]. exact H.
Qed.

Lemma result_callback_last_run sched s :
  okInv s ->
  (forall i rs, calls (snd s) !! i = Some (CbOk rs) ->
                S i = length (calls (snd s)) ∧ rs = results (snd s)) ->
  forall i rs, calls (snd (run w sched s)) !! i = Some (CbOk rs) ->
               S i = length (calls (snd (run w sched s)))
               ∧ rs = results (snd (run w sched s)).
Proof.
  revert s. induction sched as [ | c sched IH]; intros s Hok Hlast; cbn [run].
  - exact Hlast.
  - destruct (step w c s) as [s' | ] eqn:Hstep; simpl; [ | apply IH; assumption ].
    assert (Hns : ~ succeeded (snd s)).
    { intros Hs. destruct s as [p r]. destruct (Hok Hs) as [Hpd _].
      rewrite (step_idle c p r Hpd) in Hstep. discriminate. }
    pose proof (step_frame c s s' Hok Hstep) as Hfr.
    apply IH; [ eapply frame_okInv; eauto | ].
    destruct Hfr as (evs & cs & _ & _ & _ & Hc & _ & _ & Hcs).
    intros i rs Hi.
    destruct (step_calls c s s' Hstep) as [Hsame | [cb Happ]].
    + exfalso. apply Hns. exists rs. rewrite Hsame in Hi.
      apply list_elem_of_In. eapply list_elem_of_lookup_2. exact Hi.
    + rewrite Happ in Hc. apply app_inv_head in Hc. subst cs.
      rewrite Happ in Hi. rewrite Happ, length_app. simpl.
      apply lookup_app_Some in Hi. destruct Hi as [Hin | [Hge Hin]].
      * exfalso. apply Hns. exists rs.
        apply list_elem_of_In. eapply list_elem_of_lookup_2. exact Hin.
      * destruct (i - length (calls (snd s))) as [ | k] eqn:Hk;
          simpl in Hin; [ | discriminate ].
        injection Hin as ->.
        split; [ lia | ]. apply (Hcs rs). left. reflexivity.
Qed.

(** X3: in every state that a call can reach, a [callback(null, results)]
    in the log of callbacks is its last entry: the call is then at rest with
    [files] empty, the list passed is the accumulated [results], and every
    invocation before it was [callback(err)]. *)
Theorem result_callback_is_last engine targets (p : Process LintState) sched i rs :
  let s := run w sched (start engine targets p) in
  calls (snd s) !! i = Some (CbOk rs) ->
  S i = length (calls (snd s))
  ∧ pending (snd s) = Idle
  ∧ files (snd s) = []
  ∧ rs = results (snd s)
  ∧ forall j cb, j < i -> calls (snd s) !! j = Some cb -> exists err, cb = CbErr err.
Proof.
  intros s Hi.
  destruct (start_frame engine targets p) as [_ Hok0].
  destruct (run_frame sched _ Hok0) as [_ Hok]. fold s in Hok.
  assert (Hlast0 : forall i rs,
            calls (snd (start engine targets p)) !! i = Some (CbOk rs) ->
            S i = length (calls (snd (start engine targets p)))
            ∧ rs = results (snd (start engine targets p))).
  { unfold start, executeOnFiles, bind, next. cbn [log].
    destruct targets as [ | file rest]; simpl.
    - intros [ | k] rs0; simpl; [ intros [= <-]; auto | discriminate ].
    - intros k rs0. rewrite lookup_nil. discriminate. }
  pose proof (result_callback_last_run sched _ Hok0 Hlast0) as Hlast.
  fold s in Hlast.
  destruct (Hlast i rs Hi) as [Hlen Hrs].
  assert (Hs : succeeded (snd s)).
  { exists rs. apply list_elem_of_In. eapply list_elem_of_lookup_2. exact Hi. }
  destruct (Hok Hs) as [Hpd Hfiles].
  repeat split; auto.
  intros j cb Hj Hcb. destruct cb as [err | rs']; [ eauto | ].
  destruct (Hlast j rs' Hcb) as [Hlen' _]. lia.
Qed.

(** *** Targets after a failure *)

Lemma nextToEnd_after_error l1 l2 err :
  forall r r' (p : Process LintState),
    this r = this r' -> configHelper r = configHelper r' ->
    results r = results r' -> calls r = calls r' ->
    last (calls (fst (nextToEnd w l1 r p))) = Some (CbErr err) ->
    snd (nextToEnd w (l1 ++ l2) r' p) = snd (nextToEnd w l1 r p)
    ∧ calls (fst (nextToEnd w (l1 ++ l2) r' p)) = calls (fst (nextToEnd w l1 r p))
    ∧ results (fst (nextToEnd w (l1 ++ l2) r' p)) = results (fst (nextToEnd w l1 r p))
    ∧ files (fst (nextToEnd w (l1 ++ l2) r' p)) = files (fst (nextToEnd w l1 r p)) ++ l2.
Proof.
  induction l1 as [ | file rest IH]; intros r r' p Ht Hh Hr Hc.
  - simpl. rewrite last_snoc. discriminate.
  - cbn [app nextToEnd]. unfold bind. cbn [log]. rewrite <- Hh.
    destruct (dispatchTarget w file (configHelper r) _) as [[early out] p2].
    unfold conclude. cbn [fst snd]. destruct out as [exn | [e | res]].
    + simpl. intros _. rewrite Hc. auto.
    + simpl. intros _. rewrite Hc, Hr. auto.
    + apply IH; simpl; congruence.
Qed.

(** X4: when a call on the targets [l1] has come to rest with an error as
    its last callback, the call on [l1] followed by any further targets [l2]
    comes to rest in the same process state, with the same callbacks and the
    same accumulated results: nothing is done for [l2], which is left in
    [files]. *)
Theorem targets_after_failure_are_ignored
    engine l1 l2 (p : Process LintState) sched1 sched2 err :
  let s1 := run w sched1 (start engine l1 p) in
  let s := run w sched2 (start engine (l1 ++ l2) p) in
  pending (snd s1) = Idle ->
  last (calls (snd s1)) = Some (CbErr err) ->
  pending (snd s) = Idle ->
  fst s = fst s1
  ∧ calls (snd s) = calls (snd s1)
  ∧ results (snd s) = results (snd s1)
  ∧ files (snd s) = files (snd s1) ++ l2.
Proof.
  intros s1 s Hrest1 Hlast Hrest.
  unfold s1 in Hlast |- *. unfold s.
  rewrite (rest_is_nextToEnd engine l1 p sched1 Hrest1) in Hlast |- *.
  rewrite (rest_is_nextToEnd engine (l1 ++ l2) p sched2 Hrest).
  unfold swap in *. cbn [fst snd] in *.
  apply (nextToEnd_after_error l1 l2 err); auto.
Qed.

(** *** What a call takes from the process *)

Lemma agree_refl (p : Process LintState) : agree w p p.
Proof. split; reflexivity. Qed.

Lemma agree_sym (p q : Process LintState) : agree w p q -> agree w q p.
Proof. intros [Hf Hl]. split; auto. Qed.

Lemma agree_trans (p q r : Process LintState) :
  agree w p q -> agree w q r -> agree w p r.
Proof. intros [Hf Hl] [Hf' Hl']. split; congruence. Qed.

Lemma respects_ret {A} (a : A) : respects w (ret (LintState := LintState) a).
Proof. intros p q Hag. split; [ reflexivity | exact Hag ]. Qed.

Lemma respects_bind {A B} (m : M LintState A) (k : A -> M LintState B) :
  respects w m -> (forall a, respects w (k a)) -> respects w (bind m k).
Proof.
  intros Hm Hk p q Hag. unfold bind.
  destruct (Hm p q Hag) as [Heq Hag'].
  destruct (m p) as [a p'], (m q) as [b q']. simpl in *. subst b.
  apply Hk. exact Hag'.
Qed.

Lemma respects_log e : respects w (log (LintState := LintState) e).
Proof. intros p q [Hf Hl]. split; [ reflexivity | split; assumption ]. Qed.

Lemma respects_logAll es : respects w (logAll (LintState := LintState) es).
Proof.
  intros p q [Hf Hl]. rewrite !logAll_trace.
  split; [ reflexivity | split; assumption ].
Qed.

Lemma respects_bindE {A B} (m : M LintState (Error + A))
    (k : A -> M LintState (Error + B)) :
  respects w m -> (forall a, respects w (k a)) -> respects w (bindE m k).
Proof.
  intros Hm Hk p q Hag. unfold bindE.
  destruct (Hm p q Hag) as [Heq Hag'].
  destruct (m p) as [a p'], (m q) as [b q']. simpl in *. subst b.
  destruct a as [exn | a]; [ split; [ reflexivity | exact Hag' ] | ].
  apply Hk. exact Hag'.
Qed.

Lemma respects_processFile filename helper :
  respects w (processFile w filename helper).
Proof.
  intros p q [Hf Hl].
  unfold processFile, bind, bindE, ret, existsSync, configHelper_getConfig,
    readFileSync, eslintVerify, eslintReset, log; simpl.
  rewrite Hl.
  destruct (fs_existsSync w _); simpl;
    [ | split; [ reflexivity | split; [ exact Hf | reflexivity ] ] ].
  destruct (getConfig w _ _); simpl;
    [ split; [ reflexivity | split; [ exact Hf | reflexivity ] ] | ].
  destruct (fs_readFileSync w _); simpl;
    [ split; [ reflexivity | split; [ exact Hf | reflexivity ] ] | ].
  destruct (eslint_verify w _ _ _ _) as [[exn | ms] l]; simpl;
    (split; [ reflexivity | split; [ exact Hf | reflexivity ] ]).
Qed.

Lemma respects_findIgnoreFiles dir : respects w (findIgnoreFiles w dir).
Proof.
  intros p q [Hf Hl]. unfold findIgnoreFiles. rewrite Hf.
  destruct (ignoreFileFinder q); destruct (findAll w _ dir); simpl;
    (split; [ reflexivity | split; simpl; auto ]).
Qed.

Lemma respects_startWalk dir : respects w (startWalk w dir).
Proof.
  unfold startWalk.
  apply respects_bind; [ apply respects_log | intros _ ].
  apply respects_bind; [ apply respects_findIgnoreFiles | intros [err | found] ].
  - apply respects_ret.
  - destruct (Nat.eqb (length found) 0); [ apply respects_ret | ].
    apply respects_bind; [ apply respects_log | intros _ ].
    apply respects_bind; [ apply respects_logAll | intros _ ].
    apply respects_ret.
Qed.

Lemma respects_collect cs helper acc : respects w (collect w cs helper acc).
Proof.
  revert acc. induction cs as [ | c cs IH]; intros acc; simpl.
  - apply respects_ret.
  - destruct (String.eqb (extname c) ".js"); [ | apply IH ].
    apply respects_bindE; [ apply respects_processFile | intros res; apply IH ].
Qed.

Lemma respects_finishWalk helper ws : respects w (finishWalk w helper ws).
Proof.
  unfold finishWalk.
  apply respects_bind.
  - destruct (loading ws); [ apply respects_ret | apply respects_log ].
  - intros _. destruct (reader w (wdir ws) _) as [children last].
    apply respects_bind; [ apply respects_collect | intros rs ].
    apply respects_ret.
Qed.

Lemma respects_dispatchTarget file helper :
  respects w (dispatchTarget w file helper).
Proof.
  unfold dispatchTarget. destruct (stat w file) as [err | stats].
  - apply respects_ret.
  - destruct (isDirectory stats).
    + apply respects_bind; [ apply respects_startWalk | intros started ].
      apply respects_bind; [ apply respects_finishWalk | intros out ].
      apply respects_ret.
    + apply respects_bind; [ apply respects_processFile | intros res ].
      apply respects_ret.
Qed.

Lemma respects_nextToEnd targets r : respects w (nextToEnd w targets r).
Proof.
  revert r. induction targets as [ | file rest IH]; intros r; simpl.
  - apply respects_ret.
  - apply respects_bind; [ apply respects_log | intros _ ].
    apply respects_bind; [ apply respects_dispatchTarget | intros [early out] ].
    unfold conclude. cbn [fst snd].
    destruct out as [exn | [err | res]];
      [ apply respects_ret | apply respects_ret | apply IH ].
Qed.

(** X5: the outcome of a call depends on the state of the process only
    through the locator of ignore files and through the state in which
    [eslint.reset()] leaves the linter: two calls on the same targets that
    agree on these come to rest with the same callbacks, results and
    remaining files, and leave the process agreeing again.  In particular
    what the trace holds and, when [reset] clears the linter, what earlier
    files left in it have no influence. *)
Theorem outcome_depends_on_locator_and_reset
    engine targets (p q : Process LintState) sched1 sched2 :
  let s1 := run w sched1 (start engine targets p) in
  let s2 := run w sched2 (start engine targets q) in
  ignoreFileFinder p = ignoreFileFinder q ->
  eslint_reset w (lint p) = eslint_reset w (lint q) ->
  pending (snd s1) = Idle ->
  pending (snd s2) = Idle ->
  snd s1 = snd s2
  ∧ ignoreFileFinder (fst s1) = ignoreFileFinder (fst s2)
  ∧ eslint_reset w (lint (fst s1)) = eslint_reset w (lint (fst s2)).
Proof.
  intros s1 s2 Hf Hl Hrest1 Hrest2. unfold s1, s2.
  rewrite (rest_is_nextToEnd engine targets p sched1 Hrest1).
  rewrite (rest_is_nextToEnd engine targets q sched2 Hrest2).
  unfold swap. cbn [fst snd].
  assert (Hag : agree w (snd (log (EvNewConfig (options engine)) p))
                        (snd (log (EvNewConfig (options engine)) q))).
  { split; simpl; assumption. }
  destruct (respects_nextToEnd targets (initialRun engine targets) _ _ Hag)
    as [Heq [Hf' Hl']].
  auto.
Qed.

(** *** A list of targets split over two calls *)

Lemma Dispatched_app helper l1 l2 (p p1 p2 : Process LintState) rss1 rss2 :
  Dispatched w helper l1 p rss1 p1 ->
  Dispatched w helper l2 p1 rss2 p2 ->
  Dispatched w helper (l1 ++ l2) p (rss1 ++ rss2) p2.
Proof.
  induction 1 as [ q | file rest q q1 q2 res rss Hd Hpaths Hrest IH ]; intros H2.
  - exact H2.
  - simpl. eapply Dispatched_cons; eauto.
Qed.

Lemma Dispatched_agree helper l (p p' q : Process LintState) rss :
  Dispatched w helper l p rss p' ->
  agree w p q ->
  exists q', Dispatched w helper l q rss q' ∧ agree w p' q'.
Proof.
  intros Hd. revert q.
  induction Hd as [ p0 | file rest p0 p1 p2 res rss Hd Hpaths Hrest IH ];
    intros q Hag.
  - exists q. split; [ constructor | exact Hag ].
  - assert (Hag1 : agree w (snd (log (EvStat file) p0)) (snd (log (EvStat file) q))).
    { destruct Hag as [Hf Hl]. split; simpl; assumption. }
    destruct (respects_dispatchTarget file helper _ _ Hag1) as [Heq Hag2].
    rewrite Hd in Heq, Hag2. cbn [fst snd] in Heq, Hag2.
    destruct (dispatchTarget w file helper (snd (log (EvStat file) q)))
      as [o q1] eqn:Hdq.
    cbn [fst snd] in Heq, Hag2. subst o.
    destruct (IH q1 Hag2) as (q2 & Hdq2 & Hag3).
    exists q2. split; [ | exact Hag3 ].
    eapply Dispatched_cons; [ exact Hdq | | exact Hdq2 ].
    eapply dispatchTarget_paths. exact Hdq.
Qed.

Lemma Dispatched_nextToEnd helper l (p p' : Process LintState) rss :
  Dispatched w helper l p rss p' ->
  forall r, configHelper r = helper ->
    calls (fst (nextToEnd w l r p)) = calls r ++ [CbOk (results r ++ concat rss)]
    ∧ snd (nextToEnd w l r p) = p'.
Proof.
  induction 1 as [ p0 | file rest p0 p1 p2 res rss Hd Hpaths Hrest IH ];
    intros r Hh.
  - simpl. rewrite app_nil_r. auto.
  - cbn [nextToEnd]. unfold bind. cbn [log]. rewrite Hh.
    cbn [log snd] in Hd. rewrite Hd. unfold conclude. cbn [fst snd earlyCalls].
    match goal with
    | |- context [nextToEnd w rest ?r2 p1] =>
        destruct (IH r2 eq_refl) as [Hc Hp]
    end.
    rewrite Hc, Hp. simpl. rewrite !app_nil_r, <- app_assoc. auto.
Qed.

Lemma rest_Dispatched engine targets (p : Process LintState) sched rs :
  calls (snd (run w sched (start engine targets p))) = [CbOk rs] ->
  exists rss,
    Dispatched w (options engine) targets
      (snd (log (EvNewConfig (options engine)) p)) rss
      (fst (run w sched (start engine targets p)))
    ∧ rs = concat rss.
Proof.
  intros Hcalls.
  destruct (start_frame engine targets p) as [_ Hok0].
  destruct (run_frame sched _ Hok0) as [_ Hok].
  assert (Hrest : pending (snd (run w sched (start engine targets p))) = Idle).
  { apply Hok. exists rs. rewrite Hcalls. left. reflexivity. }
  rewrite (rest_is_nextToEnd engine targets p sched Hrest) in Hcalls |- *.
  destruct (nextToEnd w targets (initialRun engine targets) _) as [r' p'] eqn:Hn.
  destruct (nextToEnd_calls targets _ _ r' p' Hn) as (cs & Hc & _ & Hdisp).
  unfold swap in *. cbn [fst snd] in *. simpl in Hc.
  rewrite Hcalls in Hc. subst cs.
  destruct (Hdisp rs eq_refl) as (rss & Hd & Hrs & _).
  exists rss. split; [ exact Hd | exact Hrs ].
Qed.

(** X6: splitting a list of targets over two calls of the same engine in
    one process changes nothing: when the call on [l1] succeeds with [rs1]
    and the call on [l2] that follows it succeeds with [rs2], a single call on
    [l1 ++ l2] that comes to rest has called back once, with [rs1 ++ rs2], and
    leaves the locator and the linter as the second call does. *)
Theorem successive_calls_compose
    engine l1 l2 (p : Process LintState) sched1 sched2 sched rs1 rs2 :
  let s1 := run w sched1 (start engine l1 p) in
  let s2 := run w sched2 (start engine l2 (fst s1)) in
  let s := run w sched (start engine (l1 ++ l2) p) in
  calls (snd s1) = [CbOk rs1] ->
  calls (snd s2) = [CbOk rs2] ->
  pending (snd s) = Idle ->
  calls (snd s) = [CbOk (rs1 ++ rs2)]
  ∧ ignoreFileFinder (fst s) = ignoreFileFinder (fst s2)
  ∧ eslint_reset w (lint (fst s)) = eslint_reset w (lint (fst s2)).
Proof.
  intros s1 s2 s H1 H2 Hrest.
  destruct (rest_Dispatched engine l1 p sched1 rs1 H1) as (rss1 & Hd1 & ->).
  destruct (rest_Dispatched engine l2 (fst s1) sched2 rs2 H2) as (rss2 & Hd2 & ->).
  fold s1 in Hd1, Hd2. fold s2 in Hd2.
  assert (Hag : agree w (snd (log (EvNewConfig (options engine)) (fst s1))) (fst s1)).
  { split; reflexivity. }
  destruct (Dispatched_agree _ _ _ _ _ _ Hd2 Hag) as (q' & Hd2' & Hag').
  pose proof (Dispatched_app _ _ _ _ _ _ _ _ Hd1 Hd2') as Hd.
  destruct (Dispatched_nextToEnd _ _ _ _ _ Hd (initialRun engine (l1 ++ l2)) eq_refl)
    as [Hc Hp].
  unfold s. rewrite (rest_is_nextToEnd engine (l1 ++ l2) p sched Hrest).
  unfold swap. cbn [fst snd]. rewrite Hc, Hp. simpl.
  rewrite concat_app. destruct Hag' as [Hf Hl]. auto.
Qed.

(** *** Pauses and resumes *)

Lemma pausesOf_app tr1 tr2 : pausesOf (tr1 ++ tr2) = pausesOf tr1 + pausesOf tr2.
Proof.
  induction tr1 as [ | e tr1 IH]; simpl; [ reflexivity | ].
  destruct e; simpl; rewrite IH; reflexivity.
Qed.

Lemma resumesOf_app tr1 tr2 : resumesOf (tr1 ++ tr2) = resumesOf tr1 + resumesOf tr2.
Proof.
  induction tr1 as [ | e tr1 IH]; simpl; [ reflexivity | ].
  destruct e; simpl; rewrite IH; reflexivity.
Qed.

Lemma calm_processFile filename helper : calm (processFile w filename helper).
Proof.
  intros p. exists (processFileEvents w filename helper).
  split; [ apply processFile_trace | ].
  unfold processFileEvents.
  destruct (fs_existsSync w _); [ | auto ].
  destruct (getConfig w _ _); [ auto | ].
  destruct (fs_readFileSync w _); auto.
Qed.

Lemma calm_findIgnoreFiles dir : calm (findIgnoreFiles w dir).
Proof.
  intros p. unfold findIgnoreFiles.
  destruct (ignoreFileFinder p) as [ff | ];
    destruct (findAll w _ dir) as [out ff']; simpl;
    rewrite <- ?app_assoc; eexists; repeat split.
Qed.

Lemma calm_next r : calm (next (LintState := LintState) r).
Proof.
  intros p. unfold next. destruct (files r); simpl.
  - exists []. rewrite app_nil_r. auto.
  - eexists. repeat split.
Qed.

Lemma calm_dispatched out r : calm (dispatched (LintState := LintState) out r).
Proof.
  destruct out as [err | res]; simpl.
  - intros p. exists []. simpl. rewrite app_nil_r. auto.
  - apply calm_next.
Qed.

Lemma waiting_dispatched out r (p : Process LintState) :
  waiting (fst (dispatched out (setPending Idle r) p)) = 0.
Proof.
  unfold waiting.
  destruct (dispatched_pending out (setPending Idle r) p) as [-> | [file ->]];
    reflexivity.
Qed.

Lemma startWalk_pauses dir (p : Process LintState) :
  exists evs,
    trace (snd (startWalk w dir p)) = trace p ++ evs
    ∧ pausesOf evs = (if paused (fst (fst (startWalk w dir p))) then 1 else 0)
    ∧ resumesOf evs = 0.
Proof.
  unfold startWalk, bind, ret. cbn [log].
  match goal with
  | |- context [findIgnoreFiles w ?d ?q] =>
      destruct (calm_findIgnoreFiles d q) as (evs & Htr & Hp & Hr);
      destruct (findIgnoreFiles w d q) as [[err | found] p1]
  end; simpl in Htr.
  - simpl. rewrite Htr, <- app_assoc. eexists. split; [ reflexivity | ].
    simpl. auto.
  - destruct (Nat.eqb (length found) 0); simpl.
    + rewrite Htr, <- app_assoc. eexists. split; [ reflexivity | ].
      simpl. auto.
    + rewrite logAll_trace. simpl. rewrite Htr, <- !app_assoc.
      eexists. split; [ reflexivity | ].
      simpl. rewrite pausesOf_app, resumesOf_app, Hp, Hr. simpl.
      split; [ f_equal | ]; clear; induction found; simpl; auto.
Qed.

Lemma step_pauses c s s' :
  inv w s -> step w c s = Some s' ->
  exists evs,
    trace (fst s') = trace (fst s) ++ evs
    ∧ pausesOf evs + waiting (snd s) = resumesOf evs + waiting (snd s').
Proof.
  destruct s as [p r]. unfold step, inv, waiting at 1. cbn [fst snd].
  destruct c, (pending r) as [ | file | ws | exn0] eqn:Hpd; try discriminate.
  - (* the stat of a target completes *)
    intros _. unfold onStat, lift. destruct (stat w file) as [err | stats].
    + simpl. intros [= <-]. exists []. simpl. rewrite app_nil_r. auto.
    + destruct (isDirectory stats).
      * unfold executeOnDirectory, bind.
        destruct (startWalk_pauses file p) as (evs & Htr & Hp & Hr).
        destruct (startWalk w file p) as [[ws early] p1]. simpl in Htr, Hp.
        destruct early; simpl; intros [= <-]; exists evs; simpl;
          (split; [ exact Htr | ]); unfold waiting; simpl; lia.
      * unfold bindE.
        destruct (calm_processFile file (configHelper (setPending Idle r)) p)
          as (evs1 & Htr1 & Hp1 & Hr1).
        destruct (processFile w file _ p) as [[exn | res] p1]. simpl in Htr1.
        -- intros [= <-]. exists evs1. simpl in *.
           split; [ exact Htr1 | ]. unfold waiting. simpl. lia.
        -- simpl in Htr1.
           destruct (calm_dispatched (inr [res]) (setPending Idle r) p1)
             as (evs2 & Htr2 & Hp2 & Hr2).
           pose proof (waiting_dispatched (inr [res]) r p1) as Hw.
           destruct (dispatched _ _ p1) as [r' p']. simpl in Htr2, Hw.
           intros [= <-]. exists (evs1 ++ evs2). simpl.
           rewrite Htr2, Htr1, <- app_assoc, pausesOf_app, resumesOf_app.
           split; [ reflexivity | lia ].
  - (* the load of an ignore file has completed *)
    intros [Hw _].
    destruct (loading ws !! i) as [file | ] eqn:Hi; [ | discriminate ].
    assert (Hpa : paused ws = true).
    { unfold walkInv in Hw.
      destruct (ignoreFilesInParentDirs ws).
      - destruct Hw as (_ & _ & ->).
        destruct (loading ws); [ rewrite lookup_nil in Hi; discriminate | reflexivity ].
      - destruct Hw as (Hl & _). rewrite Hl, lookup_nil in Hi. discriminate. }
    unfold onIgnoreFileLoaded, bind, ret.
    destruct (match ignoreFilesInParentDirs ws with
              | Some found => Nat.eqb (S (counter ws)) (length found)
              | None => false
              end); simpl; intros [= <-]; simpl.
    + eexists. split; [ reflexivity | ]. unfold waiting. simpl. rewrite Hpa. reflexivity.
    + exists []. rewrite app_nil_r. split; [ reflexivity | ].
      unfold waiting. simpl. reflexivity.
  - (* the reader delivers an event *)
    intros _.
    destruct (paused ws) eqn:Hpa; [ discriminate | ].
    unfold onReader.
    destruct (reader w (wdir ws) (registered ws)) as [children last].
    destruct (children !! emitted ws) as [c | ].
    + unfold bindE, ret.
      pose proof (onChild_fields c (configHelper r) ws p) as Hfields.
      assert (Hcalm : exists evs,
                 trace (snd (onChild w c (configHelper r) ws p)) = trace p ++ evs
                 ∧ pausesOf evs = 0 ∧ resumesOf evs = 0).
      { unfold onChild, bindE, ret.
        destruct (String.eqb (extname c) ".js"); simpl.
        - destruct (calm_processFile c (configHelper r) p) as (evs & Htr & Hp & Hr).
          destruct (processFile w c (configHelper r) p) as [[exn | res] p1];
            simpl in *; eauto.
        - exists []. rewrite app_nil_r. auto. }
      destruct Hcalm as (evs & Htr & Hp & Hr).
      destruct (onChild w c (configHelper r) ws p) as [[exn | ws'] p1]; simpl in *.
      * intros [= <-]. exists evs. simpl. split; [ exact Htr | ].
        unfold waiting. simpl. lia.
      * destruct (Hfields ws' eq_refl) as (_ & _ & _ & Hps & _).
        intros [= <-]. exists evs. simpl. split; [ exact Htr | ].
        unfold waiting. simpl. rewrite Hps, Hpa. lia.
    + assert (Hgen : forall out s',
                 (let '(out', p') := lift (dispatched out (setPending Idle r)) p in
                  Some (p', escaped r out')) = Some s' ->
                 exists evs, trace (fst s') = trace p ++ evs
                             ∧ pausesOf evs + 0 = resumesOf evs + waiting (snd s')).
      { intros out s0. unfold lift.
        destruct (calm_dispatched out (setPending Idle r) p) as (evs & Htr & Hp & Hr).
        pose proof (waiting_dispatched out r p) as Hw.
        destruct (dispatched out (setPending Idle r) p) as [r' p'].
        simpl in Htr, Hw. intros [= <-]. exists evs. simpl.
        split; [ exact Htr | lia ]. }
      destruct last as [err | ]; apply Hgen.
Qed.

(** X7: in every state that a call can reach, the calls of
    [ignore.pause()] made since the call began exceed the calls of
    [ignore.resume()] by one while the reader of the call is paused, and are
    as many otherwise: a reader is resumed once for each time it was paused,
    and a call at rest has left no reader paused. *)
Theorem pauses_match_resumes engine targets (p : Process LintState) sched :
  let s := run w sched (start engine targets p) in
  exists evs,
    trace (fst s) = trace p ++ evs
    ∧ pausesOf evs = resumesOf evs + waiting (snd s)
    ∧ (pending (snd s) = Idle -> pausesOf evs = resumesOf evs).
Proof.
  intros s.
  assert (Hrun : forall sched0 s0,
            inv w s0 ->
            exists evs,
              trace (fst (run w sched0 s0)) = trace (fst s0) ++ evs
              ∧ pausesOf evs + waiting (snd s0)
                = resumesOf evs + waiting (snd (run w sched0 s0))).
  { induction sched0 as [ | c sched0 IH]; intros s0 Hinv; cbn [run].
    - exists []. rewrite app_nil_r. auto.
    - destruct (step w c s0) as [s1 | ] eqn:Hstep; simpl; [ | apply IH; exact Hinv ].
      destruct (step_pauses c s0 s1 Hinv Hstep) as (evs1 & Htr1 & Hb1).
      destruct (IH s1 (step_inv c s0 s1 Hinv Hstep)) as (evs2 & Htr2 & Hb2).
      exists (evs1 ++ evs2).
      rewrite Htr2, Htr1, <- app_assoc, pausesOf_app, resumesOf_app.
      split; [ reflexivity | lia ]. }
  destruct (Hrun sched _ (start_inv engine targets p)) as (evs & Htr & Hb).
  fold s in Htr, Hb.
  assert (Hstart : exists evs0,
            trace (fst (start engine targets p)) = trace p ++ evs0
            ∧ pausesOf evs0 = 0 ∧ resumesOf evs0 = 0
            ∧ waiting (snd (start engine targets p)) = 0).
  { unfold start, executeOnFiles, bind, next. cbn [log].
    destruct targets as [ | file rest]; simpl.
    - eexists. repeat split.
    - rewrite <- app_assoc. eexists. repeat split. }
  destruct Hstart as (evs0 & Htr0 & Hp0 & Hr0 & Hw0).
  exists (evs0 ++ evs).
  rewrite Htr, Htr0, <- app_assoc, pausesOf_app, resumesOf_app.
  split; [ reflexivity | ]. split; [ lia | ].
  intros Hrest. unfold waiting in Hb. rewrite Hrest in Hb.
  unfold waiting in Hw0. lia.
Qed.

(** *** Every Result comes from a reset linter *)

Lemma processFile_linted filename helper (p : Process LintState) res :
  fst (processFile w filename helper p) = inr res ->
  lintedFresh w helper res.
Proof.
  intros Hres. unfold lintedFresh.
  rewrite (processFile_filePath _ _ _ _ Hres). revert Hres.
  unfold processFile, bind, bindE, ret, existsSync, configHelper_getConfig,
    readFileSync, eslintVerify, eslintReset, log; simpl.
  destruct (fs_existsSync w _); simpl; [ | intros [= <-]; reflexivity ].
  destruct (getConfig w _ _) as [exn | config] eqn:Hcfg; simpl; [ intros [=] | ].
  destruct (fs_readFileSync w _) as [exn | text] eqn:Htext; simpl; [ intros [=] | ].
  destruct (eslint_verify w _ _ _ _) as [[exn | ms] l] eqn:Hv; simpl;
    [ intros [=] | ].
  intros [= <-]. exists (lint p), config, text. simpl.
  rewrite Hv. auto.
Qed.

Lemma collect_linted cs helper acc (p : Process LintState) rs :
  Forall (lintedFresh w helper) acc ->
  fst (collect w cs helper acc p) = inr rs ->
  Forall (lintedFresh w helper) rs.
Proof.
  revert acc p. induction cs as [ | c cs IH]; intros acc p Hacc; simpl.
  - intros [= <-]. exact Hacc.
  - destruct (String.eqb (extname c) ".js"); [ | apply IH; exact Hacc ].
    unfold bindE.
    pose proof (processFile_linted c helper p) as Hres.
    destruct (processFile w c helper p) as [[exn | res] p1]; simpl in Hres;
      [ intros [=] | ].
    apply IH. apply Forall_app. split; [ exact Hacc | ].
    constructor; [ apply Hres; reflexivity | constructor ].
Qed.

Lemma dispatchTarget_linted file helper (p : Process LintState) res :
  snd (fst (dispatchTarget w file helper p)) = Called (inr res) ->
  Forall (lintedFresh w helper) res.
Proof.
  unfold dispatchTarget. destruct (stat w file) as [err | stats]; [ discriminate | ].
  destruct (isDirectory stats).
  - unfold bind, ret.
    assert (Hnil : wresults (fst (fst (startWalk w file p))) = []).
    { unfold startWalk, bind, ret. cbn [log].
      destruct (findIgnoreFiles w _ _) as [[err | found] p1]; simpl; [ reflexivity | ].
      destruct (Nat.eqb (length found) 0); simpl; [ reflexivity | ].
      destruct (logAll _ _); reflexivity. }
    destruct (startWalk w file p) as [[ws early] p1]. simpl in Hnil. simpl.
    unfold finishWalk, bind, ret. rewrite Hnil.
    destruct (reader w (wdir ws) _) as [children last].
    destruct (loading ws); simpl;
      match goal with
      | |- context [collect w ?cs helper [] ?p2] =>
          pose proof (collect_linted cs helper [] p2) as Hcol;
          destruct (collect w cs helper [] p2) as [[exn | rs] p3]
      end;
      simpl in Hcol; try (intros [=]; fail);
      (destruct last; simpl; [ discriminate | ]);
      intros [= <-]; apply (Hcol rs); first [ apply List.Forall_nil | reflexivity ].
  - unfold bind, ret.
    pose proof (processFile_linted file helper p) as Hres.
    destruct (processFile w file helper p) as [[exn | r1] p1]; simpl in Hres; simpl;
      [ intros [=] | ].
    intros [= <-]. constructor; [ apply Hres; reflexivity | constructor ].
Qed.

Lemma nextToEnd_linted targets :
  forall r (p : Process LintState),
    Forall (lintedFresh w (configHelper r)) (results r) ->
    forall rs, In (CbOk rs) (calls (fst (nextToEnd w targets r p))) ->
               In (CbOk rs) (calls r) ∨ Forall (lintedFresh w (configHelper r)) rs.
Proof.
  induction targets as [ | file rest IH]; intros r p Hres rs; simpl.
  - intros Hin. apply in_app_or in Hin. destruct Hin as [Hin | [[= <-] | []]]; auto.
  - unfold bind. cbn [log].
    destruct (dispatchTarget w file (configHelper r) _) as [[early out] p2] eqn:Hd.
    assert (Hearly : In (CbOk rs) (calls r ++ earlyCalls early) -> In (CbOk rs) (calls r)).
    { intros Hin. apply in_app_or in Hin. destruct Hin as [Hin | Hin]; [ exact Hin | ].
      destruct early; simpl in Hin; [ destruct Hin as [[=] | []] | contradiction ]. }
    unfold conclude. cbn [fst snd]. destruct out as [exn | [err | res]].
    + simpl. intros Hin. left. apply Hearly. exact Hin.
    + simpl. intros Hin. left.
      apply in_app_or in Hin. destruct Hin as [Hin | [[=] | []]].
      apply Hearly. exact Hin.
    + intros Hin.
      match type of Hin with
      | In _ (calls (fst (nextToEnd w rest ?r2 p2))) =>
          destruct (IH r2 p2) with (rs := rs) as [Hold | Hnew]
      end.
      * simpl. apply Forall_app. split; [ exact Hres | ].
        eapply dispatchTarget_linted. rewrite Hd. reflexivity.
      * exact Hin.
      * simpl in Hold. left. apply Hearly. exact Hold.
      * right. exact Hnew.
Qed.

(** X8: whenever the callback has been given a result list, every Result
    in it is that of its file in a freshly reset linter: the messages are
    what [verify] returned, in a state produced by [reset], for the contents
    of the file, the configuration of its resolved path and the name as
    given, or the one fatal message when the path does not exist. *)
Theorem every_result_is_linted_fresh engine targets (p : Process LintState) sched rs :
  In (CbOk rs) (calls (snd (run w sched (start engine targets p)))) ->
  Forall (lintedFresh w (options engine)) rs.
Proof.
  intros Hin.
  destruct (start_frame engine targets p) as [_ Hok0].
  destruct (run_frame sched _ Hok0) as [_ Hok].
  assert (Hrest : pending (snd (run w sched (start engine targets p))) = Idle).
  { apply Hok. exists rs. exact Hin. }
  rewrite (rest_is_nextToEnd engine targets p sched Hrest) in Hin.
  unfold swap in Hin. cbn [fst snd] in Hin.
  destruct (nextToEnd_linted targets (initialRun engine targets) _
              ltac:(constructor) rs Hin) as [[] | H].
  exact H.
Qed.

(** *** How often the callback is called *)

Lemma nextToEnd_calls_bound targets :
  forall r (p : Process LintState),
    length (calls (fst (nextToEnd w targets r p)))
    <= length (calls r) + length targets + 1.
Proof.
  induction targets as [ | file rest IH]; intros r p; simpl.
  - rewrite length_app. simpl. lia.
  - unfold bind. cbn [log].
    destruct (dispatchTarget w file (configHelper r) _) as [[early out] p2].
    unfold conclude. cbn [fst snd].
    assert (Hearly : length (earlyCalls early) <= 1) by (destruct early; simpl; lia).
    destruct out as [exn | [err | res]].
    + simpl. rewrite !length_app. lia.
    + simpl. rewrite !length_app. simpl. lia.
    + simpl.
      match goal with
      | |- context [nextToEnd w rest ?r2 p2] => pose proof (IH r2 p2) as Hb
      end.
      simpl in Hb. rewrite length_app in Hb. lia.
Qed.

(** X9: in every state that a call can reach, the callback has been called
    at most once more than there are targets. *)
Theorem callback_calls_bounded engine targets (p : Process LintState) sched :
  length (calls (snd (run w sched (start engine targets p))))
  <= length targets + 1.
Proof.
  destruct (reaches_stop engine targets p sched)
    as (sched' & evs & cs & _ & _ & _ & Hc).
  unfold swap in Hc. cbn [fst snd] in Hc.
  pose proof (nextToEnd_calls_bound targets (initialRun engine targets)
                (snd (log (EvNewConfig (options engine)) p))) as Hb.
  rewrite Hc, length_app in Hb. simpl in Hb. lia.
Qed.

(** *** The files that a call touches *)

Lemma touchesOnly_impl (ok ok' : string -> Prop) evs :
  (forall f, ok f -> ok' f) ->
  Forall (touchesOnly w ok) evs -> Forall (touchesOnly w ok') evs.
Proof.
  intros Himp. apply List.Forall_impl.
  intros e. destruct e; simpl; auto.
  - intros (f & Hf & ->). eauto.
  - intros (f & Hf & ->). eauto.
  - intros [Hf ->]. auto.
Qed.

Lemma processFileEvents_touch filename helper :
  Forall (touchesOnly w (eq filename)) (processFileEvents w filename helper).
Proof.
  unfold processFileEvents.
  destruct (fs_existsSync w _); [ | repeat constructor ].
  destruct (getConfig w _ _); [ repeat constructor; simpl; eauto | ].
  destruct (fs_readFileSync w _) eqn:Htext; repeat constructor; simpl; eauto.
Qed.

Lemma collect_touches cs helper acc (p : Process LintState) :
  exists evs,
    trace (snd (collect w cs helper acc p)) = trace p ++ evs
    ∧ Forall (touchesOnly w (fun f => In f cs ∧ extname f = ".js")) evs.
Proof.
  revert acc p. induction cs as [ | c cs IH]; intros acc p; simpl.
  - exists []. rewrite app_nil_r. split; [ reflexivity | constructor ].
  - destruct (String.eqb_spec (extname c) ".js") as [Hjs | Hjs].
    + unfold bindE.
      pose proof (processFile_trace c helper p) as Htr.
      assert (Hc : Forall (touchesOnly w (fun f => (c = f ∨ In f cs) ∧ extname f = ".js"))
                     (processFileEvents w c helper)).
      { eapply touchesOnly_impl; [ | apply processFileEvents_touch ].
        intros f <-. auto. }
      destruct (processFile w c helper p) as [[exn | res] p1]; simpl in Htr.
      * exists (processFileEvents w c helper). simpl. auto.
      * destruct (IH (acc ++ [res]) p1) as (evs & Htr2 & Hall).
        exists (processFileEvents w c helper ++ evs).
        rewrite Htr2, Htr, <- app_assoc. split; [ reflexivity | ].
        apply Forall_app. split; [ exact Hc | ].
        eapply touchesOnly_impl; [ | exact Hall ]. intros f [Hin Hf]. auto.
    + destruct (IH acc p) as (evs & Htr & Hall). exists evs.
      split; [ exact Htr | ].
      eapply touchesOnly_impl; [ | exact Hall ]. intros f [Hin Hf]. auto.
Qed.

Lemma startWalk_touches dir (p : Process LintState) ok :
  exists evs,
    trace (snd (startWalk w dir p)) = trace p ++ evs
    ∧ Forall (touchesOnly w ok) evs.
Proof.
  unfold startWalk, bind, ret. cbn [log]. unfold findIgnoreFiles.
  assert (Hadd : forall found,
            Forall (touchesOnly w ok) (map (EvAddIgnoreFile dir) found)).
  { induction found; simpl; repeat constructor; auto. }
  destruct (ignoreFileFinder _) as [ff | ];
    destruct (findAll w _ _) as [[err | found] ff']; cbn -[Nat.eqb].
  all: try (rewrite <- ?app_assoc; eexists;
            split; [ reflexivity | repeat constructor ]).
  all: destruct (Nat.eqb (length found) 0); cbn.
  all: rewrite ?logAll_trace; cbn; rewrite <- ?app_assoc;
    eexists; (split; [ reflexivity | ]); cbn; repeat constructor; apply Hadd.
Qed.

Lemma finishWalk_touches helper ws (p : Process LintState) :
  exists evs,
    trace (snd (finishWalk w helper ws p)) = trace p ++ evs
    ∧ Forall (touchesOnly w (fun f => extname f = ".js")) evs.
Proof.
  unfold finishWalk, bind, ret.
  destruct (reader w (wdir ws) _) as [children last].
  destruct (loading ws); cbn [log];
    match goal with
    | |- context [collect w ?cs helper ?acc ?q] =>
        destruct (collect_touches cs helper acc q) as (evs & Htr & Hall);
        destruct (collect w cs helper acc q) as [rs p2]
    end;
    simpl in Htr; simpl; rewrite Htr, <- ?app_assoc;
    eexists; (split; [ reflexivity | ]);
    repeat constructor;
    (eapply touchesOnly_impl; [ | exact Hall ]); intros f [_ Hf]; exact Hf.
Qed.

Lemma dispatchTarget_touches file helper (p : Process LintState) :
  exists evs,
    trace (snd (dispatchTarget w file helper p)) = trace p ++ evs
    ∧ Forall (touchesOnly w (fun f => f = file ∨ extname f = ".js")) evs.
Proof.
  unfold dispatchTarget. destruct (stat w file) as [err | stats].
  - exists []. simpl. rewrite app_nil_r. split; [ reflexivity | constructor ].
  - destruct (isDirectory stats); unfold bind, ret.
    + destruct (startWalk_touches file p (fun f => f = file ∨ extname f = ".js"))
        as (evs1 & Htr1 & Hall1).
      destruct (startWalk w file p) as [[ws early] p1]. simpl in Htr1.
      destruct (finishWalk_touches helper ws p1) as (evs2 & Htr2 & Hall2).
      cbn [fst snd].
      destruct (finishWalk w helper ws p1) as [out p2]. simpl in Htr2.
      exists (evs1 ++ evs2). simpl. rewrite Htr2, Htr1, <- app_assoc.
      split; [ reflexivity | ]. apply Forall_app. split; [ exact Hall1 | ].
      eapply touchesOnly_impl; [ | exact Hall2 ]. auto.
    + pose proof (processFile_trace file helper p) as Htr.
      destruct (processFile w file helper p) as [res p1]. simpl in Htr.
      exists (processFileEvents w file helper). simpl. split; [ exact Htr | ].
      eapply touchesOnly_impl; [ | apply processFileEvents_touch ]. auto.
Qed.

Lemma nextToEnd_touches targets :
  forall r (p : Process LintState),
  exists evs,
    trace (snd (nextToEnd w targets r p)) = trace p ++ evs
    ∧ Forall (touchesOnly w (fun f => In f targets ∨ extname f = ".js")) evs.
Proof.
  induction targets as [ | file rest IH]; intros r p; simpl.
  - exists []. rewrite app_nil_r. split; [ reflexivity | constructor ].
  - unfold bind. cbn [log].
    match goal with
    | |- context [dispatchTarget w file ?h ?q] =>
        destruct (dispatchTarget_touches file h q) as (evs1 & Htr1 & Hall1);
        destruct (dispatchTarget w file h q) as [[early out] p2]
    end.
    simpl in Htr1. unfold conclude. cbn [fst snd].
    assert (Hall1' : Forall (touchesOnly w
                       (fun f => (file = f ∨ In f rest) ∨ extname f = ".js"))
                       (EvStat file :: evs1)).
    { constructor; [ exact I | ].
      eapply touchesOnly_impl; [ | exact Hall1 ]. intros f [-> | Hf]; auto. }
    destruct out as [exn | [err | res]].
    + exists (EvStat file :: evs1). simpl. rewrite Htr1, <- app_assoc.
      split; [ reflexivity | exact Hall1' ].
    + exists (EvStat file :: evs1). simpl. rewrite Htr1, <- app_assoc.
      split; [ reflexivity | exact Hall1' ].
    + match goal with
      | |- context [nextToEnd w rest ?r2 p2] =>
          destruct (IH r2 p2) as (evs2 & Htr2 & Hall2)
      end.
      exists ((EvStat file :: evs1) ++ evs2).
      rewrite Htr2, Htr1, <- !app_assoc. split; [ reflexivity | ].
      apply Forall_app. split; [ exact Hall1' | ].
      eapply touchesOnly_impl; [ | exact Hall2 ]. intros f [Hin | Hf]; auto.
Qed.

(** X12: in every state that a call can reach, the files that the call
    has read, asked the configuration of or handed to [verify] are targets of
    the call or paths with the extension [.js]; [verify] has been given each
    file's name together with the contents of that file. *)
Theorem call_touches_only_targets_and_js
    engine targets (p : Process LintState) sched :
  exists evs,
    trace (fst (run w sched (start engine targets p))) = trace p ++ evs
    ∧ Forall (touchesOnly w (fun f => In f targets ∨ extname f = ".js")) evs.
Proof.
  set (s := run w sched (start engine targets p)).
  destruct (reaches_stop engine targets p sched)
    as (sched' & evs2 & cs & _ & _ & Htr2 & _).
  fold s in Htr2. unfold swap in Htr2. cbn [fst snd] in Htr2.
  destruct (start_frame engine targets p) as [Hfr0 Hok0].
  destruct (run_frame sched _ Hok0) as [Hfr Hok]. fold s in Hfr, Hok.
  assert (Htr1 : exists evs1, trace (fst s) = trace p ++ evs1).
  { destruct Hfr0 as (e0 & c0 & Ht0 & _). destruct Hfr as (e1 & c1 & Ht1 & _).
    simpl in Ht0. exists (e0 ++ e1). rewrite Ht1, Ht0, <- app_assoc. reflexivity. }
  destruct Htr1 as [evs1 Htr1].
  destruct (nextToEnd_touches targets (initialRun engine targets)
              (snd (log (EvNewConfig (options engine)) p))) as (evs & Htr & Hall).
  rewrite Htr in Htr2. cbn [log snd trace] in Htr2.
  rewrite Htr1, <- !app_assoc in Htr2. apply app_inv_head in Htr2.
  exists evs1. split; [ exact Htr1 | ].
  assert (Hnew : Forall (touchesOnly w (fun f => In f targets ∨ extname f = ".js"))
                   ([EvNewConfig (options engine)] ++ evs)).
  { constructor; [ exact I | exact Hall ]. }
  rewrite Htr2 in Hnew. apply Forall_app in Hnew. apply Hnew.
Qed.

(** *** A call that an exception has ended *)

(** X13: when an exception has left a callback of a call, the caller has
    not been given a result list and never will be: every invocation of the
    callback so far was [callback(err)], and no schedule makes the call do
    anything more. *)
Theorem exception_leaves_no_results
    engine targets (p : Process LintState) sched exn :
  let s := run w sched (start engine targets p) in
  pending (snd s) = Thrown exn ->
  Forall (fun cb => exists err, cb = CbErr err) (calls (snd s))
  ∧ (forall sched', run w sched' s = s).
Proof.
  intros s Hthrown.
  destruct (start_frame engine targets p) as [_ Hok0].
  destruct (run_frame sched _ Hok0) as [_ Hok]. fold s in Hok.
  split.
  - apply List.Forall_forall. intros [err | rs] Hin; [ eauto | ].
    assert (Hs : succeeded (snd s)) by (exists rs; exact Hin).
    destruct (Hok Hs) as [Hidle _]. congruence.
  - intros sched'. destruct s as [q r]. apply run_stopped.
    unfold stopped. simpl in Hthrown. rewrite Hthrown. reflexivity.
Qed.

End Proofs.

(** ** The options of an engine *)

(** C7: a read of a field of the stored options gives the caller's value
    when the caller's object has the field, and the value of
    [defaultOptions] otherwise; without an argument the stored object has no
    property of its own and every read gives the default, which for the nine
    fields is the value listed in [defaultOptions].  When the constructor
    returns, the instance holds exactly these stored options. *)
Theorem stored_options_layer_defaults :
  (forall (opts : gmap string Value) k,
     get (storedOptions (Some opts)) k =
       match opts !! k with
       | Some v => v
       | None => default VUndefined (defaultOptions !! k)
       end)
  ∧ (forall k, get (storedOptions None) k = default VUndefined (defaultOptions !! k))
  ∧ own (storedOptions None) = ∅
  ∧ defaultOptions = list_to_map defaultFields
  ∧ map (fun kv => get (storedOptions None) (fst kv)) defaultFields
      = map snd defaultFields
  ∧ (forall rules_load opts e loaded,
       CLIEngine rules_load opts = (loaded, inr e) ->
       options e = storedOptions opts)
  ∧ (forall rules_load,
       CLIEngine rules_load None = ([], inr {| options := storedOptions None |})).
Proof.
  split; [ | split; [ | split; [ | split; [ | split; [ | split ] ] ] ] ].
  - intros opts k. unfold get, storedOptions, assign, Object_create; simpl.
    rewrite (right_id_L ∅ (∪)). destruct (opts !! k); reflexivity.
  - intros k. unfold get, storedOptions, assign, Object_create; simpl.
    rewrite (right_id_L ∅ (∪)), lookup_empty. reflexivity.
  - unfold storedOptions, assign, Object_create; simpl.
    apply (right_id_L ∅ (∪)).
  - reflexivity.
  - reflexivity.
  - intros rules_load opts e loaded. unfold CLIEngine.
    destruct (truthy _); [ | intros [= <- <-]; reflexivity ].
    destruct (get _ _); try (intros [=]; fail).
    destruct (loadRules rules_load items) as [l [exn | ]];
      intros [= <- <-]; reflexivity.
  - reflexivity.
Qed.

Lemma stored_options_witness :
  CLIEngine demoLoad (Some demoOptions)
    = ([VStr "my-rules"], inr {| options := storedOptions (Some demoOptions) |})
  ∧ options {| options := storedOptions (Some demoOptions) |}
    = storedOptions (Some demoOptions).
Proof.
  split; [ reflexivity | ].
  apply (proj1 (proj2 (proj2 (proj2 (proj2 (proj2 stored_options_layer_defaults)))))
           demoLoad (Some demoOptions) _ [VStr "my-rules"]).
  reflexivity.
Defined.

Example demoOptions_reset :
  get (storedOptions (Some demoOptions)) "reset" = VBool true.
Proof. reflexivity. Qed.

Example demoOptions_ignore :
  get (storedOptions (Some demoOptions)) "ignore" = VBool true.
Proof. reflexivity. Qed.

Example rulePaths_not_an_array :
  CLIEngine demoLoad (Some (<["rulePaths" := VStr "my-rules"]> ∅))
  = ([], inl "TypeError: this.options.rulePaths.forEach is not a function").
Proof. reflexivity. Qed.

(** ** The sample filesystem: a failing lookup of ignore files *)

(** C1 at the targets [a.js], [/vault/d], [a.js], where the lookup of the
    ignore files of [/vault/d] throws: the callback is called with the error,
    but the reader of [/vault/d] has been created and goes on; at its "end"
    its results are added to those of the first target, the third target is
    dispatched, and the callback is called a second time, with the results of
    all three targets.  Every schedule that brings the call to rest ends
    there. *)
Theorem ignore_lookup_failure_does_not_abort :
  let s0 := start demoEngine vaultTargets freshProcess in
  let s := exec demo 5 s0 in
  pending (snd s) = Idle
  ∧ calls (snd s) = [CbErr vaultError; CbOk vaultResults]
  ∧ statsOf (trace (fst s)) = vaultTargets
  ∧ calls (snd (exec demo 2 s0)) = [CbErr vaultError]
  ∧ (forall sched,
       pending (snd (run demo sched s0)) = Idle -> run demo sched s0 = s).
Proof.
  intros s0 s.
  split; [ vm_compute; reflexivity | ].
  split; [ vm_compute; reflexivity | ].
  split; [ vm_compute; reflexivity | ].
  split; [ vm_compute; reflexivity | ].
  intros sched Hrest.
  pose proof (toEnd_run string nat demo sched s0
                (start_inv string nat demo demoEngine vaultTargets freshProcess))
    as Hend.
  assert (Hs : toEnd demo s0 = s) by (vm_compute; reflexivity).
  rewrite <- Hs, <- Hend.
  destruct (run demo sched s0) as [q r]. simpl in Hrest.
  unfold toEnd. rewrite Hrest. reflexivity.
Qed.

Lemma ignore_lookup_failure_witness :
  pending (snd (run demo vaultSchedule
                  (start demoEngine vaultTargets freshProcess))) = Idle
  ∧ run demo vaultSchedule (start demoEngine vaultTargets freshProcess)
    = exec demo 5 (start demoEngine vaultTargets freshProcess).
Proof.
  split; [ vm_compute; reflexivity | ].
  apply (proj2 (proj2 (proj2 (proj2 ignore_lookup_failure_does_not_abort)))
           vaultSchedule).
  vm_compute; reflexivity.
Defined.

(** The walk of [/vault/d], whose lookup threw, is not held back: its reader is
    not paused, has taken in no ignore file and has delivered [k.js], for
    which there is a Result, although the reader would not have delivered it
    under the ignore file of [/vault]. *)
Lemma walk_barrier_witness :
  pending (snd (run demo [StatDone; StatDone; ReaderEvent]
                  (start demoEngine vaultTargets freshProcess))) = PWalk vaultWalk
  ∧ map filePath (wresults vaultWalk) = ["/vault/d/k.js"]
  ∧ fst (reader demo "/vault/d" {[ "/vault/.eslintignore" ]}) = []
  ∧ paused vaultWalk = false
  ∧ loading vaultWalk = []
  ∧ registered vaultWalk = ∅.
Proof.
  assert (Hp : pending (snd (run demo [StatDone; StatDone; ReaderEvent]
                               (start demoEngine vaultTargets freshProcess)))
               = PWalk vaultWalk) by (vm_compute; reflexivity).
  split; [ exact Hp | ]. split; [ reflexivity | ].
  split; [ vm_compute; reflexivity | ].
  pose proof (walk_barrier string nat demo demoEngine vaultTargets freshProcess
                [StatDone; StatDone; ReaderEvent] vaultWalk) as H.
  cbv zeta in H. specialize (H Hp).
  change (ignoreFilesInParentDirs vaultWalk) with (@None (list string)) in H.
  destruct H as (Hpa & Hl & Hreg & _). auto.
Defined.

(** The same where the ignore file of an ancestor is found and cannot be
    read: the load is counted, the reader is resumed without the rules of the
    file, and [z.js], which the file excludes, is linted. *)
Example unreadable_ignore_file_is_skipped :
  let s := run demoLocked walkSchedule (start demoEngine ["lib"] freshProcess) in
  pending (snd (run demoLocked [StatDone; IgnoreFileLoaded 0; ReaderEvent;
                                ReaderEvent; ReaderEvent]
                  (start demoEngine ["lib"] freshProcess))) = PWalk lockedWalk
  ∧ pending (snd (run demoLocked (walkSchedule ++ [ReaderEvent])
                    (start demoEngine ["lib"] freshProcess))) = Idle
  ∧ calls (snd (run demoLocked (walkSchedule ++ [ReaderEvent])
                  (start demoEngine ["lib"] freshProcess)))
    = [CbOk [ {| filePath := "/proj/lib/x.js"; messages := [] |};
              {| filePath := "/proj/lib/z.js"; messages := [] |} ]]
  ∧ pausesOf (trace (fst s)) = 1
  ∧ resumesOf (trace (fst s)) = 1.
Proof. vm_compute. repeat split; reflexivity. Qed.

(** ** The sample filesystem: a target that does not exist *)

Lemma missing_target_witness :
  stat demo "nope.js" = inl missingError
  ∧ exists s',
      step demo StatDone (start demoEngine ["nope.js"; "a.js"] freshProcess) = Some s'
      ∧ calls (snd s') = [CbErr missingError]
      ∧ results (snd s') = []
      ∧ pending (snd s') = Idle
      ∧ files (snd s') = ["a.js"].
Proof.
  split; [ vm_compute; reflexivity | ].
  destruct (missing_target_is_a_hard_error string nat demo demoEngine
              "nope.js" ["a.js"] freshProcess missingError)
    as (s' & Hstep & Hcalls & Hres & Hpd & Hfiles & _).
  - vm_compute; reflexivity.
  - exists s'. auto.
Defined.

(** What [processFile] itself makes of the same name. *)
Example processFile_of_missing_target :
  fst (processFile demo "nope.js" (options demoEngine) freshProcess)
  = inr {| filePath := "nope.js";
           messages := [ {| fatal := true;
                            message := "Could not find file at '/proj/nope.js'." |} ] |}.
Proof. vm_compute. reflexivity. Qed.

(** ** The sample filesystem: a directory with the extension [.js] *)

(** The walk of [pkg]: its child [vendor.js] is a directory,
    its extension is [.js], and it is handed to [processFile], which throws
    when it reads it; there is no Result for it, the exception leaves the
    handler of "child" and the callback has not been called. *)
Lemma child_processed_witness :
  pending (snd (run demo pkgSchedule (start demoEngine ["pkg"] freshProcess)))
    = PWalk pkgWalk
  ∧ fst (reader demo (wdir pkgWalk) (registered pkgWalk)) !! emitted pkgWalk
    = Some "/proj/pkg/vendor.js"
  ∧ fs_stat demo "/proj/pkg/vendor.js" = inr StatDir
  ∧ extname "/proj/pkg/vendor.js" = ".js"
  ∧ exists s',
      step demo ReaderEvent
        (run demo pkgSchedule (start demoEngine ["pkg"] freshProcess)) = Some s'
      ∧ pending (snd s') = Thrown vendorError
      ∧ calls (snd s') = [].
Proof.
  assert (Hp : pending (snd (run demo pkgSchedule
                               (start demoEngine ["pkg"] freshProcess)))
               = PWalk pkgWalk) by (vm_compute; reflexivity).
  assert (Hc : fst (reader demo (wdir pkgWalk) (registered pkgWalk)) !! emitted pkgWalk
               = Some "/proj/pkg/vendor.js") by (vm_compute; reflexivity).
  split; [ exact Hp | ]. split; [ exact Hc | ].
  split; [ vm_compute; reflexivity | ]. split; [ reflexivity | ].
  pose proof (child_processed_iff_js string nat demo demoEngine ["pkg"] freshProcess
                pkgSchedule pkgWalk) as H.
  cbv zeta in H. destruct (H Hp) as (_ & _ & _ & Hnext).
  destruct (Hnext "/proj/pkg/vendor.js" eq_refl Hc)
    as (s' & Hstep & _ & Hcalls & _ & Hjs).
  exists s'. split; [ exact Hstep | ].
  split.
  - assert (Hout : fst (processFile demo "/proj/pkg/vendor.js"
                          (configHelper (snd (run demo pkgSchedule
                             (start demoEngine ["pkg"] freshProcess))))
                          (fst (run demo pkgSchedule
                             (start demoEngine ["pkg"] freshProcess))))
                   = inl vendorError) by (vm_compute; reflexivity).
    change (isJs "/proj/pkg/vendor.js") with true in Hjs.
    destruct Hjs as [_ Hjs]. rewrite Hout in Hjs. exact Hjs.
  - rewrite Hcalls. vm_compute. reflexivity.
Defined.

(** The call on [pkg] from start to stop: whatever the schedule, it ends
    with the exception, having linted [m.js] and never called back; [n.js]
    is never reached. *)
Example js_directory_ends_the_call :
  let s0 := start demoEngine ["pkg"] freshProcess in
  let s := exec demo 4 s0 in
  pending (snd s) = Thrown vendorError
  ∧ calls (snd s) = []
  ∧ In (EvEslintVerify "// /proj/pkg/m.js" "/proj/pkg/m.js") (trace (fst s))
  ∧ In (EvReadFileSync "/proj/pkg/vendor.js") (trace (fst s))
  ∧ ~ In (EvExistsSync "/proj/pkg/n.js") (trace (fst s))
  ∧ (forall sched,
       stopped (snd (run demo sched s0)) = true -> run demo sched s0 = s).
Proof.
  intros s0 s.
  split; [ vm_compute; reflexivity | ].
  split; [ vm_compute; reflexivity | ].
  split; [ vm_compute; tauto | ].
  split; [ vm_compute; tauto | ].
  split.
  { vm_compute. intros H.
    repeat (destruct H as [H | H]; [ discriminate H | ]). exact H. }
  intros sched Hrest.
  pose proof (toEnd_run string nat demo sched s0
                (start_inv string nat demo demoEngine ["pkg"] freshProcess))
    as Hend.
  assert (Hs : toEnd demo s0 = s) by (vm_compute; reflexivity).
  rewrite <- Hs, <- Hend. symmetry. apply toEnd_stopped. exact Hrest.
Qed.

(** ** The sample filesystem: two calls in one process *)

(** C5 fails: two engines with different options walk [lib] one after the
    other in the same process.  The second call constructs no locator: it
    asks the one that the first call constructed, which the module variable
    still holds with its memo; over both calls one locator has been
    constructed. *)
Lemma locator_shared_between_calls :
  let first := exec demo 5 (start demoEngine ["lib"] freshProcess) in
  let second := exec demo 5 (start otherEngine ["lib"] (fst first)) in
  get (options demoEngine) "reset" = VBool false
  ∧ get (options otherEngine) "reset" = VBool true
  ∧ pending (snd first) = Idle
  ∧ pending (snd second) = Idle
  ∧ (exists ff, ignoreFileFinder (fst first) = Some ff
                ∧ ignoreFileFinder (fst second) = Some ff)
  ∧ constructions (trace (fst first)) = 1
  ∧ constructions (trace (fst second)) = 1
  ∧ exists evs,
      trace (fst second) = trace (fst first) ++ evs
      ∧ constructions evs = 0
      ∧ In (EvFindAll "/proj") evs.
Proof.
  intros first second.
  do 4 (split; [ vm_compute; reflexivity | ]).
  split; [ exists libFinder; split; vm_compute; reflexivity | ].
  do 2 (split; [ vm_compute; reflexivity | ]).
  exists (drop (length (trace (fst first))) (trace (fst second))).
  split; [ vm_compute; reflexivity | ].
  split; [ vm_compute; reflexivity | ].
  vm_compute. tauto.
Qed.

(** ** The sample filesystem: a file and a directory *)

Lemma shifts_files_witness :
  succeeded (snd (run demo libSchedule (start demoEngine libTargets freshProcess)))
  ∧ files (snd (run demo libSchedule (start demoEngine libTargets freshProcess))) = [].
Proof.
  assert (Hs : succeeded
                 (snd (run demo libSchedule
                         (start demoEngine libTargets freshProcess)))).
  { exists libResults. vm_compute. left. reflexivity. }
  split; [ exact Hs | ].
  pose proof (executeOnFiles_shifts_files string nat demo demoEngine libTargets
                freshProcess libSchedule) as H.
  cbv zeta in H. apply (proj1 (proj2 H)). exact Hs.
Defined.

Lemma results_in_target_order_witness :
  calls (snd (run demo libSchedule (start demoEngine libTargets freshProcess)))
    = [CbOk libResults]
  ∧ exists rss,
      libResults = concat rss
      ∧ Dispatched demo (options demoEngine) libTargets
          (snd (log (EvNewConfig (options demoEngine)) freshProcess)) rss
          (fst (run demo libSchedule (start demoEngine libTargets freshProcess))).
Proof.
  assert (Hc : calls (snd (run demo libSchedule
                             (start demoEngine libTargets freshProcess)))
               = [CbOk libResults]) by (vm_compute; reflexivity).
  split; [ exact Hc | ].
  destruct (results_in_target_order string nat demo demoEngine libTargets
              freshProcess libSchedule libResults Hc)
    as (rss & Hd & Hrs & _).
  exists rss. split; [ exact Hrs | exact Hd ].
Defined.

(** The barrier where it holds: the walk of [lib] delivers nothing before
    its ignore file has been loaded. *)
Example lib_walk_waits :
  pending (snd (run demo [StatDone; IgnoreFileLoaded 0]
                  (start demoEngine ["lib"] freshProcess))) = PWalk libWalkLoaded
  ∧ pending (snd (run demo [StatDone; IgnoreFileLoaded 0; ReaderEvent; ReaderEvent]
                    (start demoEngine ["lib"] freshProcess))) = PWalk libWalkTwo
  ∧ run demo [StatDone; ReaderEvent] (start demoEngine ["lib"] freshProcess)
    = run demo [StatDone] (start demoEngine ["lib"] freshProcess).
Proof. vm_compute. repeat split; reflexivity. Qed.

Lemma processFile_resets_witness :
  eslint_reset demo (lint {| ignoreFileFinder := None; lint := 7; trace := [] |})
    = eslint_reset demo (lint freshProcess)
  ∧ fst (processFile demo "a.js" (options demoEngine)
           {| ignoreFileFinder := None; lint := 7; trace := [] |})
    = fst (processFile demo "a.js" (options demoEngine) freshProcess).
Proof.
  split; [ reflexivity | ].
  pose proof (processFile_resets_before_verify string nat demo "a.js"
                (options demoEngine) freshProcess) as H.
  cbv zeta in H. destruct H as (_ & _ & H).
  apply H. reflexivity.
Defined.

Lemma locator_outlives_calls_witness :
  let first := exec demo 5 (start demoEngine ["lib"] freshProcess) in
  ignoreFileFinder (fst first) = Some libFinder
  ∧ cache libFinder !! "/proj" = Some ["/proj/.eslintignore"]
  ∧ (exists evs,
       trace (fst (run demo walkSchedule (start otherEngine ["lib"] (fst first))))
         = trace (fst first) ++ evs
       ∧ constructions evs = 0)
  ∧ fst (findIgnoreFiles demo "/proj" (fst first)) = inr ["/proj/.eslintignore"].
Proof.
  intros first.
  assert (Hf : ignoreFileFinder (fst first) = Some libFinder)
    by (vm_compute; reflexivity).
  assert (Hc : cache libFinder !! "/proj" = Some ["/proj/.eslintignore"])
    by (vm_compute; reflexivity).
  split; [ exact Hf | ]. split; [ exact Hc | ].
  pose proof (locator_outlives_calls string nat demo otherEngine ["lib"]
                (fst first) walkSchedule) as H.
  cbv zeta in H. destruct H as [(evs & Htr & Hm) Hmemo].
  rewrite Hf in Hm. destruct Hm as [_ Hcons].
  split; [ exists evs; split; [ exact Htr | exact Hcons ] | ].
  rewrite (Hmemo "/proj" (fst first) libFinder ["/proj/.eslintignore"] Hf Hc).
  reflexivity.
Defined.

(** ** The constructor and the directories of rules *)

Lemma get_storedOptions (opts : gmap string Value) k :
  get (storedOptions (Some opts)) k =
    match opts !! k with
    | Some v => v
    | None => default VUndefined (defaultOptions !! k)
    end.
Proof.
  unfold get, storedOptions, assign, Object_create; simpl.
  rewrite (right_id_L ∅ (∪)). destruct (opts !! k); reflexivity.
Qed.

(** The calls of [rules.load] that the loop makes: all the directories
    when none of the calls throws; otherwise the directories up to the first
    for which it throws, that one included. *)
Lemma loadRules_calls rules_load dirs :
  match snd (loadRules rules_load dirs) with
  | None =>
      fst (loadRules rules_load dirs) = dirs
      ∧ Forall (fun d => rules_load d = None) dirs
  | Some exn =>
      exists before d after,
        dirs = before ++ d :: after
        ∧ fst (loadRules rules_load dirs) = before ++ [d]
        ∧ Forall (fun d' => rules_load d' = None) before
        ∧ rules_load d = Some exn
  end.
Proof.
  induction dirs as [ | d ds IH]; simpl.
  - split; [ reflexivity | constructor ].
  - destruct (rules_load d) as [exn | ] eqn:Hd; simpl.
    + exists [], d, ds. repeat split; auto.
    + destruct (loadRules rules_load ds) as [loaded [exn | ]]; simpl in *.
      * destruct IH as (before & d' & after & -> & -> & Hall & Hd').
        exists (d :: before), d', after. repeat split; auto.
      * destruct IH as [-> Hall]. split; [ reflexivity | ].
        constructor; assumption.
Qed.

(** X10: for a caller's [rulePaths] that is an array the constructor calls
    [rules.load] for its elements in order, up to the first for which
    [rules.load] throws; it returns the instance when no call throws and
    throws what [rules.load] threw otherwise.  When the caller gives no
    [rulePaths], or a falsy one, it calls [rules.load] for none and returns
    the instance. *)
Theorem constructor_loads_rule_paths rules_load (opts : gmap string Value) :
  (forall dirs, opts !! "rulePaths" = Some (VArr dirs) ->
     match snd (CLIEngine rules_load (Some opts)) with
     | inr e =>
         e = {| options := storedOptions (Some opts) |}
         ∧ fst (CLIEngine rules_load (Some opts)) = dirs
         ∧ Forall (fun d => rules_load d = None) dirs
     | inl exn =>
         exists before d after,
           dirs = before ++ d :: after
           ∧ fst (CLIEngine rules_load (Some opts)) = before ++ [d]
           ∧ Forall (fun d' => rules_load d' = None) before
           ∧ rules_load d = Some exn
     end)
  ∧ (opts !! "rulePaths" = None ->
     CLIEngine rules_load (Some opts)
     = ([], inr {| options := storedOptions (Some opts) |}))
  ∧ (forall v, opts !! "rulePaths" = Some v -> truthy v = false ->
     CLIEngine rules_load (Some opts)
     = ([], inr {| options := storedOptions (Some opts) |})).
Proof.
  unfold CLIEngine. cbn [options]. rewrite get_storedOptions.
  split; [ | split ].
  - intros dirs ->. cbn [truthy].
    pose proof (loadRules_calls rules_load dirs) as Hcalls.
    destruct (loadRules rules_load dirs) as [loaded [exn | ]]; simpl in *.
    + exact Hcalls.
    + destruct Hcalls as [-> Hall]. auto.
  - intros ->. reflexivity.
  - intros v -> ->. reflexivity.
Qed.

(** X11: the constructor throws exactly when the caller's [rulePaths] is
    truthy and either is not an array or holds a directory for which
    [rules.load] throws; in every other case it returns an instance. *)
Theorem constructor_throws_iff rules_load (opts : option (gmap string Value)) :
  (exists msg, snd (CLIEngine rules_load opts) = inl msg)
  <-> exists o v, opts = Some o
                  ∧ o !! "rulePaths" = Some v
                  ∧ truthy v = true
                  ∧ ((forall dirs, v <> VArr dirs)
                     ∨ exists dirs d, v = VArr dirs ∧ In d dirs
                                      ∧ rules_load d <> None).
Proof.
  split.
  - intros [msg Hmsg]. destruct opts as [o | ]; [ | discriminate ].
    unfold CLIEngine in Hmsg. cbn [options] in Hmsg.
    rewrite get_storedOptions in Hmsg.
    destruct (o !! "rulePaths") as [v | ] eqn:Hv; [ | discriminate ].
    exists o, v. destruct (truthy v) eqn:Ht; [ | discriminate ].
    split; [ reflexivity | ]. split; [ exact Hv | ]. split; [ reflexivity | ].
    destruct v as [ | | b | s | dirs | props ];
      try (left; intros dirs0; discriminate).
    right. exists dirs.
    pose proof (loadRules_calls rules_load dirs) as Hcalls.
    destruct (loadRules rules_load dirs) as [loaded [exn | ]]; simpl in *;
      [ | discriminate ].
    destruct Hcalls as (before & d & after & -> & _ & _ & Hd).
    exists d. split; [ reflexivity | ].
    split; [ apply in_or_app; right; left; reflexivity | congruence ].
  - intros (o & v & -> & Hv & Ht & Hcase).
    unfold CLIEngine. cbn [options]. rewrite get_storedOptions, Hv, Ht.
    destruct Hcase as [Hna | (dirs & d & -> & Hin & Hd)].
    + destruct v; simpl; eauto. exfalso. eapply Hna. reflexivity.
    + pose proof (loadRules_calls rules_load dirs) as Hcalls.
      destruct (loadRules rules_load dirs) as [loaded [exn | ]]; simpl in *;
        [ eauto | ].
      destruct Hcalls as [_ Hall]. exfalso. apply Hd.
      rewrite List.Forall_forall in Hall. apply Hall. exact Hin.
Qed.

Lemma constructor_loads_witness :
  brokenOptions !! "rulePaths"
    = Some (VArr [VStr "my-rules"; VStr "no-such-dir"; VStr "my-rules"])
  ∧ CLIEngine demoLoad (Some brokenOptions)
    = ([VStr "my-rules"; VStr "no-such-dir"],
       inl "ENOENT: no such file or directory, scandir")
  ∧ exists before d after,
      [VStr "my-rules"; VStr "no-such-dir"; VStr "my-rules"] = before ++ d :: after
      ∧ fst (CLIEngine demoLoad (Some brokenOptions)) = before ++ [d]
      ∧ demoLoad d = Some "ENOENT: no such file or directory, scandir".
Proof.
  assert (Hr : brokenOptions !! "rulePaths"
               = Some (VArr [VStr "my-rules"; VStr "no-such-dir"; VStr "my-rules"]))
    by reflexivity.
  assert (Hc : CLIEngine demoLoad (Some brokenOptions)
               = ([VStr "my-rules"; VStr "no-such-dir"],
                  inl "ENOENT: no such file or directory, scandir"))
    by reflexivity.
  split; [ exact Hr | ]. split; [ exact Hc | ].
  pose proof (proj1 (constructor_loads_rule_paths demoLoad brokenOptions) _ Hr) as H.
  rewrite Hc in H. cbn [snd] in H.
  destruct H as (before & d & after & Hd & Hl & _ & Hthrow).
  exists before, d, after. rewrite Hc. auto.
Defined.

Lemma constructor_throws_witness :
  (exists o v, Some brokenOptions = Some o
               ∧ o !! "rulePaths" = Some v
               ∧ truthy v = true
               ∧ ((forall dirs, v <> VArr dirs)
                  ∨ exists dirs d, v = VArr dirs ∧ In d dirs ∧ demoLoad d <> None))
  ∧ exists msg, snd (CLIEngine demoLoad (Some brokenOptions)) = inl msg.
Proof.
  assert (H : exists o v,
             Some brokenOptions = Some o
             ∧ o !! "rulePaths" = Some v
             ∧ truthy v = true
             ∧ ((forall dirs, v <> VArr dirs)
                ∨ exists dirs d, v = VArr dirs ∧ In d dirs ∧ demoLoad d <> None)).
  { exists brokenOptions,
      (VArr [VStr "my-rules"; VStr "no-such-dir"; VStr "my-rules"]).
    split; [ reflexivity | ]. split; [ reflexivity | ]. split; [ reflexivity | ].
    right. eexists. exists (VStr "no-such-dir").
    split; [ reflexivity | ].
    split; [ right; left; reflexivity | discriminate ]. }
  split; [ exact H | ].
  apply (proj2 (constructor_throws_iff demoLoad _)). exact H.
Defined.

(** ** The sample filesystem: further runs *)

Lemma callback_called_once_witness :
  (forall name d, exists found, scanUp demoCalm name d = inr found)
  ∧ pending (snd (run demoCalm libSchedule
                    (start demoEngine libTargets freshProcess))) = Idle
  ∧ (exists c,
      calls (snd (run demoCalm libSchedule
                    (start demoEngine libTargets freshProcess))) = [c])
  ∧ pending (snd (run demoCalm pkgSchedule
                    (start demoEngine ["pkg"] freshProcess))) = PWalk pkgWalk
  ∧ length (calls (snd (run demoCalm (pkgSchedule ++ [ReaderEvent])
                          (start demoEngine ["pkg"] freshProcess)))) <= 1.
Proof.
  assert (Hscan : forall name d, exists found, scanUp demoCalm name d = inr found).
  { intros name d. simpl. destruct (String.eqb d "/proj"); eexists; reflexivity. }
  assert (Hrest : pending (snd (run demoCalm libSchedule
                                  (start demoEngine libTargets freshProcess))) = Idle)
    by (vm_compute; reflexivity).
  split; [ exact Hscan | ]. split; [ exact Hrest | ].
  split.
  - pose proof (callback_called_once_without_lookup_failure string nat demoCalm
                  demoEngine libTargets freshProcess libSchedule Hscan) as H.
    cbv zeta in H. destruct H as (_ & H & _). exact (H Hrest).
  - split; [ vm_compute; reflexivity | ].
    pose proof (callback_called_once_without_lookup_failure string nat demoCalm
                  demoEngine ["pkg"] freshProcess (pkgSchedule ++ [ReaderEvent])
                  Hscan) as H.
    cbv zeta in H. destruct H as (H & _). exact H.
Defined.

Lemma result_callback_witness :
  calls (snd (run demo vaultSchedule
                (start demoEngine vaultTargets freshProcess))) !! 1
    = Some (CbOk vaultResults)
  ∧ pending (snd (run demo vaultSchedule
                    (start demoEngine vaultTargets freshProcess))) = Idle
  ∧ files (snd (run demo vaultSchedule
                  (start demoEngine vaultTargets freshProcess))) = [].
Proof.
  assert (Hi : calls (snd (run demo vaultSchedule
                             (start demoEngine vaultTargets freshProcess))) !! 1
               = Some (CbOk vaultResults)) by (vm_compute; reflexivity).
  split; [ exact Hi | ].
  pose proof (result_callback_is_last string nat demo demoEngine vaultTargets
                freshProcess vaultSchedule 1 vaultResults) as H.
  cbv zeta in H. destruct (H Hi) as (_ & Hpd & Hfiles & _).
  split; [ exact Hpd | exact Hfiles ].
Defined.

Lemma targets_after_failure_witness :
  pending (snd (run demo [StatDone; StatDone]
                  (start demoEngine ["a.js"; "nope.js"] freshProcess))) = Idle
  ∧ last (calls (snd (run demo [StatDone; StatDone]
                        (start demoEngine ["a.js"; "nope.js"] freshProcess))))
    = Some (CbErr missingError)
  ∧ pending (snd (run demo [StatDone; StatDone]
                    (start demoEngine (["a.js"; "nope.js"] ++ ["lib"]) freshProcess)))
    = Idle
  ∧ files (snd (run demo [StatDone; StatDone]
                  (start demoEngine (["a.js"; "nope.js"] ++ ["lib"]) freshProcess)))
    = files (snd (run demo [StatDone; StatDone]
                    (start demoEngine ["a.js"; "nope.js"] freshProcess))) ++ ["lib"].
Proof.
  assert (H1 : pending (snd (run demo [StatDone; StatDone]
                               (start demoEngine ["a.js"; "nope.js"] freshProcess)))
               = Idle) by (vm_compute; reflexivity).
  assert (H2 : last (calls (snd (run demo [StatDone; StatDone]
                                   (start demoEngine ["a.js"; "nope.js"] freshProcess))))
               = Some (CbErr missingError)) by (vm_compute; reflexivity).
  assert (H3 : pending (snd (run demo [StatDone; StatDone]
                               (start demoEngine (["a.js"; "nope.js"] ++ ["lib"])
                                  freshProcess))) = Idle)
    by (vm_compute; reflexivity).
  split; [ exact H1 | ]. split; [ exact H2 | ]. split; [ exact H3 | ].
  pose proof (targets_after_failure_are_ignored string nat demo demoEngine
                ["a.js"; "nope.js"] ["lib"] freshProcess
                [StatDone; StatDone] [StatDone; StatDone] missingError) as H.
  cbv zeta in H. destruct (H H1 H2 H3) as (_ & _ & _ & Hfiles). exact Hfiles.
Defined.

Lemma outcome_depends_witness :
  ignoreFileFinder freshProcess = ignoreFileFinder usedProcess
  ∧ eslint_reset demo (lint freshProcess) = eslint_reset demo (lint usedProcess)
  ∧ pending (snd (run demo libSchedule
                    (start demoEngine libTargets freshProcess))) = Idle
  ∧ pending (snd (run demo libSchedule
                    (start demoEngine libTargets usedProcess))) = Idle
  ∧ snd (run demo libSchedule (start demoEngine libTargets freshProcess))
    = snd (run demo libSchedule (start demoEngine libTargets usedProcess)).
Proof.
  assert (H1 : pending (snd (run demo libSchedule
                               (start demoEngine libTargets freshProcess))) = Idle)
    by (vm_compute; reflexivity).
  assert (H2 : pending (snd (run demo libSchedule
                               (start demoEngine libTargets usedProcess))) = Idle)
    by (vm_compute; reflexivity).
  split; [ reflexivity | ]. split; [ reflexivity | ].
  split; [ exact H1 | ]. split; [ exact H2 | ].
  pose proof (outcome_depends_on_locator_and_reset string nat demo demoEngine
                libTargets freshProcess usedProcess libSchedule libSchedule) as H.
  cbv zeta in H. destruct (H eq_refl eq_refl H1 H2) as [Hs _]. exact Hs.
Defined.

Lemma successive_calls_witness :
  calls (snd (run demo [StatDone] (start demoEngine ["a.js"] freshProcess)))
    = [CbOk [ {| filePath := "a.js"; messages := [] |} ]]
  ∧ calls (snd (run demo walkSchedule
                  (start demoEngine ["lib"]
                     (fst (run demo [StatDone]
                             (start demoEngine ["a.js"] freshProcess))))))
    = [CbOk [ {| filePath := "/proj/lib/x.js"; messages := [] |} ]]
  ∧ pending (snd (run demo libSchedule
                    (start demoEngine (["a.js"] ++ ["lib"]) freshProcess))) = Idle
  ∧ calls (snd (run demo libSchedule
                  (start demoEngine (["a.js"] ++ ["lib"]) freshProcess)))
    = [CbOk ([ {| filePath := "a.js"; messages := [] |} ]
             ++ [ {| filePath := "/proj/lib/x.js"; messages := [] |} ])].
Proof.
  assert (H1 : calls (snd (run demo [StatDone]
                             (start demoEngine ["a.js"] freshProcess)))
               = [CbOk [ {| filePath := "a.js"; messages := [] |} ]])
    by (vm_compute; reflexivity).
  assert (H2 : calls (snd (run demo walkSchedule
                             (start demoEngine ["lib"]
                                (fst (run demo [StatDone]
                                        (start demoEngine ["a.js"] freshProcess))))))
               = [CbOk [ {| filePath := "/proj/lib/x.js"; messages := [] |} ]])
    by (vm_compute; reflexivity).
  assert (H3 : pending (snd (run demo libSchedule
                               (start demoEngine (["a.js"] ++ ["lib"]) freshProcess)))
               = Idle) by (vm_compute; reflexivity).
  split; [ exact H1 | ]. split; [ exact H2 | ]. split; [ exact H3 | ].
  pose proof (successive_calls_compose string nat demo demoEngine
                ["a.js"] ["lib"] freshProcess [StatDone] walkSchedule libSchedule
                [ {| filePath := "a.js"; messages := [] |} ]
                [ {| filePath := "/proj/lib/x.js"; messages := [] |} ]) as H.
  cbv zeta in H. destruct (H H1 H2 H3) as [Hc _]. exact Hc.
Defined.

Lemma every_result_witness :
  In (CbOk libResults)
     (calls (snd (run demo libSchedule (start demoEngine libTargets freshProcess))))
  ∧ Forall (lintedFresh demo (options demoEngine)) libResults.
Proof.
  assert (Hin : In (CbOk libResults)
                  (calls (snd (run demo libSchedule
                                 (start demoEngine libTargets freshProcess))))).
  { vm_compute. left. reflexivity. }
  split; [ exact Hin | ].
  exact (every_result_is_linted_fresh string nat demo demoEngine libTargets
           freshProcess libSchedule libResults Hin).
Defined.

Lemma exception_witness :
  pending (snd (run demo (pkgSchedule ++ [ReaderEvent])
                  (start demoEngine ["pkg"] freshProcess))) = Thrown vendorError
  ∧ Forall (fun cb => exists err, cb = CbErr err)
      (calls (snd (run demo (pkgSchedule ++ [ReaderEvent])
                     (start demoEngine ["pkg"] freshProcess))))
  ∧ run demo [ReaderEvent; StatDone]
      (run demo (pkgSchedule ++ [ReaderEvent])
         (start demoEngine ["pkg"] freshProcess))
    = run demo (pkgSchedule ++ [ReaderEvent])
        (start demoEngine ["pkg"] freshProcess).
Proof.
  assert (Hp : pending (snd (run demo (pkgSchedule ++ [ReaderEvent])
                               (start demoEngine ["pkg"] freshProcess)))
               = Thrown vendorError) by (vm_compute; reflexivity).
  split; [ exact Hp | ].
  pose proof (exception_leaves_no_results string nat demo demoEngine ["pkg"]
                freshProcess (pkgSchedule ++ [ReaderEvent]) vendorError) as H.
  cbv zeta in H. destruct (H Hp) as [Hcalls Hrun].
  split; [ exact Hcalls | apply Hrun ].
Defined.
